(** * GrPPI: stream filter, pipeline, reduce, map and iterator helpers

    A shallow embedding of the following parts of the library, and the
    properties of the design document checked against them:

    - [include/native/stream_filter.h]: [keep] and [discard];
    - [include/omp/pipeline.h]: [pipeline] with its generator task, the farm
      stage, the ordered and the unordered filter stage with the reorder
      task, and both branches of the last (consumer) stage;
    - [include/ff/parallel_execution_ff.h]: the execution policy, [map],
      [reduce] and [map_reduce];
    - [include/common/iterator.h]: [apply_deref_increment],
      [apply_increment], [apply_iterators_indexed], [iterators_next] and
      [advance_iterators];
    - [include/tbb/map.h]: [map].

    Integers of the source ([int], [long], [std::size_t]) are embedded as
    [Z] or [nat].  The tag counter is not wrapped: it would take a stream
    of 2^63 items to overflow a [long].

    Threads and tasks are embedded as transition systems: a step function
    per thread on the shared state, and schedules that say which thread
    moves next.  A stage that is the only reader of its queue, and whose
    actions depend on the items it pops only, is embedded as a function of
    the items the queue delivers. *)

From Stdlib Require Import ZArith Lia.
From stdpp Require Import list.

Open Scope Z_scope.

(** ** The execution policy ([parallel_execution_ff]) *)

Module Policy.

Record parallel_execution := {
  concurrency_degree_ : Z;
  ordering_ : bool
}.

(** [parallel_execution_ff(int concurrency_degree, bool order = true)] *)
Definition make (concurrency_degree : Z) (order : bool) : parallel_execution :=
  {| concurrency_degree_ := concurrency_degree; ordering_ := order |}.

Definition set_concurrency_degree (ex : parallel_execution) (degree : Z)
  : parallel_execution :=
  {| concurrency_degree_ := degree; ordering_ := ordering_ ex |}.

Definition concurrency_degree (ex : parallel_execution) : Z :=
  concurrency_degree_ ex.

Definition enable_ordering (ex : parallel_execution) : parallel_execution :=
  {| concurrency_degree_ := concurrency_degree_ ex; ordering_ := true |}.

Definition disable_ordering (ex : parallel_execution) : parallel_execution :=
  {| concurrency_degree_ := concurrency_degree_ ex; ordering_ := false |}.

Definition is_ordered (ex : parallel_execution) : bool := ordering_ ex.

End Policy.

(** ** Tagged items and queues *)

Module Stream.

Section Items.
Context {T : Type}.

(** [pair<optional<T>, long>]: the payload and its tag. *)
Definition item : Type := option T * Z.

(** The test [!item.first && item.second == -1]. *)
Definition is_end (it : item) : bool :=
  match fst it with
  | Some _ => false
  | None => snd it =? -1
  end.

(** Modelled from the spec: the queue returned by [make_queue]
    ([parallel_execution_native.h] is not among the sources): an unbounded
    FIFO channel.  The queue is kept as the log of everything ever pushed
    and the number of items already popped, so that [pop] returns the items
    in push order and the history stays available. *)
Record queue := {
  pushed : list item;
  popped : nat
}.

Definition make_queue : queue := {| pushed := []; popped := 0 |}.

Definition push (q : queue) (it : item) : queue :=
  {| pushed := pushed q ++ [it]; popped := popped q |}.

(** [pop] blocks on an empty queue: [None] means that the caller cannot
    take this step now. *)
Definition pop (q : queue) : option (item * queue) :=
  match pushed q !! popped q with
  | Some it => Some (it, {| pushed := pushed q; popped := S (popped q) |})
  | None => None
  end.

End Items.

Arguments item : clear implicits.
Arguments queue : clear implicits.

End Stream.

(** ** [keep] and [discard] of the native back end *)

Module StreamFilter.
Import Stream.

Section Keep.
Context {T : Type}.
Variable predicate_op : T -> bool.

(** *** The consumer thread *)

(** The predicate of the buffer search,
    [[&order](auto & item) { bool res = item.second == order;
                             if (res) order++; return res; }]:
    the result and the updated [order]. *)
Definition search_pred (it : item T) (order : Z) : bool * Z :=
  let res := snd it =? order in
  (res, if res then order + 1 else order).

(** [std::remove_if] as the standard library implements it
    ([first = find_if(first, last, p); if (first != last) for (i = first;
    ++i != last;) if (!p( *i)) *first++ = std::move( *i); return first;]):
    [find_if] for the first element to remove, then every later element
    that is kept is move-assigned to the write position [result].  The
    removed elements are not moved behind the returned position: the
    positions there are not written, they keep what the vector held there
    (the standard promises no more than "valid but unspecified"; a
    moved-from [pair<optional<T>,long>] still holds its tag and an engaged
    payload, and an unchanged payload for arithmetic [T]).

    [rest] is the part of the vector still to be read; it is not affected by
    the writes, which happen strictly before the read position. *)
Fixpoint remove_if_shift (rest v : list (item T)) (result : nat) (order : Z)
  : list (item T) * nat * Z :=
  match rest with
  | [] => (v, result, order)
  | x :: rest' =>
      let (res, order') := search_pred x order in
      if res then remove_if_shift rest' v result order'
      else remove_if_shift rest' (<[result := x]> v) (S result) order'
  end.

Fixpoint remove_if_find (rest v : list (item T)) (first : nat) (order : Z)
  : list (item T) * nat * Z :=
  match rest with
  | [] => (v, first, order)
  | x :: rest' =>
      let (res, order') := search_pred x order in
      if res then remove_if_shift rest' v first order'
      else remove_if_find rest' v (S first) order'
  end.

(** [remove_if(begin(v), end(v), search_pred)]: the vector afterwards, the
    returned position and the updated [order]. *)
Definition remove_if (v : list (item T)) (order : Z)
  : list (item T) * nat * Z :=
  remove_if_find v v 0 order.

Record consumer_state := {
  done_threads : Z;
  item_buffer : list (item T);
  order : Z;
  consumed : list T   (* the calls of [consume_op], oldest first *)
}.

(** [if (item.first) { consume_op( *item.first); }] *)
Definition consume_if_present (it : item T) (out : list T) : list T :=
  match fst it with
  | Some x => out ++ [x]
  | None => out
  end.

(** "Search in the buffer for next elements": [remove_if], [for_each] over
    the range behind the returned position, [erase] of that range. *)
Definition search_buffer (c : consumer_state) : consumer_state :=
  let '(v, itrm, order') := remove_if (item_buffer c) (order c) in
  {| done_threads := done_threads c;
     item_buffer := take itrm v;
     order := order';
     consumed := foldl (fun out it => consume_if_present it out)
                       (consumed c) (drop itrm v) |}.

(** [find_if] for the element tagged [order], together with the buffer
    after [erase] of that element. *)
Fixpoint find_erase (order : Z) (buf : list (item T))
  : option (item T * list (item T)) :=
  match buf with
  | [] => None
  | it :: buf' =>
      if snd it =? order then Some (it, buf')
      else match find_erase order buf' with
           | Some (r, b) => Some (r, it :: b)
           | None => None
           end
  end.

(** The closing [for (;;)] loop; every turn erases one element, so
    [length item_buffer] turns are enough to reach the [break]. *)
Fixpoint drain_loop (fuel : nat) (c : consumer_state) : consumer_state :=
  match fuel with
  | O => c
  | S fuel' =>
      match find_erase (order c) (item_buffer c) with
      | None => c
      | Some (it, buf') =>
          drain_loop fuel'
            {| done_threads := done_threads c;
               item_buffer := buf';
               order := order c + 1;
               consumed := consume_if_present it (consumed c) |}
      end
  end.

Definition drain (c : consumer_state) : consumer_state :=
  drain_loop (length (item_buffer c)) c.

(** One turn of the [while] loop for the popped [it]; the flag tells
    whether the loop was left through [break]. *)
Definition consumer_body (W : Z) (c : consumer_state) (it : item T)
  : consumer_state * bool :=
  if is_end it then
    let c1 := {| done_threads := done_threads c + 1;
                 item_buffer := item_buffer c;
                 order := order c;
                 consumed := consumed c |} in
    if done_threads c1 =? W - 1 then (c1, true)
    else (search_buffer c1, false)
  else
    let c1 :=
      if order c =? snd it then
        {| done_threads := done_threads c;
           item_buffer := item_buffer c;
           order := order c + 1;
           consumed := consume_if_present it (consumed c) |}
      else
        {| done_threads := done_threads c;
           item_buffer := item_buffer c ++ [it];
           order := order c;
           consumed := consumed c |} in
    (search_buffer c1, false).

(** The consumer either waits in a [pop] or has left both loops. *)
Inductive consumer_thread :=
| CPop (c : consumer_state)
| CJoined (c : consumer_state).

Definition consumer_of (t : consumer_thread) : consumer_state :=
  match t with CPop c | CJoined c => c end.

Definition consumer_init : consumer_state :=
  {| done_threads := 0; item_buffer := []; order := 0; consumed := [] |}.

(** The consumer after a [pop] has returned [it]: test of the [while]
    condition, body, and the closing loop once the [while] is left. *)
Definition consumer_receive (W : Z) (c : consumer_state) (it : item T)
  : consumer_thread :=
  if done_threads c =? W - 1 then CJoined (drain c)
  else
    let (c', brk) := consumer_body W c it in
    if brk then CJoined (drain c') else CPop c'.

(** *** The filter threads *)

Inductive task_state :=
| WPop                    (* waits in [generated_queue.pop()] *)
| WHold (it : item T)     (* holds the popped item, next is a push *)
| WJoined.

(** What a task pushes to [filtered_queue] for the item it holds, and
    where it continues. *)
Definition task_push (it : item T) : item T * task_state :=
  match fst it with
  | Some x =>
      if predicate_op x then (it, WPop)
      else ((None, snd it), WPop)
  | None => ((fst it, -1), WJoined)
  end.

(** *** The generator (the calling thread) *)

Inductive generator_state :=
| GRun (rest : list T) (order : Z)   (* next: [generate_op()] and a push *)
| GFlush (i : Z)                     (* next: push of end mark number [i] *)
| GJoined.

(** [generate_op] for a stream that yields the elements of a list and
    then the empty optional. *)
Definition generate_op (rest : list T) : option T * list T :=
  match rest with
  | [] => (None, [])
  | x :: rest' => (Some x, rest')
  end.

(** The test [i < ex.concurrency_degree()-1] of the inner [for]. *)
Definition flush_from (W : Z) (i : Z) : generator_state :=
  if i <? W - 1 then GFlush i else GJoined.

(** *** The threads together *)

Record state := {
  generated_queue : queue T;
  filtered_queue : queue T;
  generator : generator_state;
  tasks : list task_state;
  consumer : consumer_thread
}.

Inductive thread := Generator | Task (i : nat) | Consumer.

(** [keep] up to the point where all threads are started:
    [concurrency_degree()-1] filter threads and the consumer.  The source
    subtracts in [int]; [W - 1] is the value of that subtraction for every
    degree above the least [int], where it does not overflow. *)
Definition keep_init (W : Z) (input : list T) : state :=
  {| generated_queue := make_queue;
     filtered_queue := make_queue;
     generator := GRun input 0;
     tasks := replicate (Z.to_nat (W - 1)) WPop;
     consumer := CPop consumer_init |}.

Definition generator_step (W : Z) (s : state) : option state :=
  match generator s with
  | GRun rest order =>
      let (it, rest') := generate_op rest in
      Some {| generated_queue := push (generated_queue s) (it, order);
              filtered_queue := filtered_queue s;
              generator := match it with
                           | Some _ => GRun rest' (order + 1)
                           | None => flush_from W 0
                           end;
              tasks := tasks s;
              consumer := consumer s |}
  | GFlush i =>
      Some {| generated_queue := push (generated_queue s) (None, -1);
              filtered_queue := filtered_queue s;
              generator := flush_from W (i + 1);
              tasks := tasks s;
              consumer := consumer s |}
  | GJoined => None
  end.

Definition task_step (i : nat) (s : state) : option state :=
  match tasks s !! i with
  | Some WPop =>
      match pop (generated_queue s) with
      | Some (it, q) =>
          Some {| generated_queue := q;
                  filtered_queue := filtered_queue s;
                  generator := generator s;
                  tasks := <[i := WHold it]> (tasks s);
                  consumer := consumer s |}
      | None => None
      end
  | Some (WHold it) =>
      let (out, next) := task_push it in
      Some {| generated_queue := generated_queue s;
              filtered_queue := push (filtered_queue s) out;
              generator := generator s;
              tasks := <[i := next]> (tasks s);
              consumer := consumer s |}
  | Some WJoined | None => None
  end.

Definition consumer_step (W : Z) (s : state) : option state :=
  match consumer s with
  | CPop c =>
      match pop (filtered_queue s) with
      | Some (it, q) =>
          Some {| generated_queue := generated_queue s;
                  filtered_queue := q;
                  generator := generator s;
                  tasks := tasks s;
                  consumer := consumer_receive W c it |}
      | None => None
      end
  | CJoined _ => None
  end.

(** One step of thread [th]; [None] when the thread is blocked in a [pop]
    or has finished. *)
Definition step (W : Z) (th : thread) (s : state) : option state :=
  match th with
  | Generator => generator_step W s
  | Task i => task_step i s
  | Consumer => consumer_step W s
  end.

(** A schedule names the thread that moves next; a thread that cannot
    move leaves the state as it is. *)
Definition run (W : Z) (schedule : list thread) (s : state) : state :=
  foldl (fun s th => default s (step W th s)) s schedule.

(** All threads have been joined: [keep] returns. *)
Definition joined (s : state) : bool :=
  match generator s, consumer s with
  | GJoined, CJoined _ =>
      forallb (fun w => match w with WJoined => true | _ => false end) (tasks s)
  | _, _ => false
  end.

(** The values handed to [consume_op] so far. *)
Definition delivered (s : state) : list T :=
  consumed (consumer_of (consumer s)).

End Keep.

Arguments consumer_state : clear implicits.
Arguments consumer_thread : clear implicits.
Arguments task_state : clear implicits.
Arguments generator_state : clear implicits.
Arguments state : clear implicits.

(** [keep(ex, generate_op, predicate_op, consume_op)] under a schedule. *)
Definition keep {T} (ex : Policy.parallel_execution)
    (input : list T) (predicate_op : T -> bool) (schedule : list thread)
  : state T :=
  let W := Policy.concurrency_degree ex in
  run predicate_op W schedule (keep_init W input).

(** [discard]: [keep] with [[&](auto val) { return !predicate_op(val); }]. *)
Definition discard {T} (ex : Policy.parallel_execution)
    (input : list T) (predicate_op : T -> bool) (schedule : list thread)
  : state T :=
  keep ex input (fun val => negb (predicate_op val)) schedule.

End StreamFilter.

(** ** The OpenMP pipeline: generator task, farm stage, last stage *)

Module OmpPipeline.
Import Stream.

Section Pipeline.
Context {T U : Type}.

(** *** The generator task of [pipeline] *)

(** [for (;;) { auto item = generate_op();
               output_queue.push(make_pair(item,order++));
               if (!item) break; }]: everything the task pushes. *)
Fixpoint generator_task (rest : list T) (order : Z) : list (item T) :=
  match rest with
  | [] => [(None, order)]
  | x :: rest' => (Some x, order) :: generator_task rest' (order + 1)
  end.

(** *** The last stage, [ex.is_ordered()] branch *)

(** What becomes of the task: it returns with the calls of [consume_op]
    made, it waits for ever in [input_queue.pop()], or the closing
    [while (elements.size()>0)] never ends. *)
Inductive outcome :=
| Returned (out : list T)
| Blocked (out : list T)
| Spins (out : list T).

(** The [for] loop over [elements]: the first element tagged [current] is
    handed to [consume_op] and erased, then [break].  Only items that
    passed [while (item.first)] are buffered, so an element is kept as its
    payload and tag. *)
Fixpoint release_one (current : Z) (elements : list (T * Z))
  : option (T * list (T * Z)) :=
  match elements with
  | [] => None
  | e :: elements' =>
      if snd e =? current then Some (fst e, elements')
      else match release_one current elements' with
           | Some (x, r) => Some (x, e :: r)
           | None => None
           end
  end.

(** [while (elements.size()>0) { for ... }]; [fuel] is [elements.size()],
    which drops by one in every turn that finds an element. *)
Fixpoint last_stage_drain (fuel : nat) (elements : list (T * Z))
    (current : Z) (out : list T) : outcome :=
  match fuel with
  | O => Returned out
  | S fuel' =>
      match release_one current elements with
      | None => Spins out
      | Some (x, elements') =>
          last_stage_drain fuel' elements' (current + 1) (out ++ [x])
      end
  end.

(** One turn of the [while (item.first)] loop, for an item with payload
    [x]: the item is consumed or buffered, then the [for] loop releases at
    most one buffered element. *)
Definition last_stage_body (st : list (T * Z) * Z * list T) (x : T) (tag : Z)
  : list (T * Z) * Z * list T :=
  let '(elements, current, out) := st in
  let '(elements1, current1, out1) :=
    if current =? tag then (elements, current + 1, out ++ [x])
    else (elements ++ [(x, tag)], current, out) in
  match release_one current1 elements1 with
  | Some (y, elements2) => (elements2, current1 + 1, out1 ++ [y])
  | None => (elements1, current1, out1)
  end.

(** The [while (item.first)] loop over the items that [input_queue]
    delivers, in the order of delivery, and what follows it. *)
Fixpoint last_stage_loop (arrivals : list (item T))
    (st : list (T * Z) * Z * list T) : outcome :=
  match arrivals with
  | [] => Blocked (snd st)
  | it :: arrivals' =>
      match fst it with
      | None =>
          let '(elements, current, out) := st in
          last_stage_drain (length elements) elements current out
      | Some x => last_stage_loop arrivals' (last_stage_body st x (snd it))
      end
  end.

Definition last_stage (arrivals : list (item T)) : outcome :=
  last_stage_loop arrivals ([], 0, []).

(** *** The farm stage *)

Variable task : T -> U.   (* [farm_obj.task] *)

Inductive farm_task :=
| FPop                         (* waits in [input_queue.pop()] *)
| FHold (x : T) (tag : Z)      (* next: push of the result *)
| FPushBack (it : item T)      (* next: [input_queue.push(item)] *)
| FIncr                        (* next: [done_threads++] *)
| FTest                        (* next: [if (done_threads==...)] *)
| FJoined.

Record farm_state := {
  input_queue : queue T;
  output_queue : queue U;
  done_threads : Z;
  farm_tasks : list farm_task
}.

(** The stage with its [concurrency_degree()] tasks created. *)
Definition farm_init (W : Z) (input : queue T) : farm_state :=
  {| input_queue := input;
     output_queue := make_queue;
     done_threads := 0;
     farm_tasks := replicate (Z.to_nat W) FPop |}.

Definition farm_set (s : farm_state) (th : nat) (t : farm_task)
  : list farm_task := <[th := t]> (farm_tasks s).

(** One atomic action of task [th]: a queue operation, the increment of
    the atomic counter, or its comparison with the concurrency degree. *)
Definition farm_step (W : Z) (th : nat) (s : farm_state) : option farm_state :=
  match farm_tasks s !! th with
  | Some FPop =>
      match pop (input_queue s) with
      | Some (it, q) =>
          Some {| input_queue := q;
                  output_queue := output_queue s;
                  done_threads := done_threads s;
                  farm_tasks := farm_set s th
                                  match fst it with
                                  | Some x => FHold x (snd it)
                                  | None => FPushBack it
                                  end |}
      | None => None
      end
  | Some (FHold x tag) =>
      Some {| input_queue := input_queue s;
              output_queue := push (output_queue s) (Some (task x), tag);
              done_threads := done_threads s;
              farm_tasks := farm_set s th FPop |}
  | Some (FPushBack it) =>
      Some {| input_queue := push (input_queue s) it;
              output_queue := output_queue s;
              done_threads := done_threads s;
              farm_tasks := farm_set s th FIncr |}
  | Some FIncr =>
      Some {| input_queue := input_queue s;
              output_queue := output_queue s;
              done_threads := done_threads s + 1;
              farm_tasks := farm_set s th FTest |}
  | Some FTest =>
      Some {| input_queue := input_queue s;
              output_queue :=
                if done_threads s =? W
                then push (output_queue s) (None, -1)
                else output_queue s;
              done_threads := done_threads s;
              farm_tasks := farm_set s th FJoined |}
  | Some FJoined | None => None
  end.

Definition farm_run (W : Z) (schedule : list nat) (s : farm_state)
  : farm_state :=
  foldl (fun s th => default s (farm_step W th s)) s schedule.

(** *** The last stage, [else] branch *)

(** [auto item = input_queue.pop(); while (item.first) {
    consume_op( *item.first); item = input_queue.pop(); }] *)
Fixpoint last_stage_unordered_loop (arrivals : list (item T)) (out : list T)
  : outcome :=
  match arrivals with
  | [] => Blocked out
  | it :: arrivals' =>
      match fst it with
      | None => Returned out
      | Some x => last_stage_unordered_loop arrivals' (out ++ [x])
      end
  end.

(** [pipeline_impl(ex, input_queue, consume_op)], for the items that
    [input_queue] delivers; [ordered] is [ex.is_ordered()]. *)
Definition pipeline_impl_last (ordered : bool) (arrivals : list (item T))
  : outcome :=
  if ordered then last_stage arrivals
  else last_stage_unordered_loop arrivals [].

(** The calls of [consume_op], or the pushes, that a task has made. *)
Definition effects (o : outcome) : list T :=
  match o with Returned out | Blocked out | Spins out => out end.

(** *** [pipeline] with a generator, a farm stage and a consumer *)

(** The generator task, one turn of its loop at a time: the elements that
    [generate_op] has still to return and the value of [order]; [None]
    once the task has ended. *)
Definition generator_step (g : option (list T * Z)) (q : queue T)
  : option (option (list T * Z) * queue T) :=
  match g with
  | Some (x :: rest, order) => Some (Some (rest, order + 1), push q (Some x, order))
  | Some ([], order) => Some (None, push q (None, order))
  | None => None
  end.

Inductive pipeline_thread :=
| PGenerator
| PStage (th : nat).

Record farm_pipeline_state := {
  farm_generator : option (list T * Z);
  farm_stage : farm_state
}.

(** [pipeline(ex, generate_op, farm_obj, consume_op)] with the generator
    task and the tasks of the farm stage created; [generate_op] returns
    the elements of [input] and then the empty optional. *)
Definition farm_pipeline_init (W : Z) (input : list T) : farm_pipeline_state :=
  {| farm_generator := Some (input, 0);
     farm_stage := farm_init W make_queue |}.

Definition farm_pipeline_step (W : Z) (th : pipeline_thread)
    (s : farm_pipeline_state) : option farm_pipeline_state :=
  match th with
  | PGenerator =>
      match generator_step (farm_generator s) (input_queue (farm_stage s)) with
      | Some (g, q) =>
          Some {| farm_generator := g;
                  farm_stage :=
                    {| input_queue := q;
                       output_queue := output_queue (farm_stage s);
                       done_threads := done_threads (farm_stage s);
                       farm_tasks := farm_tasks (farm_stage s) |} |}
      | None => None
      end
  | PStage th =>
      match farm_step W th (farm_stage s) with
      | Some f => Some {| farm_generator := farm_generator s; farm_stage := f |}
      | None => None
      end
  end.

Definition farm_pipeline_run (W : Z) (schedule : list pipeline_thread)
    (s : farm_pipeline_state) : farm_pipeline_state :=
  foldl (fun s th => default s (farm_pipeline_step W th s)) s schedule.

End Pipeline.

(** *** The filter stage *)

Section FilterStage.
Context {T : Type}.
Variable task : T -> bool.   (* [filter_obj.task] *)
Variable ordered : bool.     (* [ex.is_ordered()] *)

(** A task of [pipeline_impl_ordered] or [pipeline_impl_unordered]. *)
Inductive filter_task :=
| QPop                         (* waits in [input_queue.pop()] *)
| QHold (x : T) (tag : Z)      (* next: the test of [x] and the push *)
| QIncr (it : item T)          (* next: [done_threads++] *)
| QTest (it : item T)          (* next: [if (done_threads==...)] *)
| QEnd                         (* next: the push of [(empty, -1)] *)
| QBack (it : item T)          (* next: [input_queue.push(item)] *)
| QJoined.

(** [filter_output] is [tmp_queue] in [pipeline_impl_ordered] and
    [output_queue] in [pipeline_impl_unordered]. *)
Record filter_state := {
  filter_generator : option (list T * Z);
  filter_input : queue T;
  filter_output : queue T;
  filter_done : Z;
  filter_tasks : list filter_task
}.

(** [pipeline(ex, generate_op, filter_obj, consume_op)] with the generator
    task and the tasks of the filter stage created. *)
Definition filter_init (W : Z) (input : list T) : filter_state :=
  {| filter_generator := Some (input, 0);
     filter_input := make_queue;
     filter_output := make_queue;
     filter_done := 0;
     filter_tasks := replicate (Z.to_nat W) QPop |}.

(** The body of [while (item.first)]: the ordered stage pushes the item or
    a hole with its tag, the unordered stage pushes the item or nothing. *)
Definition filter_push (q : queue T) (x : T) (tag : Z) : queue T :=
  if task x then push q (Some x, tag)
  else if ordered then push q (None, tag)
  else q.

Definition filter_set (s : filter_state) (th : nat) (t : filter_task)
  : list filter_task := <[th := t]> (filter_tasks s).

(** One atomic action of task [th]. *)
Definition filter_task_step (W : Z) (th : nat) (s : filter_state)
  : option filter_state :=
  match filter_tasks s !! th with
  | Some QPop =>
      match pop (filter_input s) with
      | Some (it, q) =>
          Some {| filter_generator := filter_generator s;
                  filter_input := q;
                  filter_output := filter_output s;
                  filter_done := filter_done s;
                  filter_tasks := filter_set s th
                                    match fst it with
                                    | Some x => QHold x (snd it)
                                    | None => QIncr it
                                    end |}
      | None => None
      end
  | Some (QHold x tag) =>
      Some {| filter_generator := filter_generator s;
              filter_input := filter_input s;
              filter_output := filter_push (filter_output s) x tag;
              filter_done := filter_done s;
              filter_tasks := filter_set s th QPop |}
  | Some (QIncr it) =>
      Some {| filter_generator := filter_generator s;
              filter_input := filter_input s;
              filter_output := filter_output s;
              filter_done := filter_done s + 1;
              filter_tasks := filter_set s th (QTest it) |}
  | Some (QTest it) =>
      Some {| filter_generator := filter_generator s;
              filter_input := filter_input s;
              filter_output := filter_output s;
              filter_done := filter_done s;
              filter_tasks := filter_set s th
                                (if filter_done s =? W then QEnd else QBack it) |}
  | Some QEnd =>
      Some {| filter_generator := filter_generator s;
              filter_input := filter_input s;
              filter_output := push (filter_output s) (None, -1);
              filter_done := filter_done s;
              filter_tasks := filter_set s th QJoined |}
  | Some (QBack it) =>
      Some {| filter_generator := filter_generator s;
              filter_input := push (filter_input s) it;
              filter_output := filter_output s;
              filter_done := filter_done s;
              filter_tasks := filter_set s th QJoined |}
  | Some QJoined | None => None
  end.

Definition filter_step (W : Z) (th : pipeline_thread) (s : filter_state)
  : option filter_state :=
  match th with
  | PGenerator =>
      match generator_step (filter_generator s) (filter_input s) with
      | Some (g, q) =>
          Some {| filter_generator := g;
                  filter_input := q;
                  filter_output := filter_output s;
                  filter_done := filter_done s;
                  filter_tasks := filter_tasks s |}
      | None => None
      end
  | PStage th => filter_task_step W th s
  end.

Definition filter_run (W : Z) (schedule : list pipeline_thread)
    (s : filter_state) : filter_state :=
  foldl (fun s th => default s (filter_step W th s)) s schedule.

End FilterStage.

(** *** The reorder task of [pipeline_impl_ordered] *)

Section Reorder.
Context {T : Type}.

(** [if (item.first) output_queue.push(make_pair(item.first, order++))] *)
Definition reorder_push (it : item T) (order : Z) (out : list (item T))
  : Z * list (item T) :=
  match fst it with
  | Some x => (order + 1, out ++ [(Some x, order)])
  | None => (order, out)
  end.

(** The [for] loop over [elements] up to its [break]: the first element
    tagged [current], and the elements that stay. *)
Fixpoint reorder_find (current : Z) (elements : list (item T))
  : option (item T * list (item T)) :=
  match elements with
  | [] => None
  | e :: elements' =>
      if snd e =? current then Some (e, elements')
      else match reorder_find current elements' with
           | Some (x, r) => Some (x, e :: r)
           | None => None
           end
  end.

(** The local variables [elements], [current], [order], and the items
    pushed to [output_queue]. *)
Record reorder_state := {
  elements : list (item T);
  current : Z;
  order : Z;
  output : list (item T)
}.

(** The [for] loop with its body. *)
Definition reorder_release (st : reorder_state) : option reorder_state :=
  match reorder_find (current st) (elements st) with
  | Some (e, elements') =>
      let '(order', out') := reorder_push e (order st) (output st) in
      Some {| elements := elements'; current := current st + 1;
              order := order'; output := out' |}
  | None => None
  end.

(** One turn of [for (;;)] for an item that is not the end mark. *)
Definition reorder_body (st : reorder_state) (it : item T) : reorder_state :=
  let st1 :=
    if snd it =? current st then
      let '(order', out') := reorder_push it (order st) (output st) in
      {| elements := elements st; current := current st + 1;
         order := order'; output := out' |}
    else
      {| elements := elements st ++ [it]; current := current st;
         order := order st; output := output st |} in
  match reorder_release st1 with
  | Some st2 => st2
  | None => st1
  end.

(** [while (elements.size()>0) { for ... }], then
    [output_queue.push(item)]; [fuel] is [elements.size()]. *)
Fixpoint reorder_drain (fuel : nat) (st : reorder_state) (it : item T)
  : @outcome (item T) :=
  match fuel with
  | O => Returned (output st ++ [it])
  | S fuel' =>
      match reorder_release st with
      | None => Spins (output st)
      | Some st' => reorder_drain fuel' st' it
      end
  end.

(** The task, for the items that [tmp_queue] delivers. *)
Fixpoint reorder_loop (arrivals : list (item T)) (st : reorder_state)
  : @outcome (item T) :=
  match arrivals with
  | [] => Blocked (output st)
  | it :: arrivals' =>
      if is_end it then reorder_drain (length (elements st)) st it
      else reorder_loop arrivals' (reorder_body st it)
  end.

Definition reorder (arrivals : list (item T)) : @outcome (item T) :=
  reorder_loop arrivals
    {| elements := []; current := 0; order := 0; output := [] |}.

End Reorder.

(** [pipeline(ex, generate_op, filter_obj, consume_op)]: what the last
    stage does with the items that have reached it, given the items the
    filter tasks have pushed.  In the ordered pipeline they pass the
    reorder task first. *)
Definition filter_pipeline_result {T} (ordered : bool)
    (pushed_by_filter : list (item T)) : @outcome T :=
  if ordered
  then pipeline_impl_last true (effects (reorder pushed_by_filter))
  else pipeline_impl_last false pushed_by_filter.

End OmpPipeline.

(** ** [parallel_execution_ff::reduce] *)

Module FFReduce.

Section Reduce.
Context {A : Type}.

(** Modelled from the spec: [ff::ParallelForReduce::parallel_reduce]
    (FastFlow is not among the sources).  The index range is partitioned
    among the workers; [chunks] lists, per worker, the indices it runs.
    Every worker starts from [identity] and applies [body] to its indices;
    the partial results are then folded into [var] with [final]. *)
Definition parallel_reduce (var identity : A) (chunks : list (list nat))
    (body : nat -> A -> A) (final : A -> A -> A) : A :=
  foldl final var
    (map (fun chunk => foldl (fun value delta => body delta value)
                             identity chunk) chunks).

(** [value = combine_op(value, *std::next(first,delta))]; the iterators of
    [[first, first+sequence_size)] are valid by precondition, an index
    outside of the sequence leaves [value] alone. *)
Definition reduce_body (first : list A) (combine_op : A -> A -> A)
    (delta : nat) (value : A) : A :=
  match first !! delta with
  | Some x => combine_op value x
  | None => value
  end.

(** [reduce(first, sequence_size, identity, combine_op)] for the partition
    [chunks] of [[0, sequence_size)] that the run time chooses. *)
Definition reduce (chunks : list (list nat)) (first : list A)
    (identity : A) (combine_op : A -> A -> A) : A :=
  parallel_reduce identity identity chunks
    (reduce_body first combine_op) combine_op.

End Reduce.

(** A partition of [[0, n)]: every index runs on exactly one worker. *)
Definition partitions (chunks : list (list nat)) (n : nat) : Prop :=
  concat chunks ≡ₚ seq 0 n.

(** Contiguous blocks of [size] indices (the last one may be shorter), the
    way a static schedule cuts [[start, start+n)]. *)
Fixpoint blocks (fuel : nat) (size start n : nat) : list (list nat) :=
  match fuel with
  | O => []
  | S fuel' =>
      if (n <=? size)%nat then [seq start n]
      else seq start size :: blocks fuel' size (start + size) (n - size)
  end.

(** The static partition of [[0, n)] among [nw] workers: blocks of
    [ceil(n / nw)] indices. *)
Definition static_chunks (nw n : nat) : list (list nat) :=
  blocks n (Nat.max 1 ((n + nw - 1) / Nat.max 1 nw)) 0 n.

(** [ex.reduce(first, sequence_size, identity, combine_op)] when the run
    time cuts the range into the blocks of a static schedule for
    [concurrency_degree_] workers. *)
Definition reduce_static {A} (ex : Policy.parallel_execution)
    (first : list A) (sequence_size : nat)
    (identity : A) (combine_op : A -> A -> A) : A :=
  reduce (static_chunks (Z.to_nat (Policy.concurrency_degree ex)) sequence_size)
    first identity combine_op.

End FFReduce.

(** ** [apply_deref_increment] *)

Module Iterator.

Section Iterators.
Context {A B : Type}.

(** An iterator: the sequence it walks and its position in it. *)
Record iterator := {
  base : list A;
  pos : nat
}.

(** [*it]; [None] when [it] is not dereferenceable. *)
Definition deref (it : iterator) : option A := base it !! pos it.

(** [++it] *)
Definition increment (it : iterator) : iterator :=
  {| base := base it; pos := S (pos it) |}.

(** Computations on the tuple of iterators, which is passed by reference:
    they read and update the tuple and fail on an invalid dereference. *)
Definition action (R : Type) : Type := list iterator -> option (R * list iterator).

Definition ret {R} (r : R) : action R := fun its => Some (r, its).

Definition bind {R S} (m : action R) (k : R -> action S) : action S :=
  fun its =>
    match m its with
    | Some (r, its') => k r its'
    | None => None
    end.

(** [*std::get<i>(iterators)++]: the copy made by the post-increment is
    dereferenced, the tuple element has moved on. *)
Definition deref_post_increment (i : nat) : action A :=
  fun its =>
    match its !! i with
    | Some it =>
        match deref it with
        | Some x => Some (x, <[i := increment it]> its)
        | None => None
        end
    | None => None
    end.

(** The pack expansion [( *std::get<I>(iterators)++ ... )], evaluated from
    left to right. *)
Fixpoint expand (Is : list nat) : action (list A) :=
  match Is with
  | [] => ret []
  | i :: Is' =>
      bind (deref_post_increment i) (fun x =>
      bind (expand Is') (fun xs => ret (x :: xs)))
  end.

(** [internal::apply_deref_increment(f, iterators, index_sequence<I...>)] *)
Definition apply_deref_increment_impl (f : list A -> B) (Is : list nat)
  : action B :=
  bind (expand Is) (fun args => ret (f args)).

(** [apply_deref_increment(f, iterators)], with
    [std::make_index_sequence<sizeof...(Iterators)>]. *)
Definition apply_deref_increment (f : list A -> B) : action B :=
  fun iterators =>
    apply_deref_increment_impl f (seq 0 (length iterators)) iterators.

(** [std::get<i>(iterators)++]: the value is the copy made by the
    post-increment, the tuple element has moved on.  The source may only
    increment an iterator that is before the end of its sequence. *)
Definition post_increment (i : nat) : action iterator :=
  fun its =>
    match its !! i with
    | Some it => Some (it, <[i := increment it]> its)
    | None => None
    end.

(** The pack expansion [(std::get<I>(iterators)++ ...)]. *)
Fixpoint expand_increment (Is : list nat) : action (list iterator) :=
  match Is with
  | [] => ret []
  | i :: Is' =>
      bind (post_increment i) (fun it =>
      bind (expand_increment Is') (fun its => ret (it :: its)))
  end.

(** [internal::apply_increment(f, iterators, index_sequence<I...>)] *)
Definition apply_increment_impl (f : list iterator -> B) (Is : list nat)
  : action B :=
  bind (expand_increment Is) (fun args => ret (f args)).

(** [apply_increment(f, iterators)] *)
Definition apply_increment (f : list iterator -> B) : action B :=
  fun iterators =>
    apply_increment_impl f (seq 0 (length iterators)) iterators.

(** [it[i]], that is [*(it + i)], for a [std::size_t i]. *)
Definition subscript (it : iterator) (i : nat) : option A :=
  base it !! (pos it + i)%nat.

(** [internal::apply_iterators_indexed_impl(f, t, i, index_sequence<I...>)]:
    [f(std::get<I>(t)[i]...)].  The tuple is only read. *)
Definition apply_iterators_indexed_impl (f : list A -> B) (t : list iterator)
    (i : nat) (Is : list nat) : option B :=
  f <$> mapM (fun I => t !! I ≫= fun it => subscript it i) Is.

(** [apply_iterators_indexed(f, t, i)] *)
Definition apply_iterators_indexed (f : list A -> B) (t : list iterator)
    (i : nat) : option B :=
  apply_iterators_indexed_impl f t i (seq 0 (length t)).

(** [std::next(it, n)] for an [int n], which may be negative; there is no
    iterator before the first position of the sequence. *)
Definition next (it : iterator) (n : Z) : option iterator :=
  if 0 <=? Z.of_nat (pos it) + n
  then Some {| base := base it; pos := Z.to_nat (Z.of_nat (pos it) + n) |}
  else None.

(** [internal::iterators_next_impl(t, n, index_sequence<I...>)]:
    [make_tuple(std::next(std::get<I>(t), n)...)]. *)
Definition iterators_next_impl (t : list iterator) (n : Z) (Is : list nat)
  : option (list iterator) :=
  mapM (fun I => t !! I ≫= fun it => next it n) Is.

(** [iterators_next(t, n)] *)
Definition iterators_next (t : list iterator) (n : Z)
  : option (list iterator) :=
  iterators_next_impl t n (seq 0 (length t)).

(** [in += delta] for a [size_t delta]. *)
Definition advance (delta : nat) (it : iterator) : iterator :=
  {| base := base it; pos := (pos it + delta)%nat |}.

(** [advance_iterators(delta, in...)]: [(in += delta, 0) ...]; the pack of
    references is the list of the iterators referred to. *)
Definition advance_iterators_by (delta : nat) (ins : list iterator)
  : list iterator :=
  advance delta <$> ins.

(** [advance_iterators(in...)]: [(in++, 0) ...]. *)
Definition advance_iterators (ins : list iterator) : list iterator :=
  increment <$> ins.

End Iterators.

Arguments iterator : clear implicits.
Arguments action : clear implicits.

End Iterator.

(** ** [parallel_execution_ff::map] and [map_reduce] *)

Module FFMap.

Section Map.
Context {A B : Type}.

(** Modelled from the spec: [ff::ParallelFor::parallel_for(first, last,
    body, nw)] (FastFlow is not among the sources) calls [body] once for
    every index of [[first, last)], on [nw] workers; [order] is the order
    in which the calls take effect. *)
Definition parallel_for {S : Type} (order : list nat) (body : nat -> S -> S)
    (s : S) : S :=
  foldl (fun s delta => body delta s) s order.

(** The orders [parallel_for] may choose for [[0, n)]. *)
Definition covers (order : list nat) (n : nat) : Prop := order ≡ₚ seq 0 n.

(** The body [[=](const long delta) { *std::next(first_out, delta) =
    apply_iterators_indexed(transform_op, firsts, delta); }].  The output
    iterator is the output sequence [out] and the position [first_out] in
    it; by the precondition of [map] all iterators used are valid, a call
    that would use an invalid one leaves [out] alone. *)
Definition map_body (firsts : list (Iterator.iterator A)) (first_out : nat)
    (transform_op : list A -> B) (delta : nat) (out : list B) : list B :=
  match Iterator.apply_iterators_indexed transform_op firsts delta with
  | Some v => <[(first_out + delta)%nat := v]> out
  | None => out
  end.

(** [ex.map(firsts, first_out, sequence_size, transform_op)] *)
Definition map (order : list nat) (firsts : list (Iterator.iterator A))
    (out : list B) (first_out : nat) (sequence_size : nat)
    (transform_op : list A -> B) : list B :=
  parallel_for order (map_body firsts first_out transform_op) out.

(** [ex.map_reduce(firsts, sequence_size, identity, transform_op,
    combine_op)]: [partial_outs] is a vector of [sequence_size]
    value-initialised elements, [value_init] each; [order] and [chunks]
    are what the run time chooses for the [map] and for the [reduce]. *)
Definition map_reduce (order : list nat) (chunks : list (list nat))
    (firsts : list (Iterator.iterator A)) (sequence_size : nat)
    (identity : B) (transform_op : list A -> B) (combine_op : B -> B -> B)
    (value_init : B) : B :=
  let partial_outs := replicate sequence_size value_init in
  let partial_outs :=
    map order firsts partial_outs 0 sequence_size transform_op in
  FFReduce.reduce chunks partial_outs identity combine_op.

End Map.

End FFMap.

(** ** [map] of the TBB back end *)

Module TbbMap.

Section Map.
Context {A B : Type}.


(** [tbb::parallel_for(first, last, f)] (of the TBB library, not among the
    sources) calls [f] once for every index of [[first, last)]; the order
    in which the calls take effect is left to the run time and taken as
    the parameter [order]. *)
Definition parallel_for {S : Type} (order : list Z) (f : Z -> S -> S) (s : S)
  : S :=
  foldl (fun s index => f index s) s order.

(** The orders [parallel_for] may choose for [[0, n)]. *)
Definition covers (order : list Z) (n : Z) : Prop :=
  order ≡ₚ map Z.of_nat (seq 0 (Z.to_nat n)).

(** The element an iterator at position [p] refers to. *)
Definition at_pos {X} (mem : list X) (p : Z) : option X :=
  if p <? 0 then None else mem !! Z.to_nat p.

(** [*current = v] with [current] at position [p]. *)
Definition store (out : list B) (p : Z) (v : B) : list B :=
  if p <? 0 then out else <[Z.to_nat p := v]> out.

(** The body [[&](std::size_t index){ auto current = (first_out+index);
    *current = op( *(first+index)); }].  Input and output are distinct
    sequences; positions are offsets into them. *)
Definition map_body (op : A -> B) (input : list A) (first first_out : Z)
    (index : Z) (out : list B) : list B :=
  match at_pos input (first + index) with
  | Some x => store out (first_out + index) (op x)
  | None => out
  end.

Definition map (order : list Z) (input : list A) (first last : Z)
    (out : list B) (first_out : Z) (op : A -> B) : list B :=
  parallel_for order (map_body op input first first_out) out.




End Map.


End TbbMap.

(** * Properties *)

Import Stream StreamFilter.

(** ** [apply_deref_increment] *)

Section IteratorFacts.
Import Iterator.
Context {A B : Type}.

(** The iterators refer to the values [vals], position by position. *)
Definition refer (iterators : list (iterator A)) (vals : list A) : Prop :=
  Forall2 (fun it x => deref it = Some x) iterators vals.

Lemma expand_seq (done todo : list (iterator A)) (vals : list A) :
  refer todo vals ->
  expand (seq (length done) (length todo)) (done ++ todo)
  = Some (vals, done ++ (increment <$> todo)).
Proof.
  intros Href. revert done.
  induction Href as [|it x todo vals Hit Href IH]; intros done.
  - reflexivity.
  - cbn [length seq expand]. unfold bind at 1, deref_post_increment.
    rewrite lookup_app_r by lia.
    replace (length done - length done)%nat with 0%nat by lia.
    cbn [lookup list_lookup]. rewrite Hit.
    rewrite insert_app_r_alt by lia.
    replace (length done - length done)%nat with 0%nat by lia.
    cbn [insert list_insert].
    unfold bind.
    specialize (IH (done ++ [increment it])).
    rewrite length_app, Nat.add_1_r, <- !(assoc_L (++)) in IH.
    cbn [app] in IH. rewrite IH. reflexivity.
Qed.

(** C9. [apply_deref_increment(f, iterators)] returns [f] applied to the
    values the iterators of the tuple referred to before the call, and
    leaves every iterator of the tuple advanced by exactly one position. *)
Theorem apply_deref_increment_spec
    (f : list A -> B) (iterators : list (iterator A)) (vals : list A) :
  refer iterators vals ->
  apply_deref_increment f iterators
  = Some (f vals, increment <$> iterators)
  /\ (forall i it, iterators !! i = Some it ->
        (increment <$> iterators) !! i
        = Some {| base := base it; pos := S (pos it) |}).
Proof.
  intros Href. split.
  - unfold apply_deref_increment, apply_deref_increment_impl, bind.
    pose proof (expand_seq [] iterators vals Href) as H.
    cbn [length app] in H. rewrite H. reflexivity.
  - intros i it Hi. rewrite list_lookup_fmap, Hi. reflexivity.
Qed.

End IteratorFacts.

Lemma apply_deref_increment_witness :
  Iterator.apply_deref_increment (fun args => foldr Z.add 0 args)
    [ {| Iterator.base := [1; 2; 3]; Iterator.pos := 0 |};
      {| Iterator.base := [10; 20]; Iterator.pos := 1 |} ]
  = Some (21, [ {| Iterator.base := [1; 2; 3]; Iterator.pos := 1 |};
                {| Iterator.base := [10; 20]; Iterator.pos := 2 |} ]).
Proof.
  refine (proj1 (apply_deref_increment_spec _ _ [1; 20] _)).
  repeat constructor.
Defined.

(** ** Folds *)


(** ** [map] of the TBB back end *)

Section TbbMapFacts.
Import TbbMap.
Context {A B : Type}.



(** The loop bodies of both overloads store, at [first_out + index], a
    value that depends on the index only. *)
Section Stores.
Variable val : Z -> option B.
Variable first_out : Z.





End Stores.







End TbbMapFacts.


(** ** [parallel_execution_ff::reduce] *)

Section ReduceFacts.
Import FFReduce.

(** The value [reduce_body] adds for index [delta]. *)
Definition term (first : list Z) (delta : nat) : Z := default 0 (first !! delta).

Lemma foldl_add_shift (l : list Z) (a : Z) :
  foldl Z.add a l = a + foldl Z.add 0 l.
Proof.
  revert a. induction l as [|x l IH]; intros a; cbn; [lia |].
  rewrite (IH (a + x)), (IH (0 + x)). lia.
Qed.

Lemma fold_chunk (first : list Z) (chunk : list nat) (a : Z) :
  foldl (fun value delta => reduce_body first Z.add delta value) a chunk
  = a + foldl Z.add 0 (term first <$> chunk).
Proof.
  revert a. induction chunk as [|d chunk IH]; intros a; cbn; [lia |].
  rewrite IH, (foldl_add_shift _ (0 + _)).
  unfold reduce_body, term. destruct (first !! d); cbn; lia.
Qed.

Lemma reduce_add_concat (chunks : list (list nat)) (first : list Z) :
  reduce chunks first 0 Z.add = foldl Z.add 0 (term first <$> concat chunks).
Proof.
  unfold reduce, parallel_reduce.
  induction chunks as [|chunk chunks IH]; [done |].
  cbn [map concat foldl]. rewrite fmap_app, foldl_app.
  rewrite foldl_add_shift, IH, fold_chunk.
  rewrite (foldl_add_shift _ (foldl _ _ _)). lia.
Qed.

Lemma foldl_add_perm (l k : list Z) :
  l ≡ₚ k -> foldl Z.add 0 l = foldl Z.add 0 k.
Proof.
  induction 1 as [|x l k _ IH|x y l|l k m _ IH1 _ IH2]; cbn.
  - done.
  - rewrite (foldl_add_shift l), (foldl_add_shift k). lia.
  - rewrite (foldl_add_shift _ (0 + y + x)), (foldl_add_shift _ (0 + x + y)). lia.
  - congruence.
Qed.

Lemma terms_of_range (first : list Z) :
  term first <$> seq 0 (length first) = first.
Proof.
  apply list_eq. intros i. rewrite list_lookup_fmap.
  destruct (first !! i) as [x|] eqn:Hi.
  - rewrite lookup_seq_lt by (by eapply lookup_lt_Some).
    cbn. unfold term. by rewrite Hi.
  - rewrite lookup_seq_ge; [done |]. by apply lookup_ge_None.
Qed.

Lemma sum_1_to (N : nat) :
  2 * foldl Z.add 0 (Z.of_nat <$> seq 1 N) = Z.of_nat N * (Z.of_nat N + 1).
Proof.
  induction N as [|N IH]; [done |].
  rewrite seq_S, fmap_app, foldl_app. cbn. lia.
Qed.

Lemma blocks_concat fuel size start n :
  (n <= fuel)%nat -> (1 <= size)%nat ->
  concat (blocks fuel size start n) = seq start n.
Proof.
  revert start n. induction fuel as [|fuel IH]; intros start n Hn Hs.
  - by replace n with 0%nat by lia.
  - cbn [blocks]. destruct (Nat.leb_spec n size).
    + cbn. by rewrite app_nil_r.
    + cbn [concat]. rewrite IH by lia.
      replace n with (size + (n - size))%nat at 2 by lia.
      by rewrite seq_app.
Qed.

(** The static partition is a partition, whatever the number of workers. *)
Lemma static_chunks_partitions nw n : partitions (static_chunks nw n) n.
Proof.
  unfold partitions, static_chunks. rewrite blocks_concat; [done | lia | lia].
Qed.

Section ReduceAssoc.
Context {A : Type}.
Variable combine_op : A -> A -> A.
Variable identity : A.
Hypothesis assoc :
  forall x y z, combine_op x (combine_op y z) = combine_op (combine_op x y) z.
Hypothesis left_id : forall x, combine_op identity x = x.
Hypothesis right_id : forall x, combine_op x identity = x.

Lemma foldl_combine_shift (l : list A) (a : A) :
  foldl combine_op a l = combine_op a (foldl combine_op identity l).
Proof.
  revert a. induction l as [|x l IH]; intros a; cbn; [by rewrite right_id |].
  by rewrite (IH (combine_op a x)), (IH (combine_op identity x)), left_id, assoc.
Qed.

Lemma fold_chunk_elements (first : list A) (chunk : list nat) (a : A) :
  foldl (fun value delta => reduce_body first combine_op delta value) a chunk
  = foldl combine_op a (omap (fun delta => first !! delta) chunk).
Proof.
  revert a. induction chunk as [|d chunk IH]; intros a; [done |].
  cbn. rewrite IH. unfold reduce_body. by destruct (first !! d).
Qed.

Lemma elements_of_range (first : list A) :
  omap (fun delta => first !! delta) (seq 0 (length first)) = first.
Proof.
  induction first as [|x first IH] using rev_ind; [done |].
  rewrite length_app, Nat.add_1_r, seq_S, omap_app. cbn.
  rewrite list_lookup_middle by done. cbn. f_equal.
  rewrite <- IH at 2. apply list_omap_ext, Forall2_same_length_lookup_2; [done |].
  intros i d d' Hd Hd'. rewrite Hd in Hd'. simplify_eq.
  apply lookup_seq in Hd as [-> Hi]. by rewrite lookup_app_l.
Qed.

(** With an associative combiner that has [identity] as its unit, and the
    range cut into consecutive parts, [reduce] is the fold of the whole
    sequence. *)
Lemma reduce_assoc (chunks : list (list nat)) (first : list A) :
  concat chunks = seq 0 (length first) ->
  reduce chunks first identity combine_op = foldl combine_op identity first.
Proof.
  intros Hcat. rewrite <- (elements_of_range first) at 2. rewrite <- Hcat.
  unfold reduce, parallel_reduce. clear Hcat.
  induction chunks as [|chunk chunks IH]; [done |].
  cbn [map concat foldl]. rewrite omap_app, foldl_app.
  rewrite foldl_combine_shift, IH, fold_chunk_elements, left_id.
  by rewrite <- foldl_combine_shift.
Qed.

End ReduceAssoc.

(** C8. [reduce] folds, for every worker, the elements of its part of the
    sequence starting from [identity], and combines the partial results
    with [combine_op]; over [1..N] with identity [0] and combiner [+] the
    result is [N*(N+1)/2], for any partition of the indices among the
    workers, and so for any concurrency degree; and with an associative
    combiner that has [identity] as its unit the result is the fold of the
    sequence, for any concurrency degree. *)
Theorem reduce_sum (chunks : list (list nat)) (N : nat) :
  partitions chunks N ->
  reduce chunks (Z.of_nat <$> seq 1 N) 0 Z.add
  = Z.of_nat N * (Z.of_nat N + 1) / 2
  /\ (forall (A : Type) (first : list A) (identity : A) (combine_op : A -> A -> A),
       reduce chunks first identity combine_op
       = foldl combine_op identity
           ((fun chunk =>
               foldl (fun value delta =>
                        match first !! delta with
                        | Some x => combine_op value x
                        | None => value
                        end) identity chunk) <$> chunks))
  /\ (forall ex : Policy.parallel_execution,
       reduce_static ex (Z.of_nat <$> seq 1 N) N 0 Z.add
       = Z.of_nat N * (Z.of_nat N + 1) / 2)
  /\ (forall (A : Type) (combine_op : A -> A -> A) (identity : A)
             (first : list A) (ex : Policy.parallel_execution),
       (forall x y z, combine_op x (combine_op y z)
                      = combine_op (combine_op x y) z) ->
       (forall x, combine_op identity x = x) ->
       (forall x, combine_op x identity = x) ->
       reduce_static ex first (length first) identity combine_op
       = foldl combine_op identity first).
Proof.
  assert (Hsum : forall chunks', partitions chunks' N ->
            reduce chunks' (Z.of_nat <$> seq 1 N) 0 Z.add
            = Z.of_nat N * (Z.of_nat N + 1) / 2).
  2:{ intros Hpart. split; [by apply Hsum |]. split; [reflexivity |]. split.
      - intros ex. apply Hsum, static_chunks_partitions.
      - intros A combine_op identity first ex Hassoc Hleft Hright.
        apply reduce_assoc; try done.
        unfold static_chunks. apply blocks_concat; lia. }
  clear chunks. intros chunks Hpart.
  rewrite reduce_add_concat.
  rewrite (foldl_add_perm _ (term (Z.of_nat <$> seq 1 N) <$> seq 0 N)).
  2:{ by apply fmap_Permutation. }
  pose proof (terms_of_range (Z.of_nat <$> seq 1 N)) as Ht.
  rewrite length_fmap, length_seq in Ht. rewrite Ht.
  apply Z.div_unique_exact; [lia |]. rewrite sum_1_to. lia.
Qed.

End ReduceFacts.

Lemma reduce_sum_witness :
  FFReduce.reduce (FFReduce.static_chunks 3 10) (Z.of_nat <$> seq 1 10) 0 Z.add
  = 55.
Proof.
  refine (proj1 (reduce_sum (FFReduce.static_chunks 3 10) 10 _)).
  unfold FFReduce.partitions. vm_compute. reflexivity.
Defined.

(** ** [keep]: counting and the shape of the queues *)

Fixpoint count {X} (f : X -> bool) (l : list X) : nat :=
  match l with
  | [] => 0
  | x :: l' => ((if f x then 1 else 0) + count f l')%nat
  end.

Lemma count_app {X} (f : X -> bool) l k :
  count f (l ++ k) = (count f l + count f k)%nat.
Proof. induction l as [|x l IH]; cbn; [done | rewrite IH; lia]. Qed.

Lemma count_replicate {X} (f : X -> bool) n x :
  count f (replicate n x) = if f x then n else 0%nat.
Proof. induction n as [|n IH]; cbn; [by destruct (f x) | rewrite IH; by destruct (f x)]. Qed.

Lemma count_insert {X} (f : X -> bool) l i x y :
  l !! i = Some y ->
  (count f (<[i := x]> l) + (if f y then 1 else 0)
   = count f l + (if f x then 1 else 0))%nat.
Proof.
  revert i. induction l as [|z l IH]; intros [|i] Hi; try done.
  - simpl in *. simplify_eq. destruct (f x), (f y); lia.
  - simpl in *. specialize (IH i Hi). destruct (f x), (f y), (f z); lia.
Qed.

Lemma count_le_length {X} (f : X -> bool) l : (count f l <= length l)%nat.
Proof. induction l as [|x l IH]; cbn; [done | destruct (f x); lia]. Qed.

Section GeneratorFacts.
Import Stream StreamFilter.
Context {T : Type}.

(** The elements of a list with consecutive tags. *)
Fixpoint tagged (xs : list T) (from : Z) : list (item T) :=
  match xs with
  | [] => []
  | x :: xs' => (Some x, from) :: tagged xs' (from + 1)
  end.

Lemma tagged_app xs ys from :
  tagged (xs ++ ys) from = tagged xs from ++ tagged ys (from + Z.of_nat (length xs)).
Proof.
  revert from. induction xs as [|x xs IH]; intros from; cbn.
  - by rewrite Z.add_0_r.
  - rewrite IH. do 3 f_equal. lia.
Qed.

Lemma tagged_length xs from : length (tagged xs from) = length xs.
Proof. revert from. induction xs as [|x xs IH]; intros from; cbn; [done | by rewrite IH]. Qed.

Lemma tagged_lookup xs from (i : nat) :
  tagged xs from !! i = (fun x => (Some x, from + Z.of_nat i)) <$> xs !! i.
Proof.
  revert from i. induction xs as [|x xs IH]; intros from [|i]; cbn; try done.
  - by rewrite Z.add_0_r.
  - rewrite IH. destruct (xs !! i); cbn; [| done]. do 2 f_equal. lia.
Qed.

(** The generator task of the OpenMP [pipeline] pushes the elements tagged
    [order], [order+1], ... and then the empty optional with the next tag. *)
Lemma generator_task_tagged (xs : list T) (order : Z) :
  OmpPipeline.generator_task xs order
  = tagged xs order ++ [(None, order + Z.of_nat (length xs))].
Proof.
  revert order. induction xs as [|x xs IH]; intros order; cbn [OmpPipeline.generator_task tagged length].
  - by rewrite Z.add_0_r.
  - rewrite IH. cbn. do 4 f_equal. lia.
Qed.

(** Everything the generator of [keep] pushes in a complete run. *)
Definition generator_log (W : Z) (input : list T) : list (item T) :=
  tagged input 0 ++ [(None, Z.of_nat (length input))]
  ++ replicate (Z.to_nat (W - 1)) (None, -1).

Lemma generator_log_length W input :
  length (generator_log W input) = (length input + 1 + Z.to_nat (W - 1))%nat.
Proof.
  unfold generator_log. rewrite !length_app, tagged_length, length_replicate.
  cbn. lia.
Qed.

Lemma generator_log_lookup W input (k : nat) it :
  generator_log W input !! k = Some it ->
  match input !! k with
  | Some x => it = (Some x, Z.of_nat k)
  | None => fst it = None
  end.
Proof.
  unfold generator_log. intros Hk.
  destruct (input !! k) as [x|] eqn:Hx.
  - rewrite lookup_app_l in Hk.
    2:{ rewrite tagged_length. by eapply lookup_lt_Some. }
    rewrite tagged_lookup, Hx in Hk. cbn in Hk. by simplify_eq.
  - apply lookup_ge_None in Hx.
    rewrite lookup_app_r in Hk by (rewrite tagged_length; lia).
    apply list_elem_of_lookup_2 in Hk.
    apply elem_of_app in Hk as [Hk | Hk].
    + apply list_elem_of_singleton in Hk. by subst.
    + apply elem_of_replicate in Hk as [-> _]. done.
Qed.

(** How far the generator has come, seen from [generated_queue]. *)
Definition gen_inv (W : Z) (input : list T) (g : generator_state T)
    (log : list (item T)) : Prop :=
  match g with
  | GRun rest order =>
      exists n : nat,
        (n <= length input)%nat /\ rest = drop n input /\ order = Z.of_nat n
        /\ log = tagged (take n input) 0
  | GFlush i =>
      0 <= i < W - 1
      /\ log = tagged input 0 ++ [(None, Z.of_nat (length input))]
               ++ replicate (Z.to_nat i) (None, -1)
  | GJoined => log = generator_log W input
  end.

Lemma flush_from_inv W input i :
  0 <= i <= W - 1 \/ (i = 0 /\ W - 1 < 0) ->
  gen_inv W input (flush_from W i)
    (tagged input 0 ++ [(None, Z.of_nat (length input))]
     ++ replicate (Z.to_nat i) (None, -1)).
Proof.
  intros Hi. unfold flush_from. destruct (Z.ltb_spec i (W - 1)); cbn.
  - split; [lia | done].
  - unfold generator_log. do 3 f_equal. lia.
Qed.

Lemma gen_inv_prefix W input g log :
  gen_inv W input g log -> log `prefix_of` generator_log W input.
Proof.
  destruct g as [rest order | i |]; cbn.
  - intros (n & Hn & _ & _ & ->).
    rewrite <- (take_drop n input) at 2. unfold generator_log.
    rewrite tagged_app, <- (assoc_L (++)). by apply prefix_app_r.
  - intros [Hi ->]. unfold generator_log.
    apply prefix_app. cbn [app]. apply prefix_cons.
    replace (Z.to_nat (W - 1)) with (Z.to_nat i + (Z.to_nat (W - 1) - Z.to_nat i))%nat by lia.
    rewrite replicate_add. by apply prefix_app_r.
  - by intros ->.
Qed.

End GeneratorFacts.

(** ** [keep]: the buffer search of the consumer *)

Section SearchFacts.
Import Stream StreamFilter.
Context {T : Type}.

(** One pass over the buffer with the stateful predicate: the elements
    that are kept, and the final [order]. *)
Fixpoint scan (v : list (item T)) (order : Z) : list (item T) * Z :=
  match v with
  | [] => ([], order)
  | x :: v' =>
      if snd x =? order then scan v' (order + 1)
      else (x :: fst (scan v' order), snd (scan v' order))
  end.

(** The payloads handed to [consume_op] by [for_each] over a range. *)
Definition payloads (l : list (item T)) : list T := omap fst l.

Lemma consume_range (l : list (item T)) (out : list T) :
  foldl (fun out it => consume_if_present it out) out l = out ++ payloads l.
Proof.
  revert out. induction l as [|[[x|] t] l IH]; intros out; cbn.
  - by rewrite app_nil_r.
  - rewrite IH. unfold consume_if_present. cbn. by rewrite <- (assoc_L (++)).
  - by rewrite IH.
Qed.

Lemma remove_if_shift_spec (rest before K : list (item T)) (order : Z) :
  (length K < length before)%nat ->
  remove_if_shift rest (K ++ drop (length K) (before ++ rest)) (length K) order
  = let K' := K ++ fst (scan rest order) in
    (K' ++ drop (length K') (before ++ rest), length K', snd (scan rest order)).
Proof.
  revert before K order.
  induction rest as [|x rest IH]; intros before K order HK.
  - cbn. by rewrite !app_nil_r.
  - cbn [remove_if_shift scan search_pred].
    destruct (snd x =? order) eqn:E.
    + specialize (IH (before ++ [x]) K (order + 1)).
      rewrite <- (assoc_L (++)) in IH. cbn [app] in IH.
      apply IH. rewrite length_app. cbn. lia.
    + cbn [fst snd].
      assert (Hd : drop (length K) (before ++ x :: rest)
                   = (before ++ x :: rest) !!! length K
                     :: drop (S (length K)) (before ++ x :: rest)).
      { apply drop_S. apply list_lookup_lookup_total_lt.
        rewrite length_app. lia. }
      rewrite Hd, insert_app_r_alt by lia.
      replace (length K - length K)%nat with 0%nat by lia.
      cbn [insert list_insert].
      specialize (IH (before ++ [x]) (K ++ [x]) order).
      rewrite <- !(assoc_L (++)) in IH. cbn [app] in IH.
      rewrite length_app in IH. cbn [length] in IH.
      rewrite Nat.add_1_r in IH. rewrite IH.
      * cbn zeta. by rewrite <- !(assoc_L (++)).
      * rewrite length_app. cbn. lia.
Qed.

Lemma remove_if_find_spec (rest before : list (item T)) (order : Z) :
  remove_if_find rest (before ++ rest) (length before) order
  = let K' := before ++ fst (scan rest order) in
    (K' ++ drop (length K') (before ++ rest), length K', snd (scan rest order)).
Proof.
  revert before order.
  induction rest as [|x rest IH]; intros before order.
  - cbn. rewrite !app_nil_r, drop_all, app_nil_r. done.
  - cbn [remove_if_find scan search_pred].
    destruct (snd x =? order) eqn:E.
    + pose proof (remove_if_shift_spec rest (before ++ [x]) before (order + 1)) as H.
      rewrite <- !(assoc_L (++)) in H. cbn [app] in H.
      rewrite drop_app_length in H. apply H.
      rewrite length_app. cbn. lia.
    + cbn [fst snd].
      specialize (IH (before ++ [x]) order).
      rewrite <- !(assoc_L (++)) in IH. cbn [app] in IH.
      rewrite length_app in IH. cbn [length] in IH.
      rewrite Nat.add_1_r in IH. rewrite IH.
      cbn zeta. by rewrite <- !(assoc_L (++)).
Qed.

(** [remove_if] leaves the kept elements in front; behind the returned
    position the vector holds what it held there before. *)
Lemma remove_if_spec (v : list (item T)) (order : Z) :
  remove_if v order
  = let K := fst (scan v order) in
    (K ++ drop (length K) v, length K, snd (scan v order)).
Proof. apply (remove_if_find_spec v [] order). Qed.

(** The buffer holds the items tagged 1 and 3 and [order] is 1: the first
    item is removed, the second one is moved to the front, and the
    position behind the returned iterator still holds the second item. *)
Example remove_if_tail :
  remove_if [(Some 11, 1); (Some 13, 3)] 1
  = ([(Some 13, 3); (Some 13, 3)], 1%nat, 2).
Proof. reflexivity. Qed.

(** The search keeps the elements that [scan] keeps, and hands to
    [consume_op] the payloads that sit at the last positions of the buffer,
    as many as elements were removed. *)
Lemma search_buffer_spec (c : consumer_state T) :
  search_buffer c
  = let K := fst (scan (item_buffer c) (order c)) in
    {| done_threads := done_threads c;
       item_buffer := K;
       order := snd (scan (item_buffer c) (order c));
       consumed := consumed c ++ payloads (drop (length K) (item_buffer c)) |}.
Proof.
  unfold search_buffer. rewrite remove_if_spec. cbv beta iota zeta.
  rewrite take_app_length, drop_app_length, consume_range. done.
Qed.

Lemma scan_kept_subseteq (v : list (item T)) order :
  fst (scan v order) ⊆ v.
Proof.
  revert order. induction v as [|x v IH]; intros order; cbn; [done |].
  destruct (snd x =? order); cbn.
  - intros y Hy. right. by apply (IH (order + 1)).
  - intros y Hy. apply elem_of_cons in Hy as [-> | Hy]; [by left | right].
    by apply (IH order).
Qed.

Lemma payloads_elem_of (l : list (item T)) x :
  x ∈ payloads l <-> exists t, (Some x, t) ∈ l.
Proof.
  unfold payloads. rewrite list_elem_of_omap. split.
  - intros ([o t] & Hin & Ho). cbn in Ho. subst. eauto.
  - intros [t Ht]. by exists (Some x, t).
Qed.

Lemma find_erase_Some order (buf : list (item T)) it buf' :
  find_erase order buf = Some (it, buf') ->
  snd it = order /\ it ∈ buf /\ buf' ⊆ buf /\ length buf = S (length buf').
Proof.
  revert buf'. induction buf as [|y buf IH]; intros buf'; cbn; [done |].
  destruct (Z.eqb_spec (snd y) order).
  - intros ?; simplify_eq. split; [done |]. split; [by left |].
    split; [| done]. intros z Hz. by right.
  - destruct (find_erase order buf) as [[r b]|]; [| done].
    intros ?; simplify_eq. destruct (IH b eq_refl) as (Ho & Hin & Hsub & Hlen).
    split; [done |]. split; [by right |]. split; [| cbn; by rewrite Hlen].
    intros z Hz. apply elem_of_cons in Hz as [-> | Hz]; [by left | right].
    by apply Hsub.
Qed.

Lemma find_erase_None order (buf : list (item T)) :
  find_erase order buf = None <-> forall it, it ∈ buf -> snd it <> order.
Proof.
  induction buf as [|y buf IH]; cbn.
  - split; [| done]. intros _ it Hit. by apply elem_of_nil in Hit.
  - destruct (Z.eqb_spec (snd y) order).
    + split; [done |]. intros H. exfalso. apply (H y); [by left | done].
    + destruct (find_erase order buf) as [[r b]|].
      * split; [done |]. intros H. exfalso.
        assert (Hn : Some (r, b) = @None (item T * list (item T))); [| done].
        apply IH. intros it Hit. apply H. by right.
      * split; [| done]. intros _ it Hit.
        apply elem_of_cons in Hit as [-> | Hit]; [done |].
        by apply IH.
Qed.

(** The closing loop ends with no element tagged [order] in the buffer:
    the [break] is reached within [length item_buffer] turns. *)
Lemma drain_loop_exits fuel (c : consumer_state T) :
  (length (item_buffer c) <= fuel)%nat ->
  find_erase (order (drain_loop fuel c)) (item_buffer (drain_loop fuel c)) = None.
Proof.
  revert c. induction fuel as [|fuel IH]; intros c Hlen.
  - cbn. destruct (item_buffer c); [done | cbn in Hlen; lia].
  - cbn. destruct (find_erase (order c) (item_buffer c)) as [[it buf']|] eqn:E.
    + apply IH. cbn. apply find_erase_Some in E as (_ & _ & _ & E). lia.
    + done.
Qed.

Lemma drain_loop_sound fuel (c : consumer_state T) :
  done_threads (drain_loop fuel c) = done_threads c
  /\ item_buffer (drain_loop fuel c) ⊆ item_buffer c
  /\ exists l, l ⊆ item_buffer c
       /\ consumed (drain_loop fuel c) = consumed c ++ payloads l.
Proof.
  assert (Hnil : forall c : consumer_state T,
            done_threads c = done_threads c
            /\ item_buffer c ⊆ item_buffer c
            /\ exists l, l ⊆ item_buffer c
                 /\ consumed c = consumed c ++ payloads l).
  { intros c0. split; [done |]. split; [done |].
    exists []. split; [apply list_subseteq_nil | by rewrite app_nil_r]. }
  revert c. induction fuel as [|fuel IH]; intros c; [apply Hnil |].
  cbn. destruct (find_erase (order c) (item_buffer c)) as [[it buf']|] eqn:E;
    [| apply Hnil].
  apply find_erase_Some in E as (_ & Hit & Hsub & _).
  destruct (IH {| done_threads := done_threads c; item_buffer := buf';
                  order := order c + 1;
                  consumed := consume_if_present it (consumed c) |})
    as (Hd & Hb & l & Hl & Hc).
  cbn in Hd, Hb, Hl, Hc.
  split; [done |]. split; [by etrans |].
  exists (it :: l). split.
  - intros y Hy. apply elem_of_cons in Hy as [-> | Hy]; [done |].
    by apply Hsub, Hl.
  - rewrite Hc. unfold consume_if_present, payloads.
    destruct it as [[x|] t]; cbn; [by rewrite <- (assoc_L (++)) | done].
Qed.

End SearchFacts.

(** ** [keep]: what holds in every reachable state *)

Section KeepInvariant.
Import Stream StreamFilter.
Context {T : Type}.
Variable predicate_op : T -> bool.
Variable W : Z.
Variable input : list T.

(** What a filter thread pushes for the element [x] tagged [t]. *)
Definition filtered_item (t : nat) (x : T) : item T :=
  (if predicate_op x then Some x else None, Z.of_nat t).

Definition from_input (it : item T) : Prop :=
  exists (t : nat) (x : T), input !! t = Some x /\ it = filtered_item t x.

Definition filtered_ok (it : item T) : Prop :=
  it = (None, -1) \/ from_input it.

Definition is_joined (w : task_state T) : bool :=
  match w with WJoined => true | _ => false end.

Definition is_hold (w : task_state T) : bool :=
  match w with WHold _ => true | _ => false end.

(** The thread has popped an empty optional: it pops no more. *)
Definition is_ended (w : task_state T) : bool :=
  match w with
  | WJoined => true
  | WHold it => match fst it with None => true | Some _ => false end
  | WPop => false
  end.

Lemma from_input_not_end it : from_input it -> is_end it = false.
Proof.
  intros (t & x & _ & ->). unfold filtered_item, is_end. cbn.
  destruct (predicate_op x); [done |]. apply Z.eqb_neq. lia.
Qed.

Lemma from_input_payload x t :
  from_input (Some x, t) -> x ∈ input /\ predicate_op x = true.
Proof.
  intros (t' & x' & Hx & Heq). unfold filtered_item in Heq.
  destruct (predicate_op x') eqn:E; [| done]. simplify_eq.
  split; [by eapply list_elem_of_lookup_2 | done].
Qed.

(** The consumer holds nothing but filtered input. *)
Definition consumer_ok (c : consumer_state T) : Prop :=
  (forall it, it ∈ item_buffer c -> from_input it)
  /\ (forall x, x ∈ consumed c -> x ∈ input /\ predicate_op x = true).

Lemma payloads_ok (l : list (item T)) x :
  (forall it, it ∈ l -> from_input it) ->
  x ∈ payloads l -> x ∈ input /\ predicate_op x = true.
Proof.
  intros Hl Hx. apply payloads_elem_of in Hx as [t Ht].
  by apply (from_input_payload x t), Hl.
Qed.

Lemma search_buffer_ok c : consumer_ok c -> consumer_ok (search_buffer c).
Proof.
  intros [Hb Hc]. rewrite search_buffer_spec. split; cbn.
  - intros it Hit. by apply Hb, (scan_kept_subseteq _ (order c)).
  - intros x Hx. apply elem_of_app in Hx as [Hx | Hx]; [by apply Hc |].
    apply (payloads_ok (drop (length (scan (item_buffer c) (order c)).1) (item_buffer c)));
      [| done].
    intros it Hit. apply Hb. by eapply subseteq_drop.
Qed.

Lemma drain_ok c : consumer_ok c -> consumer_ok (drain c).
Proof.
  intros [Hb Hc]. unfold drain.
  destruct (drain_loop_sound (length (item_buffer c)) c) as (_ & Hsub & l & Hl & Hcons).
  split.
  - intros it Hit. by apply Hb, Hsub.
  - intros x. rewrite Hcons. intros Hx.
    apply elem_of_app in Hx as [Hx | Hx]; [by apply Hc |].
    apply (payloads_ok l); [| done]. intros it Hit. by apply Hb, Hl.
Qed.

Lemma consumer_receive_ok c it :
  consumer_ok c -> filtered_ok it ->
  consumer_ok (consumer_of (consumer_receive W c it)).
Proof.
  intros Hc Hit. unfold consumer_receive.
  destruct (done_threads c =? W - 1); [by apply drain_ok |].
  unfold consumer_body. destruct (is_end it) eqn:Eend.
  - cbn [done_threads].
    destruct (done_threads c + 1 =? W - 1); cbn [consumer_of].
    + apply drain_ok. by destruct Hc.
    + apply search_buffer_ok. by destruct Hc.
  - cbn [consumer_of]. apply search_buffer_ok.
    destruct Hit as [-> | Hit]; [done |]. destruct Hc as [Hb Hc].
    destruct (order c =? snd it); split; cbn; try done.
    + intros x. unfold consume_if_present.
      destruct it as [[y|] t]; cbn; [| by apply Hc].
      intros Hx. apply elem_of_app in Hx as [Hx | Hx]; [by apply Hc |].
      apply list_elem_of_singleton in Hx as ->.
      by apply (from_input_payload y t).
    + intros it' Hin. apply elem_of_app in Hin as [Hin | Hin]; [by apply Hb |].
      by apply list_elem_of_singleton in Hin as ->.
Qed.

Record inv (s : state T) : Prop := {
  inv_gen : gen_inv W input (generator s) (pushed (generated_queue s));
  inv_gpop : (popped (generated_queue s) <= length (pushed (generated_queue s)))%nat;
  inv_tasks : length (tasks s) = Z.to_nat (W - 1);
  inv_hold : forall i it, tasks s !! i = Some (WHold it) ->
      exists k, (k < popped (generated_queue s))%nat
                /\ pushed (generated_queue s) !! k = Some it;
  inv_filtered : forall it, it ∈ pushed (filtered_queue s) -> filtered_ok it;
  inv_fpop : (popped (filtered_queue s) <= length (pushed (filtered_queue s)))%nat;
  inv_ends : count is_end (pushed (filtered_queue s)) = count is_joined (tasks s);
  inv_consumer : consumer_ok (consumer_of (consumer s));
  inv_count_g : (popped (generated_queue s)
                 <= length input + count is_ended (tasks s))%nat;
  inv_count_f : (length (pushed (filtered_queue s)) + count is_hold (tasks s))%nat
                = popped (generated_queue s);
  inv_idle : W <= 1 -> pushed (filtered_queue s) = [];
  inv_done : match consumer s with
             | CPop c =>
                 done_threads c
                 = Z.of_nat (count is_end (take (popped (filtered_queue s))
                                                (pushed (filtered_queue s))))
                 /\ (2 <= W -> done_threads c < W - 1)
             | CJoined _ => True
             end
}.

Lemma inv_init : inv (keep_init W input).
Proof.
  split; cbn; try done.
  - exists 0%nat. split; [lia |]. by rewrite drop_0, take_0.
  - apply length_replicate.
  - intros i it Hi. apply lookup_replicate in Hi as [? _]. done.
  - intros it Hit. by apply elem_of_nil in Hit.
  - by rewrite count_replicate.
  - split; intros ? Hx; by apply elem_of_nil in Hx.
  - lia.
  - by rewrite count_replicate.
  - split; [done | lia].
Qed.

Lemma inv_generator_step s s' :
  inv s -> generator_step W s = Some s' -> inv s'.
Proof.
  intros [] Hstep. unfold generator_step in Hstep.
  destruct (generator s) as [rest order | i |] eqn:Eg; [| | done].
  - destruct inv_gen0 as (n & Hn & Hrest & -> & Hlog).
    destruct rest as [|x rest]; cbn in Hstep; simplify_eq; split; cbn; try done.
    + assert (n = length input) as ->.
      { apply (f_equal length) in Hrest. rewrite length_drop in Hrest.
        cbn in Hrest. lia. }
      rewrite Hlog, take_ge by lia.
      pose proof (flush_from_inv W input 0) as Hf. cbn in Hf.
      apply Hf. lia.
    + rewrite length_app. cbn. lia.
    + intros i it Hi. destruct (inv_hold0 i it Hi) as (k & Hk & Hit).
      exists k. split; [done |]. by apply lookup_app_l_Some.
    + assert (Hx : input !! n = Some x).
      { rewrite <- (Nat.add_0_r n), <- lookup_drop, <- Hrest. done. }
      exists (S n). split; [apply lookup_lt_Some in Hx; lia |].
      split; [| split; [lia |]].
      * rewrite <- (Nat.add_1_r n), <- drop_drop, <- Hrest. done.
      * rewrite Hlog, (take_S_r _ _ _ Hx), tagged_app, length_take_le.
        -- done.
        -- apply lookup_lt_Some in Hx. lia.
    + rewrite length_app. cbn. lia.
    + intros i it Hi. destruct (inv_hold0 i it Hi) as (k & Hk & Hit).
      exists k. split; [done |]. by apply lookup_app_l_Some.
  - destruct inv_gen0 as [Hi Hlog]. simplify_eq. split; cbn; try done.
    + rewrite Hlog, <- !(assoc_L (++)).
      pose proof (flush_from_inv W input (i + 1)) as Hf.
      replace (Z.to_nat (i + 1)) with (Z.to_nat i + 1)%nat in Hf by lia.
      rewrite replicate_add in Hf. cbn in Hf. apply Hf. lia.
    + rewrite length_app. cbn. lia.
    + intros j it Hj. destruct (inv_hold0 j it Hj) as (k & Hk & Hit).
      exists k. split; [done |]. by apply lookup_app_l_Some.
Qed.

(** An item of [generated_queue] carries an element of the input under its
    index, or the empty optional. *)
Lemma inv_generated s (k : nat) it :
  inv s -> pushed (generated_queue s) !! k = Some it ->
  match input !! k with
  | Some x => it = (Some x, Z.of_nat k)
  | None => fst it = None
  end.
Proof.
  intros Hinv Hk. apply (generator_log_lookup W).
  destruct (gen_inv_prefix _ _ _ _ (inv_gen _ Hinv)) as [l ->].
  by apply lookup_app_l_Some.
Qed.

Lemma tasks_nonempty s i w : inv s -> tasks s !! i = Some w -> 2 <= W.
Proof.
  intros Hinv Hi. apply lookup_lt_Some in Hi.
  rewrite (inv_tasks _ Hinv) in Hi. lia.
Qed.

Lemma inv_task_step i s s' :
  inv s -> task_step predicate_op i s = Some s' -> inv s'.
Proof.
  intros Hinv Hstep. pose proof Hinv as [].
  unfold task_step in Hstep.
  destruct (tasks s !! i) as [[| it |]|] eqn:Ei; try done.
  - (* pop *)
    unfold pop in Hstep.
    destruct (pushed (generated_queue s) !! popped (generated_queue s))
      as [it|] eqn:Epop; [| done].
    simplify_eq. pose proof (inv_generated _ _ _ Hinv Epop) as Hshape.
    split; cbn; try done.
    + apply lookup_lt_Some in Epop. lia.
    + by rewrite length_insert.
    + intros j it' Hj. destruct (decide (i = j)) as [-> | Hne].
      * rewrite list_lookup_insert_eq in Hj by (by eapply lookup_lt_Some).
        simplify_eq. exists (popped (generated_queue s)). split; [lia | done].
      * rewrite list_lookup_insert_ne in Hj by done.
        destruct (inv_hold0 j it' Hj) as (k & Hk & Hit).
        exists k. split; [lia | done].
    + rewrite inv_ends0.
      pose proof (count_insert is_joined _ _ (WHold it) _ Ei) as Hc.
      cbn in Hc. lia.
    + pose proof (count_insert is_ended _ _ (WHold it) _ Ei) as Hc.
      cbn in Hc. destruct (input !! popped (generated_queue s)) eqn:Ein.
      * apply lookup_lt_Some in Ein. lia.
      * rewrite Hshape in Hc. lia.
    + pose proof (count_insert is_hold _ _ (WHold it) _ Ei) as Hc.
      cbn in Hc. lia.
  - (* push *)
    destruct (task_push predicate_op it) as [out next] eqn:Epush.
    simplify_eq. destruct (inv_hold0 i it Ei) as (k & Hk & Hit).
    pose proof (inv_generated _ _ _ Hinv Hit) as Hshape.
    assert (Hcases :
      (exists x, input !! k = Some x /\ it = (Some x, Z.of_nat k)
                 /\ out = filtered_item k x /\ next = WPop)
      \/ (fst it = None /\ out = (None, -1) /\ next = WJoined)).
    { unfold task_push in Epush. destruct (input !! k) as [x|] eqn:Ex.
      - left. exists x. subst it. cbn in Epush. unfold filtered_item.
        destruct (predicate_op x); by simplify_eq.
      - right. rewrite Hshape in Epush. by simplify_eq. }
    pose proof (count_insert is_joined _ _ next _ Ei) as Hcj.
    pose proof (count_insert is_ended _ _ next _ Ei) as Hce.
    pose proof (count_insert is_hold _ _ next _ Ei) as Hch.
    cbn in Hcj, Hce, Hch.
    split; cbn; try done.
    + by rewrite length_insert.
    + intros j it' Hj. destruct (decide (i = j)) as [-> | Hne].
      * rewrite list_lookup_insert_eq in Hj by (by eapply lookup_lt_Some).
        destruct Hcases as [(x & _ & _ & _ & ->) | (_ & _ & ->)]; done.
      * rewrite list_lookup_insert_ne in Hj by done. by apply (inv_hold0 j).
    + intros it' Hin. apply elem_of_app in Hin as [Hin | Hin]; [by apply inv_filtered0 |].
      apply list_elem_of_singleton in Hin as ->.
      destruct Hcases as [(x & Hx & _ & -> & _) | (_ & -> & _)].
      * right. by exists k, x.
      * by left.
    + rewrite length_app. cbn. lia.
    + rewrite count_app, inv_ends0. cbn.
      destruct Hcases as [(x & Hx & _ & -> & ->) | (_ & -> & ->)]; cbn in *.
      * rewrite from_input_not_end by (by exists k, x). lia.
      * lia.
    + destruct Hcases as [(x & Hx & -> & _ & ->) | (Hn & _ & ->)]; cbn in *.
      * lia.
      * rewrite Hn in Hce. lia.
    + rewrite length_app. cbn.
      destruct Hcases as [(x & Hx & -> & _ & ->) | (Hn & _ & ->)]; cbn in *; lia.
    + intros HW. pose proof (tasks_nonempty _ _ _ Hinv Ei). lia.
    + destruct (consumer s) as [c|]; [| done].
      by rewrite take_app_le by lia.
Qed.

Lemma search_buffer_done (c : consumer_state T) :
  done_threads (search_buffer c) = done_threads c.
Proof. by rewrite search_buffer_spec. Qed.

Lemma inv_consumer_step s s' :
  inv s -> consumer_step W s = Some s' -> inv s'.
Proof.
  intros Hinv Hstep. pose proof Hinv as [].
  unfold consumer_step in Hstep.
  destruct (consumer s) as [c|] eqn:Ec; [| done].
  unfold pop in Hstep.
  destruct (pushed (filtered_queue s) !! popped (filtered_queue s))
    as [it|] eqn:Epop; [| done].
  simplify_eq. cbn in inv_consumer0.
  assert (HW : 2 <= W).
  { destruct (Z.le_gt_cases 2 W); [done |].
    rewrite inv_idle0 in Epop by lia. done. }
  destruct inv_done0 as [Hdone Hlt]. specialize (Hlt HW).
  split; cbn; try done.
  - apply lookup_lt_Some in Epop. lia.
  - apply consumer_receive_ok; [done |].
    apply inv_filtered0. by eapply list_elem_of_lookup_2.
  - unfold consumer_receive.
    destruct (Z.eqb_spec (done_threads c) (W - 1)); [lia |].
    unfold consumer_body. rewrite (take_S_r _ _ _ Epop), count_app. cbn.
    destruct (is_end it) eqn:Eend; cbn.
    + destruct (Z.eqb_spec (done_threads c + 1) (W - 1)); [done |].
      rewrite search_buffer_done. cbn. split; lia.
    + rewrite search_buffer_done.
      destruct (order c =? snd it); cbn; split; lia.
Qed.

Theorem inv_step th s s' : inv s -> step predicate_op W th s = Some s' -> inv s'.
Proof.
  destruct th as [| i |]; cbn.
  - apply inv_generator_step.
  - apply inv_task_step.
  - apply inv_consumer_step.
Qed.

Theorem inv_run schedule s : inv s -> inv (run predicate_op W schedule s).
Proof.
  revert s. induction schedule as [|th schedule IH]; intros s Hinv; [done |].
  cbn. apply IH. destruct (step predicate_op W th s) as [s'|] eqn:E; cbn.
  - by eapply inv_step.
  - done.
Qed.

Theorem inv_reachable schedule :
  inv (run predicate_op W schedule (keep_init W input)).
Proof. apply inv_run, inv_init. Qed.

End KeepInvariant.

(** ** [keep]: tags and the policy *)

Section KeepSafety.
Import Stream StreamFilter.
Context {T : Type}.
Variable predicate_op : T -> bool.

(** C5, as the code has it.  The generator tags the elements it produces
    with 0, 1, 2, ... in this order (one tag per element, so the tags are
    strictly increasing and none is used twice), and no item with a payload
    carries the tag -1.  The empty optional that ends the stream is pushed
    with the next tag, [length input], not with -1; the generator of [keep]
    then pushes [concurrency_degree()-1] items [(empty, -1)], the generator
    task of the OpenMP [pipeline] pushes nothing more. *)
Theorem generator_tags (W : Z) (input : list T) (schedule : list thread) :
  let s := run predicate_op W schedule (keep_init W input) in
  pushed (generated_queue s) `prefix_of` generator_log W input
  /\ (generator s = GJoined -> pushed (generated_queue s) = generator_log W input)
  /\ generator_log W input
     = tagged input 0 ++ [(None, Z.of_nat (length input))]
       ++ replicate (Z.to_nat (W - 1)) (None, -1)
  /\ OmpPipeline.generator_task input 0
     = tagged input 0 ++ [(None, Z.of_nat (length input))]
  /\ (forall (k : nat) x, input !! k = Some x ->
        tagged input 0 !! k = Some (Some x, Z.of_nat k))
  /\ (forall x t, (Some x, t) ∈ generator_log W input ->
        0 <= t /\ input !! Z.to_nat t = Some x).
Proof.
  intros s. pose proof (inv_reachable predicate_op W input schedule) as Hinv.
  fold s in Hinv. pose proof (inv_gen _ _ _ _ Hinv) as Hgen.
  split; [by eapply gen_inv_prefix |].
  split; [intros Hg; by rewrite Hg in Hgen |].
  split; [done |].
  split; [by rewrite generator_task_tagged |].
  split.
  - intros k x Hk. by rewrite tagged_lookup, Hk.
  - intros x t Hin. apply list_elem_of_lookup_1 in Hin as [k Hk].
    pose proof (generator_log_lookup W input k _ Hk) as Hshape.
    destruct (input !! k) as [y|] eqn:Ey; [| done].
    simplify_eq. split; [lia |]. by rewrite Nat2Z.id.
Qed.

(** Without filter threads nothing ever reaches the consumer. *)
Lemma idle_run (W : Z) (input : list T) (schedule : list thread) :
  W <= 1 ->
  let s := run predicate_op W schedule (keep_init W input) in
  tasks s = [] /\ consumer s = CPop consumer_init
  /\ filtered_queue s = make_queue.
Proof.
  intros HW. cbn zeta.
  assert (H0 : tasks (keep_init W input) = []
               /\ consumer (keep_init W input) = CPop consumer_init
               /\ filtered_queue (keep_init W input) = make_queue).
  { cbn. by replace (Z.to_nat (W - 1)) with 0%nat by lia. }
  revert H0. generalize (keep_init W input).
  induction schedule as [|th schedule IH]; intros s Hs; [done |].
  cbn. apply IH. destruct Hs as (Ht & Hc & Hf).
  destruct th as [| i |]; cbn.
  - unfold generator_step.
    destruct (generator s) as [rest order | i |]; cbn; [| done | done].
    by destruct (generate_op rest).
  - unfold task_step. by rewrite Ht.
  - unfold consumer_step. by rewrite Hc, Hf.
Qed.

End KeepSafety.

Lemma generator_tags_witness :
  let s := run (fun _ : Z => true) 3 (replicate 4 Generator) (keep_init 3 [7]) in
  pushed (generated_queue s) = generator_log 3 [7].
Proof.
  intros s.
  apply (proj1 (proj2 (generator_tags (fun _ : Z => true) 3 [7]
                         (replicate 4 Generator)))).
  reflexivity.
Defined.

(** Four elements, the predicate "even", two filter threads that take
    turns: [keep] returns with 2 and 4 delivered. *)
Lemma keep_even_run :
  let schedule := replicate 7 Generator
                  ++ [Task 0; Task 1; Task 1; Task 0; Task 0; Task 1]
                  ++ [Consumer; Task 1; Task 0; Task 0; Task 1; Task 1; Task 0]
                  ++ replicate 6 Consumer in
  let s := run Z.even 3 schedule (keep_init 3 [1; 2; 3; 4]) in
  joined s = true /\ delivered s = [2; 4]
  /\ pushed (filtered_queue s)
     = [(Some 2, 1); (None, 0); (Some 4, 3); (None, 2); (None, -1); (None, -1)].
Proof. repeat split; reflexivity. Qed.

(** C6, as the code has it.  [set_concurrency_degree] stores any [int], and
    the constructor too: there is no check.  [keep] with a concurrency
    degree below 1 is not rejected: it starts no filter thread, but it does
    start the consumer, which then waits for ever on the empty
    [filtered_queue], so that [consumer.join()] is never passed.  The
    source takes [ex.concurrency_degree()-1] in [int]; the degree is taken
    above the least [int], where this subtraction is defined. *)
Theorem degree_not_checked {T : Type} (ex : Policy.parallel_execution)
    (input : list T) (predicate_op : T -> bool) (schedule : list thread) :
  - 2 ^ 31 < Policy.concurrency_degree ex < 1 ->
  (forall ex' d, Policy.concurrency_degree (Policy.set_concurrency_degree ex' d) = d
                 /\ Policy.is_ordered (Policy.set_concurrency_degree ex' d)
                    = Policy.is_ordered ex')
  /\ (forall d order, Policy.concurrency_degree (Policy.make d order) = d)
  /\ - 2 ^ 31 <= Policy.concurrency_degree ex - 1 < 2 ^ 31
  /\ let s := keep ex input predicate_op schedule in
     tasks s = []
     /\ consumer s = CPop consumer_init
     /\ pop (filtered_queue s) = None
     /\ joined s = false.
Proof.
  intros Hd. split; [done |]. split; [done |]. split; [lia |].
  destruct (idle_run predicate_op (Policy.concurrency_degree ex) input schedule)
    as (Ht & Hc & Hf); [lia |].
  unfold keep. cbn zeta. rewrite Ht, Hc, Hf. repeat split.
  unfold joined. rewrite Hc. by destruct (generator _).
Qed.

Lemma degree_not_checked_witness :
  let s := keep (Policy.set_concurrency_degree (Policy.make 4 true) 0)
             [5; 6] (fun _ => true) [Generator; Consumer; Generator; Task 0] in
  tasks s = [] /\ consumer s = CPop consumer_init
  /\ pop (filtered_queue s) = None /\ joined s = false.
Proof.
  refine (proj2 (proj2 (proj2 (degree_not_checked
    (Policy.set_concurrency_degree (Policy.make 4 true) 0)
    [5; 6] (fun _ => true) [Generator; Consumer; Generator; Task 0] _)))).
  vm_compute. split; reflexivity.
Defined.

(** A policy with concurrency degree 0 is accepted, and [keep] runs with
    it: the generator is called and its items are queued. *)
Lemma degree_zero_accepted :
  let ex := Policy.set_concurrency_degree (Policy.make 4 true) 0 in
  let s := keep ex [5; 6] (fun _ => true) [Generator; Generator; Generator] in
  Policy.concurrency_degree ex = 0
  /\ pushed (generated_queue s) = [(Some 5, 0); (Some 6, 1); (None, 2)]
  /\ generator s = GJoined
  /\ consumer s = CPop consumer_init.
Proof. repeat split; reflexivity. Qed.

(** The empty optional that ends the stream does not get the tag -1, and
    the number of items [(empty, -1)] that follow is not one: none in the
    OpenMP [pipeline], two in [keep] with concurrency degree 3. *)
Lemma end_mark_tags :
  OmpPipeline.generator_task [7] 0 = [(Some 7, 0); (None, 1)]
  /\ count is_end (OmpPipeline.generator_task [7] 0) = 0%nat
  /\ pushed (generated_queue
       (keep (Policy.make 3 true) [7] (fun _ => true) (replicate 4 Generator)))
     = [(Some 7, 0); (None, 1); (None, -1); (None, -1)]
  /\ generator (keep (Policy.make 3 true) [7] (fun _ => true)
                  (replicate 4 Generator)) = GJoined.
Proof. repeat split; reflexivity. Qed.

(** ** [keep]: termination *)

Lemma forallb_false_lookup {X} (f : X -> bool) (l : list X) :
  forallb f l = false -> exists i x, l !! i = Some x /\ f x = false.
Proof.
  induction l as [|y l IH]; cbn; [done |].
  destruct (f y) eqn:E; cbn.
  - intros H. destruct (IH H) as (i & x & Hi & Hx). by exists (S i), x.
  - intros _. by exists 0%nat, y.
Qed.

Lemma forallb_true_count {X} (f : X -> bool) (l : list X) :
  forallb f l = true -> count f l = length l.
Proof.
  induction l as [|y l IH]; cbn; [done |].
  destruct (f y); cbn; [intros H; by rewrite IH | done].
Qed.

Lemma forallb_lookup {X} (f : X -> bool) (l : list X) i x :
  forallb f l = true -> l !! i = Some x -> f x = true.
Proof.
  revert i. induction l as [|y l IH]; intros [|i] Hall Hi; cbn in *; try done.
  - simplify_eq. by apply andb_prop in Hall as [? _].
  - apply andb_prop in Hall as [_ Hall]. by eapply IH.
Qed.

Lemma forallb_mono {X} (f g : X -> bool) (l : list X) :
  (forall x, f x = true -> g x = true) ->
  forallb f l = true -> forallb g l = true.
Proof.
  intros Hfg. induction l as [|y l IH]; cbn; [done |].
  intros H. apply andb_prop in H as [Hy Hl].
  by rewrite (Hfg y Hy), IH.
Qed.

Lemma count_lt_length {X} (f : X -> bool) (l : list X) i x :
  l !! i = Some x -> f x = false -> (count f l < length l)%nat.
Proof.
  revert i. induction l as [|y l IH]; intros [|i] Hi Hx; cbn in *; try done.
  - simplify_eq. rewrite Hx. pose proof (count_le_length f l). lia.
  - specialize (IH i Hi Hx). destruct (f y); lia.
Qed.

Section KeepLiveness.
Context {T : Type}.
Variable predicate_op : T -> bool.
Variable W : Z.
Variable input : list T.

(** The pushes the generator still has to make. *)
Definition gen_left (g : generator_state T) : nat :=
  match g with
  | GRun rest _ => (length rest + 1 + Z.to_nat (W - 1))%nat
  | GFlush i => Z.to_nat (W - 1 - i)
  | GJoined => 0%nat
  end.

(** A bound on the number of steps that all threads together can still
    take. *)
Definition steps_left (s : state T) : nat :=
  let L := length (generator_log W input) in
  (gen_left (generator s)
   + 2 * (L - popped (generated_queue s))
   + count is_hold (tasks s)
   + (L - popped (filtered_queue s)))%nat.

Lemma generated_length s :
  inv predicate_op W input s ->
  (length (pushed (generated_queue s)) <= length (generator_log W input))%nat.
Proof.
  intros Hinv. destruct (gen_inv_prefix _ _ _ _ (inv_gen _ _ _ _ Hinv)) as [l Hl].
  rewrite Hl, length_app. lia.
Qed.

Lemma gen_left_flush i :
  0 <= i <= W - 1 \/ (i = 0 /\ W - 1 < 0) ->
  gen_left (flush_from W i) = Z.to_nat (W - 1 - i).
Proof.
  intros Hi. unfold flush_from. destruct (Z.ltb_spec i (W - 1)); cbn; lia.
Qed.

Lemma step_decreases th s s' :
  inv predicate_op W input s -> step predicate_op W th s = Some s' ->
  (steps_left s' < steps_left s)%nat.
Proof.
  intros Hinv Hstep. pose proof (generated_length s Hinv) as HL.
  pose proof Hinv as []. unfold steps_left.
  destruct th as [| i |]; cbn in Hstep.
  - unfold generator_step in Hstep.
    destruct (generator s) as [[|x rest] order | i |] eqn:Eg;
      cbn in Hstep; simplify_eq; cbn [generator generated_queue filtered_queue
                                      tasks push popped].
    + rewrite gen_left_flush by lia. cbn. lia.
    + cbn. lia.
    + destruct inv_gen0 as [Hi _]. rewrite gen_left_flush by lia. cbn. lia.
  - unfold task_step in Hstep.
    destruct (tasks s !! i) as [[| it |]|] eqn:Ei; try done.
    + unfold pop in Hstep.
      destruct (pushed (generated_queue s) !! popped (generated_queue s))
        as [it|] eqn:Epop; [| done].
      simplify_eq. cbn. apply lookup_lt_Some in Epop.
      pose proof (count_insert is_hold _ _ (WHold it) _ Ei) as Hc.
      cbn in Hc. lia.
    + destruct (task_push predicate_op it) as [out next] eqn:Epush.
      simplify_eq. cbn.
      pose proof (count_insert is_hold _ _ next _ Ei) as Hc. cbn in Hc.
      assert (is_hold next = false).
      { unfold task_push in Epush.
        destruct (fst it) as [x|]; [destruct (predicate_op x) |]; by simplify_eq. }
      destruct (is_hold next); [done | lia].
  - unfold consumer_step in Hstep.
    destruct (consumer s) as [c|]; [| done]. unfold pop in Hstep.
    destruct (pushed (filtered_queue s) !! popped (filtered_queue s))
      as [it|] eqn:Epop; [| done].
    simplify_eq. cbn. apply lookup_lt_Some in Epop. lia.
Qed.

Lemma progress s :
  2 <= W -> inv predicate_op W input s -> joined s = false ->
  exists th s', step predicate_op W th s = Some s'.
Proof.
  intros HW Hinv Hj. pose proof Hinv as [].
  destruct (generator s) as [rest order | i |] eqn:Eg.
  - exists Generator. cbn. unfold generator_step. rewrite Eg.
    destruct (generate_op rest). eauto.
  - exists Generator. cbn. unfold generator_step. rewrite Eg. eauto.
  - destruct (forallb is_joined (tasks s)) eqn:Eall.
    + destruct (consumer s) as [c|] eqn:Ec.
      2:{ unfold joined in Hj. rewrite Eg, Ec in Hj.
          unfold is_joined in Eall. by rewrite Eall in Hj. }
      exists Consumer. cbn. unfold consumer_step, pop. rewrite Ec.
      destruct (pushed (filtered_queue s) !! popped (filtered_queue s))
        as [it|] eqn:Epop; [eauto |].
      exfalso. apply lookup_ge_None in Epop.
      destruct inv_done0 as [Hdone Hlt]. specialize (Hlt HW).
      rewrite take_ge in Hdone by done.
      rewrite inv_ends0, (forallb_true_count _ _ Eall), inv_tasks0 in Hdone.
      lia.
    + apply forallb_false_lookup in Eall as (i & w & Hi & Hw).
      exists (Task i). cbn. unfold task_step. rewrite Hi.
      destruct w as [| it |]; [| | done].
      * unfold pop.
        destruct (pushed (generated_queue s) !! popped (generated_queue s))
          as [it|] eqn:Epop; [eauto |].
        exfalso. apply lookup_ge_None in Epop.
        cbn in inv_gen0. rewrite inv_gen0, generator_log_length in Epop.
        pose proof (count_lt_length is_ended _ _ _ Hi eq_refl). lia.
      * destruct (task_push predicate_op it). eauto.
Qed.

Lemma completes (n : nat) s :
  2 <= W -> inv predicate_op W input s -> (steps_left s <= n)%nat ->
  exists schedule, joined (run predicate_op W schedule s) = true.
Proof.
  intros HW. revert s. induction n as [|n IH]; intros s Hinv Hn.
  - destruct (joined s) eqn:Hj; [by exists [] |].
    destruct (progress s HW Hinv Hj) as (th & s' & Hstep).
    pose proof (step_decreases _ _ _ Hinv Hstep). lia.
  - destruct (joined s) eqn:Hj; [by exists [] |].
    destruct (progress s HW Hinv Hj) as (th & s' & Hstep).
    pose proof (step_decreases _ _ _ Hinv Hstep) as Hlt.
    destruct (IH s') as [schedule Hs]; [by eapply inv_step | lia |].
    exists (th :: schedule). cbn. by rewrite Hstep.
Qed.

Lemma run_app schedule1 schedule2 (s : state T) :
  run predicate_op W (schedule1 ++ schedule2) s
  = run predicate_op W schedule2 (run predicate_op W schedule1 s).
Proof. apply foldl_app. Qed.

(** With at least one filter thread, every run of [keep] can be continued
    until all threads are joined, and it takes no more steps than
    [steps_left] allows: no reachable state is a deadlock. *)
Theorem keep_returns schedule :
  2 <= W ->
  exists schedule',
    joined (run predicate_op W (schedule ++ schedule') (keep_init W input)) = true.
Proof.
  intros HW.
  destruct (completes (steps_left (run predicate_op W schedule (keep_init W input)))
              (run predicate_op W schedule (keep_init W input)) HW)
    as [schedule' Hs]; [apply inv_reachable | done |].
  exists schedule'. by rewrite run_app.
Qed.

(** The number of steps of a schedule in which the named thread could
    move. *)
Fixpoint moves (schedule : list thread) (s : state T) : nat :=
  match schedule with
  | [] => 0
  | th :: schedule' =>
      match step predicate_op W th s with
      | Some s' => S (moves schedule' s')
      | None => moves schedule' s
      end
  end.

(** No run of [keep] has more than [steps_left] moves: there is no
    endless run. *)
Lemma moves_bounded schedule s :
  inv predicate_op W input s ->
  (moves schedule s + steps_left (run predicate_op W schedule s)
   <= steps_left s)%nat.
Proof.
  revert s. induction schedule as [|th schedule IH]; intros s Hinv; [done |].
  change (run predicate_op W (th :: schedule) s)
    with (run predicate_op W schedule (default s (step predicate_op W th s))).
  cbn [moves]. destruct (step predicate_op W th s) as [s'|] eqn:E;
    cbn [default from_option]; unfold id.
  - pose proof (step_decreases _ _ _ Hinv E).
    specialize (IH s' (inv_step _ _ _ _ _ _ Hinv E)). lia.
  - by apply IH.
Qed.

(** With at least one filter thread, a reachable state in which no thread
    can move is one in which [keep] has returned. *)
Lemma no_deadlock schedule :
  2 <= W ->
  let s := run predicate_op W schedule (keep_init W input) in
  (forall th, step predicate_op W th s = None) -> joined s = true.
Proof.
  intros HW s Hstuck. destruct (joined s) eqn:Hj; [done |].
  destruct (progress s HW) as (th & s' & Hstep);
    [apply inv_reachable | done |].
  by rewrite Hstuck in Hstep.
Qed.

End KeepLiveness.

(** ** The farm stage of the OpenMP pipeline *)

Section FarmFacts.
Import OmpPipeline.
Context {T U : Type}.
Variable task : T -> U.
Variable W : Z.

(** The task has incremented [done_threads]. *)
Definition counted (t : @farm_task T) : bool :=
  match t with FTest | FJoined => true | _ => false end.

Definition farm_joined (t : @farm_task T) : bool :=
  match t with FJoined => true | _ => false end.

Record farm_inv (s : @farm_state T U) : Prop := {
  fi_tasks : length (farm_tasks s) = Z.to_nat W;
  fi_done : done_threads s = Z.of_nat (count counted (farm_tasks s));
  fi_mark : forallb farm_joined (farm_tasks s) = true -> farm_tasks s <> [] ->
      (1 <= count is_end (pushed (output_queue s)))%nat
}.

Lemma farm_inv_init input : farm_inv (farm_init W input).
Proof.
  split; cbn.
  - apply length_replicate.
  - by rewrite count_replicate.
  - destruct (Z.to_nat W); [done |]. cbn. done.
Qed.

Lemma farm_not_joined (ws : list (@farm_task T)) i t :
  (i < length ws)%nat -> farm_joined t = false ->
  forallb farm_joined (<[i := t]> ws) = false.
Proof.
  intros Hi Ht. destruct (forallb farm_joined (<[i := t]> ws)) eqn:E; [| done].
  assert (Hl : <[i := t]> ws !! i = Some t) by (by apply list_lookup_insert_eq).
  pose proof (forallb_lookup _ _ _ _ E Hl). congruence.
Qed.

Lemma farm_inv_step th s s' :
  farm_inv s -> farm_step task W th s = Some s' -> farm_inv s'.
Proof.
  intros [] Hstep. unfold farm_step, farm_set in Hstep.
  destruct (farm_tasks s !! th) as [t|] eqn:Eth; [| done].
  pose proof (lookup_lt_Some _ _ _ Eth) as Hlen.
  assert (Hcount : forall t', (count counted (<[th := t']> (farm_tasks s))
                               + (if counted t then 1 else 0)
                               = count counted (farm_tasks s)
                                 + (if counted t' then 1 else 0))%nat).
  { intros t'. by apply count_insert. }
  destruct t as [| x tag | it | | |]; try done.
  - destruct (pop (input_queue s)) as [[it q]|]; [| done]. simplify_eq.
    split; cbn.
    + by rewrite length_insert.
    + specialize (Hcount match fst it with Some x => FHold x (snd it)
                                          | None => FPushBack it end).
      cbn in Hcount. destruct (fst it); cbn in Hcount; lia.
    + intros Hall. rewrite farm_not_joined in Hall; [done | done |].
      by destruct (fst it).
  - simplify_eq. split; cbn.
    + by rewrite length_insert.
    + specialize (Hcount FPop). cbn in Hcount. lia.
    + intros Hall. by rewrite farm_not_joined in Hall.
  - simplify_eq. split; cbn.
    + by rewrite length_insert.
    + specialize (Hcount FIncr). cbn in Hcount. lia.
    + intros Hall. by rewrite farm_not_joined in Hall.
  - simplify_eq. split; cbn.
    + by rewrite length_insert.
    + specialize (Hcount FTest). cbn in Hcount. lia.
    + intros Hall. by rewrite farm_not_joined in Hall.
  - simplify_eq. specialize (Hcount FJoined). cbn in Hcount.
    split; cbn.
    + by rewrite length_insert.
    + lia.
    + intros Hall _.
      assert (Hc : count counted (<[th := FJoined]> (farm_tasks s))
                   = length (<[th := FJoined]> (farm_tasks s))).
      { apply forallb_true_count.
        eapply forallb_mono; [| exact Hall]. by intros []. }
      rewrite length_insert in Hc.
      destruct (Z.eqb_spec (done_threads s) W) as [_ | Hne]; [| lia].
      cbn [push pushed]. rewrite count_app. cbn. lia.
Qed.

Lemma farm_inv_run schedule s :
  farm_inv s -> farm_inv (farm_run task W schedule s).
Proof.
  revert s. induction schedule as [|th schedule IH]; intros s Hinv; [done |].
  cbn. apply IH. destruct (farm_step task W th s) as [s'|] eqn:E; cbn.
  - by eapply farm_inv_step.
  - done.
Qed.

(** Once all tasks of the farm stage have ended, an end mark has been
    pushed to the output queue. *)
Lemma farm_end_mark input schedule :
  1 <= W ->
  let s := farm_run task W schedule (farm_init W input) in
  forallb farm_joined (farm_tasks s) = true ->
  (1 <= count is_end (pushed (output_queue s)))%nat.
Proof.
  intros HW s Hall.
  assert (Hinv : farm_inv s) by apply farm_inv_run, farm_inv_init.
  apply (fi_mark _ Hinv Hall). intros Hnil.
  pose proof (fi_tasks _ Hinv) as Hlen. rewrite Hnil in Hlen. cbn in Hlen. lia.
Qed.

End FarmFacts.

(** ** [keep]: the end marks *)

(** C3, as the code has it.  In [keep] every filter thread that has popped
    an empty optional pushes one end mark [(empty, -1)] to
    [filtered_queue], as its last push, and ends; so the number of end
    marks pushed is the number of filter threads that have ended, and
    [concurrency_degree()-1] (not one) once [keep] returns.  Every run can
    be continued until all filter threads have ended, and until [keep]
    returns if there is a filter thread at all.  In the farm stage of the
    OpenMP pipeline an end mark has been pushed to the output queue once
    all tasks have ended. *)
Theorem keep_end_marks {T : Type} (predicate_op : T -> bool) (W : Z)
    (input : list T) (schedule : list thread) :
  let s := run predicate_op W schedule (keep_init W input) in
  count is_end (pushed (filtered_queue s)) = count is_joined (tasks s)
  /\ length (tasks s) = Z.to_nat (W - 1)
  /\ (joined s = true ->
        count is_end (pushed (filtered_queue s)) = Z.to_nat (W - 1))
  /\ (exists schedule',
        let s' := run predicate_op W (schedule ++ schedule') (keep_init W input) in
        forallb is_joined (tasks s') = true
        /\ (2 <= W -> joined s' = true))
  /\ (forall (U : Type) (task : T -> U) (input_queue : queue T)
             (farm_schedule : list nat),
        1 <= W ->
        let f := OmpPipeline.farm_run task W farm_schedule
                   (OmpPipeline.farm_init W input_queue) in
        forallb farm_joined (OmpPipeline.farm_tasks f) = true ->
        (1 <= count is_end (pushed (OmpPipeline.output_queue f)))%nat).
Proof.
  intros s. pose proof (inv_reachable predicate_op W input schedule) as Hinv.
  fold s in Hinv.
  split; [apply (inv_ends _ _ _ _ Hinv) |].
  split; [apply (inv_tasks _ _ _ _ Hinv) |].
  split; [| split].
  - intros Hj. rewrite (inv_ends _ _ _ _ Hinv), <- (inv_tasks _ _ _ _ Hinv).
    apply forallb_true_count. unfold joined in Hj.
    destruct (generator s); try done. by destruct (consumer s).
  - destruct (Z.le_gt_cases 2 W) as [HW | HW].
    + destruct (keep_returns predicate_op W input schedule HW) as [schedule' Hs].
      exists schedule'. cbn zeta. split; [| done].
      unfold joined in Hs.
      destruct (generator _); try done. by destruct (consumer _).
    + exists []. cbn zeta. rewrite app_nil_r. split; [| lia].
      destruct (idle_run predicate_op W input schedule) as (Ht & _); [lia |].
      by rewrite Ht.
  - intros U task input_queue farm_schedule HW. by apply farm_end_mark.
Qed.

Lemma keep_end_marks_witness :
  let schedule := replicate 4 Generator
                  ++ [Task 0; Task 0; Task 0; Task 0; Task 1; Task 1]
                  ++ replicate 3 Consumer in
  let s := run (fun _ : Z => true) 3 schedule (keep_init 3 [7]) in
  count is_end (pushed (filtered_queue s)) = Z.to_nat (3 - 1).
Proof.
  intros schedule s.
  apply (proj1 (proj2 (proj2 (keep_end_marks (fun _ : Z => true) 3 [7] schedule)))).
  reflexivity.
Defined.

(** Two end marks reach the output queue of a stage with two workers: in
    [keep] with concurrency degree 3 by design, and in the farm stage of
    the OpenMP pipeline when both tasks increment [done_threads] before
    either of them compares it with the concurrency degree. *)
Lemma two_end_marks :
  (let s := keep (Policy.make 3 true) [7] (fun _ => true)
              (replicate 4 Generator
               ++ [Task 0; Task 0; Task 0; Task 0; Task 1; Task 1]
               ++ replicate 3 Consumer) in
   joined s = true
   /\ pushed (filtered_queue s) = [(Some 7, 0); (None, -1); (None, -1)]
   /\ count is_end (pushed (filtered_queue s)) = 2%nat)
  /\ (let input := {| pushed := OmpPipeline.generator_task [7] 0; popped := 0 |} in
      let s := OmpPipeline.farm_run (fun x => x + 1) 2
                 [0; 0; 0; 0; 1; 1; 0; 1; 0; 1]%nat
                 (OmpPipeline.farm_init 2 input) in
      OmpPipeline.farm_tasks s = [OmpPipeline.FJoined; OmpPipeline.FJoined]
      /\ pushed (OmpPipeline.output_queue s)
         = [(Some 8, 0); (None, -1); (None, -1)]).
Proof. split; repeat split; reflexivity. Qed.

(** ** [keep] and [discard]: a run with three filter threads *)

(** The generator runs to its end.  Filter thread 0 takes the element
    tagged 0; thread 1 takes the element tagged 1, pushes its result and
    takes the element tagged 2; thread 2 takes the element tagged 3 and
    pushes its result; then thread 0 pushes, then thread 1.  All filter
    threads end, and the consumer runs. *)
Definition late_first : list thread :=
  replicate 8 Generator
  ++ [Task 0; Task 1; Task 1; Task 1; Task 2; Task 2; Task 0; Task 1]
  ++ [Task 0; Task 0; Task 1; Task 1; Task 2; Task 2]
  ++ replicate 7 Consumer.

(** C1 at concurrency degree 4: [keep] returns, the items reach the
    consumer in the order 1, 3, 0, 2 of their tags, and [consume_op] is
    called with 10, 13, 12, 13 where the input is 10, 11, 12, 13 and the
    predicate holds for all of them. *)
Theorem keep_order_lost :
  let s := keep (Policy.make 4 true) [10; 11; 12; 13] (fun _ => true) late_first in
  joined s = true
  /\ pushed (filtered_queue s)
     = [(Some 11, 1); (Some 13, 3); (Some 10, 0); (Some 12, 2);
        (None, -1); (None, -1); (None, -1)]
  /\ delivered s = [10; 13; 12; 13]
  /\ delivered s <> [10; 11; 12; 13].
Proof. repeat split; try reflexivity. by vm_compute. Qed.

(** [discard] is [keep] with the negated predicate, whatever the schedule. *)
Lemma discard_keep {T : Type} (ex : Policy.parallel_execution)
    (input : list T) (predicate_op : T -> bool) (schedule : list thread) :
  discard ex input predicate_op schedule
  = keep ex input (fun x => negb (predicate_op x)) schedule.
Proof. reflexivity. Qed.

(** C7 at concurrency degree 4.  [discard] is [keep] with the negated
    predicate; but with a predicate that is false for all of 10, 11, 12, 13
    and the schedule [late_first], [discard] returns with 10, 13, 12, 13
    delivered: 11 fails the predicate and is not delivered. *)
Theorem discard_value_lost :
  (forall (T : Type) ex (input : list T) predicate_op schedule,
     discard ex input predicate_op schedule
     = keep ex input (fun x => negb (predicate_op x)) schedule)
  /\ (let s := discard (Policy.make 4 true) [10; 11; 12; 13]
                 (fun _ => false) late_first in
      joined s = true
      /\ delivered s = [10; 13; 12; 13]
      /\ 11 ∉ delivered s).
Proof.
  split; [intros; apply discard_keep |].
  repeat split; try reflexivity.
  vm_compute. intros H. repeat (apply elem_of_cons in H as [H | H]; [done |]).
  by apply elem_of_nil in H.
Qed.

(** ** [keep]: a hole that waits in the buffer *)

(** The generator runs to its end, filter thread 0 handles all four
    elements one after the other, then the filter threads end and the
    consumer runs: the items reach the consumer in the order of their
    tags. *)
Definition in_order : list thread :=
  replicate 8 Generator
  ++ replicate 10 (Task 0)
  ++ [Task 1; Task 1; Task 2; Task 2]
  ++ replicate 7 Consumer.

(** C4 at concurrency degree 4, input 10, 11, 12, 13 and a predicate that
    fails for 11 only.  The filter thread pushes the hole [(empty, 1)] for
    11, with the tag of 11.  When the items arrive in the order of their
    tags, the consumer passes the hole without a call of [consume_op]:
    10, 12, 13 are delivered.  With the schedule [late_first] the hole
    arrives first and waits in the buffer with the item tagged 3; when the
    item tagged 0 arrives, the buffer search reaches the hole, moves
    [order] on to 2, and the loop after [remove_if] calls [consume_op]
    with 13, the payload left at the last position: 10, 13, 12, 13 are
    delivered. *)
Theorem hole_not_skipped :
  let predicate_op := fun x : Z => negb (x =? 11) in
  (let s := keep (Policy.make 4 true) [10; 11; 12; 13] predicate_op in_order in
   joined s = true
   /\ pushed (filtered_queue s)
      = [(Some 10, 0); (None, 1); (Some 12, 2); (Some 13, 3);
         (None, -1); (None, -1); (None, -1)]
   /\ delivered s = [10; 12; 13])
  /\ (let s := run predicate_op 4 (take 17 late_first)
                 (keep_init 4 [10; 11; 12; 13]) in
      pushed (filtered_queue s)
      = [(None, 1); (Some 13, 3); (Some 10, 0); (Some 12, 2)]
      /\ consumer s = CPop consumer_init)
  /\ consumer_body 4
       {| done_threads := 0; item_buffer := [(None, 1); (Some 13, 3)];
          order := 0; consumed := [] |} (Some 10, 0)
     = ({| done_threads := 0; item_buffer := [(Some 13, 3)];
           order := 2; consumed := [10; 13] |}, false)
  /\ (let s := keep (Policy.make 4 true) [10; 11; 12; 13] predicate_op
                 late_first in
      joined s = true
      /\ pushed (filtered_queue s)
         = [(None, 1); (Some 13, 3); (Some 10, 0); (Some 12, 2);
            (None, -1); (None, -1); (None, -1)]
      /\ delivered s = [10; 13; 12; 13]
      /\ delivered s
         <> filter (fun x => predicate_op x = true) [10; 11; 12; 13]).
Proof. repeat split; try reflexivity. by vm_compute. Qed.

(** ** The last stage of the OpenMP pipeline *)

Section LastStageFacts.
Import OmpPipeline.
Context {T : Type}.
Variable val : nat -> T.   (* the payload of the item tagged [t] *)

Definition arriving (ts : list nat) : list (item T) :=
  (fun t => (Some (val t), Z.of_nat t)) <$> ts.

Definition buffered (els : list nat) : list (T * Z) :=
  (fun t => (val t, Z.of_nat t)) <$> els.

(** The state of the loop after the items tagged [ts] have arrived. *)
Definition last_stage_steps (st : list (T * Z) * Z * list T) (ts : list nat)
  : list (T * Z) * Z * list T :=
  foldl (fun st t => last_stage_body st (val t) (Z.of_nat t)) st ts.

Lemma last_stage_loop_app ts rest st :
  last_stage_loop (arriving ts ++ rest) st
  = last_stage_loop rest (last_stage_steps st ts).
Proof.
  revert st. induction ts as [|t ts IH]; intros st; [done |].
  cbn. apply IH.
Qed.

Lemma release_one_in (m : nat) els :
  m ∈ els ->
  exists els', release_one (Z.of_nat m) (buffered els) = Some (val m, buffered els')
               /\ els ≡ₚ m :: els'.
Proof.
  induction els as [|e els IH]; intros Hin; [by apply elem_of_nil in Hin |].
  cbn. destruct (Z.eqb_spec (Z.of_nat e) (Z.of_nat m)) as [Heq | Hne].
  - apply Nat2Z.inj in Heq as ->. by exists els.
  - apply elem_of_cons in Hin as [-> | Hin]; [done |].
    destruct (IH Hin) as (els' & Hrel & Hp). unfold buffered in Hrel.
    rewrite Hrel. exists (e :: els'). split; [done |].
    rewrite Hp. apply perm_swap.
Qed.

Lemma release_one_notin (m : nat) els :
  m ∉ els -> release_one (Z.of_nat m) (buffered els) = None.
Proof.
  induction els as [|e els IH]; intros Hin; [done |].
  apply not_elem_of_cons in Hin as [Hne Hin]. cbn.
  destruct (Z.eqb_spec (Z.of_nat e) (Z.of_nat m)) as [Heq | _]; [lia |].
  specialize (IH Hin). unfold buffered in IH. by rewrite IH.
Qed.

(** After the items [pre] the tags below [current] are released, in
    order, and the other tags of [pre] are buffered. *)
Definition last_stage_ok (pre : list nat) (st : list (T * Z) * Z * list T)
  : Prop :=
  exists (m : nat) (els : list nat),
    st = (buffered els, Z.of_nat m, val <$> seq 0 m)
    /\ pre ≡ₚ seq 0 m ++ els.

Lemma last_stage_body_ok pre st t :
  last_stage_ok pre st ->
  last_stage_ok (pre ++ [t]) (last_stage_body st (val t) (Z.of_nat t)).
Proof.
  intros (m & els & -> & Hpre). unfold last_stage_body.
  destruct (Z.eqb_spec (Z.of_nat m) (Z.of_nat t)) as [Heq | Hne].
  - apply Nat2Z.inj in Heq as <-.
    replace (Z.of_nat m + 1) with (Z.of_nat (S m)) by lia.
    destruct (decide (S m ∈ els)) as [Hin | Hin].
    + destruct (release_one_in _ _ Hin) as (els' & -> & Hels).
      exists (S (S m)), els'. split.
      * rewrite !seq_S, !fmap_app. cbn. do 2 f_equal. lia.
      * rewrite Hpre, Hels, !seq_S, <- !(assoc_L (++)). f_equiv. cbn.
        rewrite <- Permutation_cons_append. apply perm_swap.
    + rewrite (release_one_notin _ _ Hin).
      exists (S m), els. split.
      * by rewrite seq_S, fmap_app.
      * rewrite Hpre, seq_S, <- !(assoc_L (++)). f_equiv.
        apply Permutation_app_comm.
  - assert (Hb : buffered els ++ [(val t, Z.of_nat t)] = buffered (els ++ [t])).
    { unfold buffered. by rewrite fmap_app. }
    rewrite Hb.
    destruct (decide (m ∈ els ++ [t])) as [Hin | Hin].
    + destruct (release_one_in _ _ Hin) as (els' & -> & Hels).
      exists (S m), els'. split.
      * rewrite seq_S, fmap_app. cbn. do 2 f_equal. lia.
      * rewrite Hpre, <- !(assoc_L (++)), Hels, seq_S, <- !(assoc_L (++)). done.
    + rewrite (release_one_notin _ _ Hin).
      exists m, (els ++ [t]). split; [done |].
      by rewrite Hpre, <- !(assoc_L (++)).
Qed.

Lemma last_stage_steps_ok ts pre st :
  last_stage_ok pre st -> last_stage_ok (pre ++ ts) (last_stage_steps st ts).
Proof.
  revert pre st. induction ts as [|t ts IH]; intros pre st Hok.
  - by rewrite app_nil_r.
  - cbn. replace (pre ++ t :: ts) with ((pre ++ [t]) ++ ts)
      by (by rewrite <- (assoc_L (++))).
    apply IH. by apply last_stage_body_ok.
Qed.

Lemma last_stage_drain_ok (K n : nat) els (m : nat) :
  length els = n -> seq 0 m ++ els ≡ₚ seq 0 K ->
  last_stage_drain n (buffered els) (Z.of_nat m) (val <$> seq 0 m)
  = Returned (val <$> seq 0 K).
Proof.
  revert els m. induction n as [|n IH]; intros els m Hlen Hperm.
  - destruct els; [| done]. rewrite app_nil_r in Hperm.
    apply Permutation_length in Hperm. rewrite !length_seq in Hperm.
    by subst.
  - assert (Hm : m ∈ els).
    { pose proof (Permutation_length Hperm) as HL.
      rewrite length_app, !length_seq in HL.
      assert (Hin : m ∈ seq 0 K) by (apply elem_of_seq; lia).
      rewrite <- Hperm in Hin. apply elem_of_app in Hin as [Hin | Hin]; [| done].
      apply elem_of_seq in Hin. lia. }
    destruct (release_one_in _ _ Hm) as (els' & Hrel & Hels).
    cbn. rewrite Hrel.
    replace (Z.of_nat m + 1) with (Z.of_nat (S m)) by lia.
    replace ((val <$> seq 0 m) ++ [val m]) with (val <$> seq 0 (S m))
      by (by rewrite seq_S, fmap_app).
    apply IH.
    + apply Permutation_length in Hels. cbn in Hels. lia.
    + rewrite seq_S, <- (assoc_L (++)). cbn. by rewrite <- Hels.
Qed.

(** Fed the items tagged [0..K-1] in any order and then an item without
    payload, the last stage returns, having called [consume_op] once for
    every item, in the order of the tags. *)
Lemma last_stage_any_order (K : nat) (ts : list nat) (e : Z) :
  ts ≡ₚ seq 0 K ->
  last_stage (arriving ts ++ [(None, e)]) = Returned (val <$> seq 0 K).
Proof.
  intros Hperm. unfold last_stage. rewrite last_stage_loop_app.
  destruct (last_stage_steps_ok ts [] ([], 0, []))
    as (m & els & -> & Hpre).
  { by exists 0%nat, []. }
  cbn in Hpre. cbn [last_stage_loop fst].
  unfold buffered at 1. rewrite length_fmap.
  apply last_stage_drain_ok; [done |]. by rewrite <- Hpre.
Qed.

(** One arrival releases at most one buffered element. *)
Lemma last_stage_body_one (elements : list (T * Z)) (current : Z)
    (out : list T) (x : T) (tag : Z) :
  let '(elements', _, out') := last_stage_body (elements, current, out) x tag in
  (length elements <= length elements' + 1)%nat
  /\ (length out' <= length out + 2)%nat.
Proof.
  unfold last_stage_body.
  assert (Hrel : forall cur (els : list (T * Z)) y els',
            release_one cur els = Some (y, els') -> length els = S (length els')).
  { intros cur els. induction els as [|e els IH]; intros y els'; cbn; [done |].
    destruct (snd e =? cur); [by intros [= _ <-] |].
    destruct (release_one cur els) as [[y' r]|] eqn:E; [| done].
    intros [= _ <-]. cbn. f_equal. by eapply IH. }
  destruct (current =? tag).
  - destruct (release_one (current + 1) elements) as [[y els']|] eqn:E.
    + apply Hrel in E. rewrite !length_app. cbn. lia.
    + rewrite !length_app. cbn. lia.
  - destruct (release_one current (elements ++ [(x, tag)])) as [[y els']|] eqn:E.
    + apply Hrel in E. rewrite !length_app in *. cbn in *. lia.
    + rewrite !length_app. cbn. lia.
Qed.

End LastStageFacts.

(** ** The consumer of [keep], fed a sequence of items *)

(** The consumer thread after its [pop]s have returned the items of
    [arrivals] one after the other. *)
Definition consumer_feed {T} (W : Z) (th : consumer_thread T)
    (arrivals : list (item T)) : consumer_thread T :=
  foldl (fun th it => match th with
                      | CPop c => consumer_receive W c it
                      | CJoined _ => th
                      end) th arrivals.

Section FeedFacts.
Context {T : Type}.
Variable pay : nat -> option T.   (* the payload of the item tagged [t] *)
Variable W : Z.

Definition item_of (t : nat) : item T := (pay t, Z.of_nat t).

(** An arrival: the item tagged [t], or an end mark. *)
Definition to_item (k : option nat) : item T :=
  match k with
  | Some t => item_of t
  | None => (None, -1)
  end.

Definition tags (ks : list (option nat)) : list nat := omap id ks.

Definition ends (ks : list (option nat)) : nat :=
  count (fun k => match k with None => true | Some _ => false end) ks.

(** On every arrival at most one smaller tag is still outstanding. *)
Definition near_sorted (ks : list (option nat)) : Prop :=
  forall pre t post, ks = pre ++ Some t :: post ->
  forall a b, (a < t)%nat -> (b < t)%nat ->
              a ∉ tags pre -> b ∉ tags pre -> a = b.

Definition feed (ks : list (option nat)) : consumer_thread T :=
  consumer_feed W (CPop consumer_init) (to_item <$> ks).

Lemma tags_app ks1 ks2 : tags (ks1 ++ ks2) = tags ks1 ++ tags ks2.
Proof. apply omap_app. Qed.

Lemma ends_app ks1 ks2 : ends (ks1 ++ ks2) = (ends ks1 + ends ks2)%nat.
Proof. apply count_app. Qed.

Lemma feed_snoc ks k :
  feed (ks ++ [k])
  = match feed ks with
    | CPop c => consumer_receive W c (to_item k)
    | CJoined c => CJoined c
    end.
Proof.
  unfold feed, consumer_feed. rewrite fmap_app, foldl_app. cbn.
  by destruct (foldl _ _ _).
Qed.

Lemma near_sorted_prefix ks1 ks2 : near_sorted (ks1 ++ ks2) -> near_sorted ks1.
Proof.
  intros H pre t post ->. apply (H pre t (post ++ ks2)).
  by rewrite <- !(assoc_L (++)).
Qed.

Lemma scan_none (v : list (item T)) order :
  (forall it, it ∈ v -> snd it <> order) -> scan v order = (v, order).
Proof.
  induction v as [|x v IH]; intros Hv; [done |]. cbn.
  destruct (Z.eqb_spec (snd x) order) as [Heq | _].
  - exfalso. apply (Hv x); [by left | done].
  - rewrite IH; [done |]. intros it Hit. apply Hv. by right.
Qed.

Lemma scan_run (a j : nat) :
  scan (item_of <$> seq a j) (Z.of_nat a) = ([], Z.of_nat (a + j)).
Proof.
  revert a. induction j as [|j IH]; intros a; cbn.
  - by rewrite Nat.add_0_r.
  - rewrite Z.eqb_refl.
    replace (Z.of_nat a + 1) with (Z.of_nat (S a)) by lia.
    rewrite IH. do 2 f_equal. lia.
Qed.

Lemma payloads_items (l : list nat) : payloads (item_of <$> l) = omap pay l.
Proof.
  unfold payloads. induction l as [|t l IH]; [done |].
  cbn. rewrite IH. done.
Qed.

Lemma search_buffer_none (c : consumer_state T) :
  (forall it, it ∈ item_buffer c -> snd it <> order c) -> search_buffer c = c.
Proof.
  intros H. rewrite search_buffer_spec, (scan_none _ _ H). cbn.
  rewrite drop_all. cbn. rewrite app_nil_r. by destruct c.
Qed.

Lemma drain_none (c : consumer_state T) :
  (forall it, it ∈ item_buffer c -> snd it <> order c) -> drain c = c.
Proof.
  intros H. unfold drain. destruct (length (item_buffer c)); [done |].
  cbn. by apply find_erase_None in H as ->.
Qed.

Lemma run_above (m j : nat) it :
  it ∈ item_of <$> seq (S m) j -> snd it <> Z.of_nat m.
Proof.
  intros Hit. apply list_elem_of_fmap in Hit as (t & -> & Ht).
  apply elem_of_seq in Ht. cbn. lia.
Qed.

(** After the arrivals [pre], with less than [W-1] end marks among them:
    the tags below [order] have been released, in order, and the other
    tags that have arrived are buffered, in order and without a gap. *)
Definition feed_ok (pre : list (option nat)) (c : consumer_state T) : Prop :=
  exists m j : nat,
    done_threads c = Z.of_nat (ends pre)
    /\ order c = Z.of_nat m
    /\ item_buffer c = item_of <$> seq (S m) j
    /\ consumed c = omap pay (seq 0 m)
    /\ forall t, t ∈ tags pre <-> (t < m \/ m < t <= m + j)%nat.

Lemma feed_ok_item pre c t :
  feed_ok pre c -> Z.of_nat (ends pre) < W - 1 ->
  t ∉ tags pre ->
  (forall a b, (a < t)%nat -> (b < t)%nat ->
               a ∉ tags pre -> b ∉ tags pre -> a = b) ->
  exists c', consumer_receive W c (item_of t) = CPop c'
             /\ feed_ok (pre ++ [Some t]) c'.
Proof.
  intros (m & j & Hd & Ho & Hb & Hc & Hpre) He Ht Hnear.
  assert (Hm : m ∉ tags pre) by (rewrite Hpre; lia).
  assert (Htm : t = m \/ t = S (m + j)).
  { destruct (decide (t = m)) as [| Hne]; [by left | right].
    assert (m + j < t)%nat by (rewrite Hpre in Ht; lia).
    destruct (decide (t = S (m + j))) as [| Hne']; [done |].
    assert (HS : S (m + j) ∉ tags pre) by (rewrite Hpre; lia).
    pose proof (Hnear m (S (m + j)) ltac:(lia) ltac:(lia) Hm HS). lia. }
  unfold consumer_receive.
  destruct (Z.eqb_spec (done_threads c) (W - 1)); [lia |].
  unfold consumer_body, is_end, item_of. cbn [fst snd].
  assert (Hend : match pay t with Some _ => false | None => Z.of_nat t =? -1 end = false).
  { destruct (pay t); [done |]. apply Z.eqb_neq. lia. }
  rewrite Hend. rewrite Ho.
  destruct Htm as [-> | ->].
  - rewrite Z.eqb_refl. rewrite search_buffer_spec. cbn.
    rewrite Hb. replace (Z.of_nat m + 1) with (Z.of_nat (S m)) by lia.
    rewrite scan_run. cbn [fst snd length]. rewrite drop_0, payloads_items.
    eexists. split; [done |]. exists (m + 1 + j)%nat, 0%nat.
    cbn [done_threads order item_buffer consumed].
    split; [by rewrite ends_app, Nat.add_0_r |].
    split; [f_equal; lia |]. split; [done |]. split.
    + rewrite seq_app, seq_app, !omap_app. cbn [seq omap].
      rewrite Hc. unfold consume_if_present. cbn [fst].
      replace (0 + (m + 1))%nat with (S m) by lia.
      destruct (pay m) eqn:Epay; cbn; rewrite Epay;
        by rewrite <- ?(assoc_L (++)), ?app_nil_r.
    + intros t. rewrite tags_app, elem_of_app, Hpre. cbn.
      rewrite list_elem_of_singleton. lia.
  - destruct (Z.eqb_spec (Z.of_nat m) (Z.of_nat (S (m + j)))); [lia |].
    rewrite search_buffer_none.
    2:{ cbn. rewrite Hb. intros it Hit.
        apply elem_of_app in Hit as [Hit | Hit]; [by eapply run_above |].
        apply list_elem_of_singleton in Hit as ->. cbn. lia. }
    eexists. split; [done |]. exists m, (S j). cbn [done_threads order item_buffer consumed].
    split; [by rewrite ends_app, Nat.add_0_r |].
    split; [done |]. split; [| split; [done |]].
    + rewrite Hb, seq_S, fmap_app. done.
    + intros t. rewrite tags_app, elem_of_app, Hpre. cbn.
      rewrite list_elem_of_singleton. lia.
Qed.

Lemma feed_ok_end pre c :
  feed_ok pre c -> Z.of_nat (ends pre) < W - 1 ->
  let c1 := {| done_threads := done_threads c + 1;
               item_buffer := item_buffer c;
               order := order c;
               consumed := consumed c |} in
  consumer_receive W c (None, -1)
  = (if Z.of_nat (ends pre) + 1 =? W - 1 then CJoined c1 else CPop c1)
  /\ feed_ok (pre ++ [None]) c1.
Proof.
  intros (m & j & Hd & Ho & Hb & Hc & Hpre) He c1.
  assert (Hnone : forall it, it ∈ item_buffer c1 -> snd it <> order c1).
  { cbn. rewrite Hb, Ho. intros it Hit. by eapply run_above. }
  split.
  - unfold consumer_receive.
    destruct (Z.eqb_spec (done_threads c) (W - 1)); [lia |].
    unfold consumer_body, is_end. cbn [fst snd]. rewrite Z.eqb_refl.
    fold c1. replace (done_threads c1) with (Z.of_nat (ends pre) + 1)
      by (cbn; lia).
    destruct (Z.of_nat (ends pre) + 1 =? W - 1).
    + by rewrite drain_none.
    + by rewrite search_buffer_none.
  - exists m, j. cbn. rewrite ends_app, tags_app. cbn.
    rewrite app_nil_r. repeat split; try done; try lia; by apply Hpre.
Qed.

Lemma feed_ok_init : feed_ok [] consumer_init.
Proof.
  exists 0%nat, 0%nat. cbn. repeat split; try done; try lia.
  intros Hin. by apply elem_of_nil in Hin.
Qed.

(** As long as less than [W-1] end marks have arrived, the consumer waits
    for the next item, in a state that [feed_ok] describes. *)
Lemma feed_pop ks :
  near_sorted ks -> NoDup (tags ks) -> Z.of_nat (ends ks) < W - 1 ->
  exists c, feed ks = CPop c /\ feed_ok ks c.
Proof.
  induction ks as [|k ks IH] using rev_ind; intros Hnear Hdup He.
  - exists consumer_init. split; [done | apply feed_ok_init].
  - rewrite ends_app in He. rewrite tags_app in Hdup.
    destruct IH as (c & Hfeed & Hok).
    { by eapply near_sorted_prefix. }
    { by apply NoDup_app in Hdup as [? _]. }
    { lia. }
    rewrite feed_snoc, Hfeed. destruct k as [t|]; cbn [to_item].
    + apply feed_ok_item; [done | lia | |].
      * apply NoDup_app in Hdup as (_ & Hdis & _).
        intros Hin. apply (Hdis t Hin). cbn. by left.
      * apply (Hnear ks t []). done.
    + destruct (feed_ok_end ks c Hok) as [Hrec Hok']; [lia |].
      rewrite Hrec. cbn in He.
      destruct (Z.eqb_spec (Z.of_nat (ends ks) + 1) (W - 1)); [lia |].
      eauto.
Qed.

(** The end mark number [W-1] ends the consumer. *)
Lemma feed_join ks :
  near_sorted ks -> NoDup (tags ks) -> Z.of_nat (ends ks) + 1 = W - 1 ->
  exists c, feed (ks ++ [None]) = CJoined c /\ feed_ok (ks ++ [None]) c.
Proof.
  intros Hnear Hdup He.
  destruct (feed_pop ks Hnear Hdup) as (c & Hfeed & Hok); [lia |].
  rewrite feed_snoc, Hfeed. cbn [to_item].
  destruct (feed_ok_end ks c Hok) as [Hrec Hok']; [lia |].
  rewrite Hrec. destruct (Z.eqb_spec (Z.of_nat (ends ks) + 1) (W - 1)); [| lia].
  eauto.
Qed.

(** When all of the tags [0..K-1] have arrived, all are released. *)
Lemma feed_ok_all ks c (K : nat) :
  feed_ok ks c -> tags ks ≡ₚ seq 0 K ->
  order c = Z.of_nat K /\ item_buffer c = [] /\ consumed c = omap pay (seq 0 K).
Proof.
  intros (m & j & Hd & Ho & Hb & Hc & Hpre) Hperm.
  assert (Hin : forall t, (t < K)%nat <-> (t < m \/ m < t <= m + j)%nat).
  { intros t. rewrite <- Hpre, Hperm, elem_of_seq. lia. }
  assert (m = K) as ->.
  { destruct (Nat.lt_trichotomy m K) as [Hlt | [-> | Hgt]]; [| done |].
    - apply Hin in Hlt. lia.
    - assert (K < K)%nat by (apply Hin; lia). lia. }
  assert (j = 0)%nat as ->.
  { destruct j; [done |]. assert (S K < K)%nat by (apply Hin; lia). lia. }
  rewrite Hb. done.
Qed.

End FeedFacts.

(** ** The reorder buffers *)

Section ReorderFacts.
Context {T : Type}.

Lemma tags_items (ts : list nat) : tags (Some <$> ts) = ts.
Proof. unfold tags. induction ts as [|t ts IH]; cbn; [done | by rewrite IH]. Qed.

Lemma tags_ends n : tags (replicate n None) = [].
Proof. induction n as [|n IH]; [done | apply IH]. Qed.

Lemma ends_items (ts : list nat) : ends (Some <$> ts) = 0%nat.
Proof. unfold ends. induction ts as [|t ts IH]; cbn; [done | by rewrite IH]. Qed.

Lemma ends_ends n : ends (replicate n None) = n.
Proof. unfold ends. by rewrite count_replicate. Qed.

Lemma near_sorted_ends ks n :
  near_sorted ks -> near_sorted (ks ++ replicate n None).
Proof.
  intros H pre t post Heq.
  assert (Hi : (ks ++ replicate n None) !! length pre = Some (Some t)).
  { rewrite Heq. by apply list_lookup_middle. }
  destruct (decide (length pre < length ks)%nat) as [Hlt | Hge].
  - rewrite lookup_app_l in Hi by done.
    assert (Hpre : pre = take (length pre) ks).
    { rewrite <- (take_app_le ks (replicate n None)) by lia.
      by rewrite Heq, take_app_length. }
    rewrite Hpre. apply (H _ t (drop (S (length pre)) ks)).
    symmetry. by apply take_drop_middle.
  - rewrite lookup_app_r in Hi by lia.
    apply lookup_replicate in Hi as [? _]. done.
Qed.

(** C2, as the code has it.  Fed the items tagged [0..K-1] in any order
    and then an item without payload, the last stage of the OpenMP
    pipeline calls [consume_op] once for every item, in the order of the
    tags; one arrival releases at most one buffered element, the closing
    loop releases the others.  The consumer of [keep], which searches its
    buffer in one [remove_if] pass per arrival, hands every payload that
    is present to [consume_op] once and in the order of the tags, and
    ends with an empty buffer, when on every arrival at most one smaller
    tag is outstanding and the [concurrency_degree()-1] end marks come
    last. *)
Theorem reorder_buffer (val : nat -> T) (pay : nat -> option T) (W : Z)
    (K : nat) (ts : list nat) (e : Z) :
  2 <= W -> ts ≡ₚ seq 0 K ->
  OmpPipeline.last_stage (arriving val ts ++ [(None, e)])
  = OmpPipeline.Returned (val <$> seq 0 K)
  /\ (forall (elements : list (T * Z)) current out x tag,
        let '(elements', _, out') :=
          OmpPipeline.last_stage_body (elements, current, out) x tag in
        (length elements <= length elements' + 1)%nat
        /\ (length out' <= length out + 2)%nat)
  /\ (near_sorted (Some <$> ts) ->
      exists c,
        feed pay W ((Some <$> ts) ++ replicate (Z.to_nat (W - 1)) None)
        = CJoined c
        /\ consumed c = omap pay (seq 0 K)
        /\ item_buffer c = []
        /\ order c = Z.of_nat K).
Proof.
  intros HW Hperm. split; [by apply last_stage_any_order |].
  split; [apply last_stage_body_one |].
  intros Hnear.
  replace (Z.to_nat (W - 1)) with (Z.to_nat (W - 2) + 1)%nat by lia.
  rewrite replicate_add, (assoc_L (++)). cbn [replicate].
  set (ks := (Some <$> ts) ++ replicate (Z.to_nat (W - 2)) None).
  assert (Htags : tags ks = ts).
  { unfold ks. by rewrite tags_app, tags_items, tags_ends, app_nil_r. }
  destruct (feed_join pay W ks) as (c & Hfeed & Hok).
  - by apply near_sorted_ends.
  - rewrite Htags, Hperm. apply NoDup_seq.
  - unfold ks. rewrite ends_app, ends_items, ends_ends. lia.
  - exists c. split; [done |].
    destruct (feed_ok_all pay (ks ++ [None]) c K Hok) as (Ho & Hb & Hc).
    { by rewrite tags_app, Htags, app_nil_r. }
    done.
Qed.

End ReorderFacts.

Lemma reorder_buffer_witness :
  OmpPipeline.last_stage
    (arriving (fun t => Z.of_nat t + 10) [1; 0; 2]%nat ++ [(None, -1)])
  = OmpPipeline.Returned [10; 11; 12]
  /\ exists c,
       feed (fun t => if Nat.even t then Some (Z.of_nat t + 10) else None) 3
            ((Some <$> [1; 0; 2]%nat) ++ replicate (Z.to_nat (3 - 1)) None)
       = CJoined c
       /\ consumed c = [10; 12].
Proof.
  destruct (reorder_buffer (fun t => Z.of_nat t + 10)
              (fun t => if Nat.even t then Some (Z.of_nat t + 10) else None)
              3 3 [1; 0; 2]%nat (-1)) as (Homp & _ & Hnative).
  - lia.
  - apply perm_swap.
  - split; [exact Homp |].
    destruct Hnative as (c & Hfeed & Hc & _).
    + intros pre t post Heq a b Ha Hb Hna Hnb.
      destruct pre as [|k1 [|k2 [|k3 pre]]]; cbn in Heq; simplify_eq.
      * lia.
      * lia.
      * assert (Hcases : forall x, (x < 2)%nat -> x ∈ tags [Some 1; Some 0]%nat).
        { intros x Hx. assert (x = 0 \/ x = 1)%nat as [-> | ->] by lia;
            cbn; [by right; left | by left]. }
        exfalso. by apply Hna, Hcases.
      * by destruct pre.
    + exists c. split; [exact Hfeed | exact Hc].
Defined.

(** Fed the tags 1, 3, 0, 2 and the end mark, the consumer of [keep] calls
    [consume_op] with the payloads of 0, 3, 2, 3.  Fed 2, 1, 0, it is left
    with the item tagged 2 in its buffer while [order] is 2; and so is the
    last stage of the OpenMP pipeline after 1, 2, 0: the search is not
    repeated until no buffered item has the expected tag. *)
Lemma reorder_buffer_fails :
  let pay := fun t => Some (Z.of_nat t + 10) in
  let val := fun t => Z.of_nat t + 10 in
  (exists c, feed pay 2 [Some 1; Some 3; Some 0; Some 2; None]%nat = CJoined c
             /\ consumed c = [10; 13; 12; 13])
  /\ (exists c, feed pay 2 [Some 2; Some 1; Some 0]%nat = CPop c
                /\ order c = 2 /\ item_buffer c = [(Some 12, 2)]
                /\ consumed c = [10; 11])
  /\ last_stage_steps val ([], 0, []) [1; 2; 0]%nat = ([(12, 2)], 2, [10; 11]).
Proof.
  intros pay val. split; [| split].
  - eexists. split; [vm_compute; reflexivity | reflexivity].
  - eexists. split; [vm_compute; reflexivity | by repeat split].
  - reflexivity.
Qed.

(** ** [keep] with one or two filter threads *)

Section KeepOrder.
Context {T : Type}.
Variable predicate_op : T -> bool.
Variable W : Z.
Variable input : list T.

(** The payload that reaches the consumer under the tag [t]. *)
Definition pay_of (t : nat) : option T :=
  match input !! t with
  | Some x => if predicate_op x then Some x else None
  | None => None
  end.

(** An item of [filtered_queue] seen as an arrival. *)
Definition arrival (it : item T) : option nat :=
  if is_end it then None else Some (Z.to_nat (snd it)).

Definition arrivals (l : list (item T)) : list (option nat) := arrival <$> l.

(** Filter thread [j] holds the element tagged [a]. *)
Definition holds (ws : list (task_state T)) (j a : nat) : Prop :=
  exists x, ws !! j = Some (WHold (Some x, Z.of_nat a)).

Lemma arrival_filtered (k : nat) x : arrival (filtered_item predicate_op k x) = Some k.
Proof.
  unfold arrival, filtered_item, is_end. cbn.
  destruct (predicate_op x); cbn.
  - by rewrite Nat2Z.id.
  - destruct (Z.eqb_spec (Z.of_nat k) (-1)); [lia |]. by rewrite Nat2Z.id.
Qed.

Lemma to_item_arrival it :
  filtered_ok predicate_op input it -> to_item pay_of (arrival it) = it.
Proof.
  intros [-> | (k & x & Hx & ->)]; [done |].
  rewrite arrival_filtered. cbn. unfold item_of, pay_of, filtered_item.
  by rewrite Hx.
Qed.

Lemma to_item_arrivals l :
  (forall it, it ∈ l -> filtered_ok predicate_op input it) ->
  to_item pay_of <$> arrivals l = l.
Proof.
  induction l as [|it l IH]; intros Hl; [done |].
  cbn. rewrite to_item_arrival by (apply Hl; by left).
  f_equal. apply IH. intros it' Hit'. apply Hl. by right.
Qed.

Lemma ends_arrivals l : ends (arrivals l) = count is_end l.
Proof.
  unfold ends, arrivals. induction l as [|it l IH]; [done |].
  cbn. rewrite IH. unfold arrival. by destruct (is_end it).
Qed.

Lemma omap_pay_filter :
  omap pay_of (seq 0 (length input))
  = filter (fun x => predicate_op x = true) input.
Proof.
  unfold pay_of.
  assert (H : forall (l before : list T),
            input = before ++ l ->
            omap (fun t => match input !! t with
                           | Some x => if predicate_op x then Some x else None
                           | None => None
                           end) (seq (length before) (length l))
            = filter (fun x => predicate_op x = true) l).
  { induction l as [|x l IH]; intros before Hin; [done |].
    cbn. rewrite Hin at 1. rewrite list_lookup_middle by done.
    specialize (IH (before ++ [x])).
    rewrite length_app, Nat.add_1_r in IH.
    rewrite IH by (by rewrite <- (assoc_L (++))).
    destruct (predicate_op x) eqn:E.
    - by rewrite decide_True.
    - rewrite decide_False; [done | congruence]. }
  apply (H input []). done.
Qed.

Lemma tags_snoc_item ks (k : nat) : tags (ks ++ [Some k]) = tags ks ++ [k].
Proof. by rewrite tags_app. Qed.

Lemma tags_snoc_end ks : tags (ks ++ [None]) = tags ks.
Proof. rewrite tags_app. apply app_nil_r. Qed.

Lemma near_sorted_snoc_end ks : near_sorted ks -> near_sorted (ks ++ [None]).
Proof. apply (near_sorted_ends ks 1). Qed.

Lemma near_sorted_snoc_item ks t :
  near_sorted ks ->
  (forall a b, (a < t)%nat -> (b < t)%nat ->
               a ∉ tags ks -> b ∉ tags ks -> a = b) ->
  near_sorted (ks ++ [Some t]).
Proof.
  intros H Ht pre t' post Heq.
  destruct post as [|k post _] using rev_ind.
  - apply app_inj_tail in Heq as [-> [= ->]]. apply Ht.
  - rewrite app_comm_cons, (assoc_L (++)) in Heq.
    apply app_inj_tail in Heq as [-> _]. by apply (H pre t' post).
Qed.

Record inv_order (s : state T) : Prop := {
  io_popped : forall a, (a < popped (generated_queue s))%nat ->
      (a < length input)%nat ->
      a ∈ tags (arrivals (pushed (filtered_queue s)))
      \/ exists j, holds (tasks s) j a;
  io_tags : forall a, a ∈ tags (arrivals (pushed (filtered_queue s))) ->
      (a < popped (generated_queue s))%nat /\ (a < length input)%nat;
  io_held : forall j a, holds (tasks s) j a ->
      a ∉ tags (arrivals (pushed (filtered_queue s)));
  io_once : forall j j' a, holds (tasks s) j a -> holds (tasks s) j' a -> j = j';
  io_nodup : NoDup (tags (arrivals (pushed (filtered_queue s))));
  io_ended : forall j w, tasks s !! j = Some w -> is_ended w = true ->
      (length input < popped (generated_queue s))%nat;
  io_consumer : consumer s
      = consumer_feed W (CPop consumer_init)
          (take (popped (filtered_queue s)) (pushed (filtered_queue s)));
  io_last : forallb is_joined (tasks s) = true -> tasks s <> [] ->
      exists l, pushed (filtered_queue s) = l ++ [(None, -1)];
  io_near : W <= 3 -> near_sorted (arrivals (pushed (filtered_queue s)))
}.

Lemma inv_order_init : inv_order (keep_init W input).
Proof.
  split; cbn; try done.
  - lia.
  - intros a Ha. by apply elem_of_nil in Ha.
  - intros j a [x Hx]. apply lookup_replicate in Hx as [? _]. done.
  - intros j j' a [x Hx]. apply lookup_replicate in Hx as [? _]. done.
  - constructor.
  - intros j w Hj Hw. apply lookup_replicate in Hj as [-> _]. done.
  - destruct (Z.to_nat (W - 1)); [done |]. cbn. done.
  - intros _ pre t post Heq. by destruct pre.
Qed.

Lemma holds_insert_ne ws i w j a :
  i <> j -> holds (<[i := w]> ws) j a <-> holds ws j a.
Proof. intros Hne. unfold holds. by rewrite list_lookup_insert_ne. Qed.

Lemma holds_insert_eq ws i w a :
  (i < length ws)%nat ->
  holds (<[i := w]> ws) i a <-> exists x, w = WHold (Some x, Z.of_nat a).
Proof.
  intros Hi. unfold holds. rewrite list_lookup_insert_eq by done.
  split; intros [x Hx]; exists x; congruence.
Qed.

Lemma holds_inj ws j a b : holds ws j a -> holds ws j b -> a = b.
Proof. intros [x Hx] [y Hy]. rewrite Hx in Hy. simplify_eq. lia. Qed.

Lemma holds_lt s j a :
  inv predicate_op W input s -> holds (tasks s) j a ->
  (a < popped (generated_queue s))%nat /\ (a < length input)%nat.
Proof.
  intros Hinv [x Hx].
  destruct (inv_hold _ _ _ _ Hinv j _ Hx) as (k & Hk & Hlog).
  pose proof (inv_generated _ _ _ _ _ _ Hinv Hlog) as Hshape.
  destruct (input !! k) as [y|] eqn:Ey; [| done].
  simplify_eq. apply lookup_lt_Some in Ey. done.
Qed.

(** What a filter thread pushes, by the kind of item it holds. *)
Lemma task_push_cases s i it :
  inv predicate_op W input s -> tasks s !! i = Some (WHold it) ->
  (exists (k : nat) x,
      (k < popped (generated_queue s))%nat /\ input !! k = Some x
      /\ it = (Some x, Z.of_nat k)
      /\ task_push predicate_op it = (filtered_item predicate_op k x, WPop))
  \/ (fst it = None /\ task_push predicate_op it = ((None, -1), WJoined)).
Proof.
  intros Hinv Hi.
  destruct (inv_hold _ _ _ _ Hinv i _ Hi) as (k & Hk & Hlog).
  pose proof (inv_generated _ _ _ _ _ _ Hinv Hlog) as Hshape.
  unfold task_push. destruct (input !! k) as [x|] eqn:Ex.
  - left. exists k, x. subst it. cbn. unfold filtered_item.
    by destruct (predicate_op x).
  - right. by rewrite Hshape.
Qed.

Lemma io_generator_step s s' :
  inv_order s -> generator_step W s = Some s' -> inv_order s'.
Proof.
  intros [] Hstep. unfold generator_step in Hstep.
  destruct (generator s) as [rest order | i |]; [| | done].
  - destruct (generate_op rest). simplify_eq. by split.
  - simplify_eq. by split.
Qed.

Lemma io_consumer_step s s' :
  inv_order s -> consumer_step W s = Some s' -> inv_order s'.
Proof.
  intros [] Hstep. unfold consumer_step in Hstep.
  destruct (consumer s) as [c|] eqn:Ec; [| done]. unfold pop in Hstep.
  destruct (pushed (filtered_queue s) !! popped (filtered_queue s))
    as [it|] eqn:Epop; [| done].
  simplify_eq. split; cbn; try done.
  rewrite (take_S_r _ _ _ Epop). unfold consumer_feed.
  rewrite foldl_app. cbn. unfold consumer_feed in io_consumer0.
  by rewrite <- io_consumer0.
Qed.

Lemma io_task_pop i s it q :
  inv predicate_op W input s -> inv_order s ->
  tasks s !! i = Some WPop -> pop (generated_queue s) = Some (it, q) ->
  inv_order {| generated_queue := q;
               filtered_queue := filtered_queue s;
               generator := generator s;
               tasks := <[i := WHold it]> (tasks s);
               consumer := consumer s |}.
Proof.
  intros Hinv [] Ei Hpop. unfold pop in Hpop.
  destruct (pushed (generated_queue s) !! popped (generated_queue s))
    as [it'|] eqn:Epop; [| done].
  simplify_eq. pose proof (inv_generated _ _ _ _ _ _ Hinv Epop) as Hshape.
  pose proof (lookup_lt_Some _ _ _ Ei) as Hlen.
  set (p := popped (generated_queue s)) in *.
  assert (Hnot : forall a, ~ holds (tasks s) i a).
  { intros a [x Hx]. congruence. }
  assert (Hnew : forall a, holds (<[i := WHold it]> (tasks s)) i a -> a = p).
  { intros a Ha. apply holds_insert_eq in Ha as [x Hx]; [| done].
    simplify_eq. destruct (input !! p); [| done]. simplify_eq. lia. }
  split; cbn; try done.
  - intros a Ha HaN. destruct (decide (a = p)) as [-> | Hne].
    + right. exists i. apply holds_insert_eq; [done |].
      destruct (input !! p) as [x|] eqn:Ex.
      * exists x. by subst.
      * apply lookup_ge_None in Ex. lia.
    + destruct (io_popped0 a) as [Hin | [j Hj]]; [lia | done | by left |].
      right. exists j. apply holds_insert_ne; [| done].
      intros ->. by eapply Hnot.
  - intros a Ha. destruct (io_tags0 a Ha). lia.
  - intros j a Hj. destruct (decide (i = j)) as [<- | Hne].
    + apply Hnew in Hj as ->. intros Hin. destruct (io_tags0 _ Hin). lia.
    + apply holds_insert_ne in Hj; [| done]. by eapply io_held0.
  - intros j j' a Hj Hj'.
    destruct (decide (i = j)) as [<- | Hne], (decide (i = j')) as [<- | Hne'];
      try done.
    + apply Hnew in Hj as ->. apply holds_insert_ne in Hj'; [| done].
      destruct (holds_lt _ _ _ Hinv Hj'). lia.
    + apply Hnew in Hj' as ->. apply holds_insert_ne in Hj; [| done].
      destruct (holds_lt _ _ _ Hinv Hj). lia.
    + apply holds_insert_ne in Hj; [| done].
      apply holds_insert_ne in Hj'; [| done]. by eapply io_once0.
  - intros j w Hj Hw. destruct (decide (i = j)) as [<- | Hne].
    + rewrite list_lookup_insert_eq in Hj by done. simplify_eq. cbn in Hw.
      destruct (input !! p) as [x|] eqn:Ex.
      * by subst.
      * apply lookup_ge_None in Ex. lia.
    + rewrite list_lookup_insert_ne in Hj by done.
      pose proof (io_ended0 j w Hj Hw). lia.
  - intros Hall. exfalso.
    assert (Hi : <[i := WHold it]> (tasks s) !! i = Some (WHold it))
      by (by apply list_lookup_insert_eq).
    by pose proof (forallb_lookup _ _ _ _ Hall Hi).
Qed.

Lemma io_task_push i s it out next :
  inv predicate_op W input s -> inv_order s ->
  tasks s !! i = Some (WHold it) -> task_push predicate_op it = (out, next) ->
  inv_order {| generated_queue := generated_queue s;
               filtered_queue := push (filtered_queue s) out;
               generator := generator s;
               tasks := <[i := next]> (tasks s);
               consumer := consumer s |}.
Proof.
  intros Hinv [] Ei Hpush.
  pose proof (lookup_lt_Some _ _ _ Ei) as Hlen.
  assert (Harr : arrivals (pushed (filtered_queue s) ++ [out])
                 = arrivals (pushed (filtered_queue s)) ++ [arrival out]).
  { unfold arrivals. by rewrite fmap_app. }
  assert (Hcons : consumer s
                  = consumer_feed W (CPop consumer_init)
                      (take (popped (filtered_queue s))
                            (pushed (filtered_queue s) ++ [out]))).
  { rewrite take_app_le; [done |]. apply (inv_fpop _ _ _ _ Hinv). }
  destruct (task_push_cases s i it Hinv Ei)
    as [(k & x & Hk & Hx & -> & Hp) | (Hnone & Hp)];
    rewrite Hp in Hpush; simplify_eq.
  - (* an element of the input *)
    assert (Hi : holds (tasks s) i k) by (by exists x).
    assert (Hnot : forall a, ~ holds (<[i := WPop]> (tasks s)) i a).
    { intros a Ha. apply holds_insert_eq in Ha as [y Hy]; done. }
    assert (Hold : forall j a, holds (<[i := WPop]> (tasks s)) j a ->
                     i <> j /\ holds (tasks s) j a).
    { intros j a Hj. destruct (decide (i = j)) as [<- | Hne].
      - by apply Hnot in Hj.
      - split; [done |]. by apply holds_insert_ne in Hj. }
    split; cbn [generated_queue filtered_queue generator tasks consumer
                push pushed popped];
      rewrite ?Harr, ?arrival_filtered, ?tags_snoc_item; try done.
    + intros a Ha HaN.
      destruct (io_popped0 a Ha HaN) as [Hin | [j Hj]].
      * left. apply elem_of_app. by left.
      * destruct (decide (i = j)) as [<- | Hne].
        -- left. apply elem_of_app. right.
           rewrite (holds_inj _ _ _ _ Hj Hi). by left.
        -- right. exists j. by apply holds_insert_ne.
    + intros a Ha. apply elem_of_app in Ha as [Ha | Ha]; [by apply io_tags0 |].
      apply list_elem_of_singleton in Ha as ->.
      split; [done | by eapply lookup_lt_Some].
    + intros j a Hj. apply Hold in Hj as [Hne Hj].
      intros Hin. apply elem_of_app in Hin as [Hin | Hin].
      * by eapply io_held0.
      * apply list_elem_of_singleton in Hin as ->.
        apply Hne. by eapply io_once0.
    + intros j j' a Hj Hj'. apply Hold in Hj as [_ Hj].
      apply Hold in Hj' as [_ Hj']. by eapply io_once0.
    + apply NoDup_app. split; [done |]. split; [| apply NoDup_singleton].
      intros a Ha Hin. apply list_elem_of_singleton in Hin as ->.
      by eapply io_held0.
    + intros j w Hj Hw. destruct (decide (i = j)) as [<- | Hne].
      * rewrite list_lookup_insert_eq in Hj by done. by simplify_eq.
      * rewrite list_lookup_insert_ne in Hj by done. by eapply io_ended0.
    + intros Hall. exfalso.
      assert (Hi' : <[i := WPop]> (tasks s) !! i = Some WPop)
        by (by apply list_lookup_insert_eq).
      by pose proof (forallb_lookup _ _ _ _ Hall Hi').
    + intros HW. apply near_sorted_snoc_item; [by apply io_near0 |].
      intros a b Ha Hb Hna Hnb.
      pose proof (lookup_lt_Some _ _ _ Hx) as HkN.
      destruct (io_popped0 a) as [? | [ja Hja]]; [lia | lia | done |].
      destruct (io_popped0 b) as [? | [jb Hjb]]; [lia | lia | done |].
      assert (ja <> i).
      { intros ->. pose proof (holds_inj _ _ _ _ Hja Hi). lia. }
      assert (jb <> i).
      { intros ->. pose proof (holds_inj _ _ _ _ Hjb Hi). lia. }
      assert (ja = jb) as ->.
      { destruct Hja as [? Hja], Hjb as [? Hjb].
        apply lookup_lt_Some in Hja, Hjb.
        rewrite (inv_tasks _ _ _ _ Hinv) in Hja, Hjb, Hlen. lia. }
      by eapply holds_inj.
  - (* the empty optional *)
    assert (Hold : forall j a, holds (<[i := WJoined]> (tasks s)) j a ->
                     holds (tasks s) j a).
    { intros j a Hj. destruct (decide (i = j)) as [<- | Hne].
      - apply holds_insert_eq in Hj as [y Hy]; done.
      - by apply holds_insert_ne in Hj. }
    assert (Hnot : forall a, ~ holds (tasks s) i a).
    { intros a [x Hx]. rewrite Ei in Hx. by simplify_eq. }
    split; cbn [generated_queue filtered_queue generator tasks consumer
                push pushed popped];
      rewrite ?Harr; change (arrival (None, -1)) with (@None nat);
      rewrite ?tags_snoc_end; try done.
    + intros a Ha HaN.
      destruct (io_popped0 a Ha HaN) as [Hin | [j Hj]]; [by left |].
      right. exists j. apply holds_insert_ne; [| done].
      intros ->. by eapply Hnot.
    + intros j a Hj. by eapply io_held0, Hold.
    + intros j j' a Hj Hj'. eapply io_once0; by apply Hold.
    + intros j w Hj Hw. destruct (decide (i = j)) as [<- | Hne].
      * eapply (io_ended0 i); [done |]. cbn. by rewrite Hnone.
      * rewrite list_lookup_insert_ne in Hj by done. by eapply io_ended0.
    + intros _ _. by eexists.
    + intros HW. by apply near_sorted_snoc_end, io_near0.
Qed.

Lemma io_step th s s' :
  inv predicate_op W input s -> inv_order s ->
  step predicate_op W th s = Some s' -> inv_order s'.
Proof.
  intros Hinv Hio. destruct th as [| i |]; cbn.
  - by apply io_generator_step.
  - unfold task_step.
    destruct (tasks s !! i) as [[| it |]|] eqn:Ei; try done.
    + destruct (pop (generated_queue s)) as [[it q]|] eqn:Epop; [| done].
      intros ?; simplify_eq. by eapply io_task_pop.
    + destruct (task_push predicate_op it) as [out next] eqn:Epush.
      intros ?; simplify_eq. by eapply io_task_push.
  - by apply io_consumer_step.
Qed.

Lemma io_reachable schedule :
  inv_order (run predicate_op W schedule (keep_init W input)).
Proof.
  assert (H : forall s, inv predicate_op W input s -> inv_order s ->
            inv_order (run predicate_op W schedule s)).
  { induction schedule as [|th schedule IH]; intros s Hinv Hio; [done |].
    cbn. destruct (step predicate_op W th s) as [s'|] eqn:E; cbn.
    - apply IH; [by eapply inv_step | by eapply io_step].
    - by apply IH. }
  apply H; [apply inv_init | apply inv_order_init].
Qed.

End KeepOrder.

Section KeepOrdered.
Context {T : Type}.
Variable predicate_op : T -> bool.
Variable W : Z.
Variable input : list T.

Lemma feed_prefix_pop (pay : nat -> option T) ks1 ks2 :
  near_sorted (ks1 ++ ks2) -> NoDup (tags (ks1 ++ ks2)) ->
  Z.of_nat (ends (ks1 ++ ks2)) < W - 1 ->
  exists c, feed pay W ks1 = CPop c.
Proof.
  intros Hnear Hdup He. rewrite tags_app in Hdup. rewrite ends_app in He.
  destruct (feed_pop pay W ks1) as (c & Hc & _).
  - by eapply near_sorted_prefix.
  - by apply NoDup_app in Hdup as [? _].
  - lia.
  - by exists c.
Qed.

(** With one or two filter threads, whenever [keep] has returned, the
    values handed to [consume_op] are the input elements that satisfy the
    predicate, in the order of the input. *)
Lemma keep_ordered (schedule : list thread) :
  2 <= W <= 3 ->
  let s := run predicate_op W schedule (keep_init W input) in
  joined s = true ->
  delivered s = filter (fun x => predicate_op x = true) input.
Proof.
  intros HW s Hj.
  pose proof (inv_reachable predicate_op W input schedule) as Hinv.
  pose proof (io_reachable predicate_op W input schedule) as Hio.
  fold s in Hinv, Hio. unfold joined in Hj.
  destruct (generator s) eqn:Eg; try done.
  destruct (consumer s) as [|c0] eqn:Ec; [done |].
  assert (Hall : forallb is_joined (tasks s) = true) by done. clear Hj.
  pose proof (inv_tasks _ _ _ _ Hinv) as Hlen.
  destruct (io_last _ _ _ Hio Hall) as [l Hl].
  { intros Hnil. rewrite Hnil in Hlen. cbn in Hlen. lia. }
  set (pay := pay_of predicate_op input).
  assert (Hfilt : forall it, it ∈ pushed (filtered_queue s) ->
                    filtered_ok predicate_op input it)
    by apply (inv_filtered _ _ _ _ Hinv).
  assert (Hks : arrivals (pushed (filtered_queue s)) = arrivals l ++ [None]).
  { rewrite Hl. unfold arrivals. by rewrite fmap_app. }
  assert (Hends : Z.of_nat (ends (arrivals l)) + 1 = W - 1).
  { pose proof (ends_arrivals (pushed (filtered_queue s))) as He.
    rewrite Hks, ends_app, (inv_ends _ _ _ _ Hinv),
      (forallb_true_count _ _ Hall), Hlen in He. cbn in He. lia. }
  assert (Hnear : near_sorted (arrivals l)).
  { eapply near_sorted_prefix. rewrite <- Hks. apply (io_near _ _ _ Hio). lia. }
  assert (Hdup : NoDup (tags (arrivals l))).
  { rewrite <- (tags_snoc_end (arrivals l)), <- Hks. apply (io_nodup _ _ _ Hio). }
  destruct (feed_join pay W (arrivals l) Hnear Hdup Hends) as (c & Hfeed & Hok).
  rewrite <- Hks in Hfeed, Hok.
  assert (Hpop : popped (filtered_queue s) = length (pushed (filtered_queue s))).
  { pose proof (inv_fpop _ _ _ _ Hinv) as Hle.
    destruct (decide (popped (filtered_queue s)
                      = length (pushed (filtered_queue s)))) as [| Hne]; [done |].
    exfalso. set (p := popped (filtered_queue s)) in *.
    assert (Hp : (p <= length l)%nat).
    { rewrite Hl, length_app in Hle, Hne. cbn in Hle, Hne. lia. }
    destruct (feed_prefix_pop pay (arrivals (take p l)) (arrivals (drop p l)))
      as [c' Hc'].
    - unfold arrivals. by rewrite <- fmap_app, take_drop.
    - unfold arrivals. by rewrite <- fmap_app, take_drop.
    - unfold arrivals. rewrite <- fmap_app, take_drop. fold (arrivals l). lia.
    - pose proof (io_consumer _ _ _ Hio) as Hcons. fold p in Hcons.
      rewrite Hl, take_app_le in Hcons by done.
      unfold feed, pay in Hc'. rewrite to_item_arrivals in Hc'.
      + unfold item in *. congruence.
      + intros it Hit. apply Hfilt. rewrite Hl. apply elem_of_app. left.
        by eapply subseteq_take. }
  assert (Hcons : consumer s = feed pay W (arrivals (pushed (filtered_queue s)))).
  { rewrite (io_consumer _ _ _ Hio), Hpop, take_ge by done.
    unfold feed, pay. by rewrite to_item_arrivals. }
  assert (Hperm : tags (arrivals (pushed (filtered_queue s)))
                  ≡ₚ seq 0 (length input)).
  { apply NoDup_Permutation; [apply (io_nodup _ _ _ Hio) | apply NoDup_seq |].
    intros a. rewrite elem_of_seq. split.
    - intros Ha. destruct (io_tags _ _ _ Hio a Ha). lia.
    - intros Ha.
      assert (H0 : exists w, tasks s !! 0%nat = Some w).
      { apply lookup_lt_is_Some. lia. }
      destruct H0 as [w Hw].
      pose proof (forallb_lookup _ _ _ _ Hall Hw) as Hjw.
      destruct w; try done.
      pose proof (io_ended _ _ _ Hio 0%nat WJoined Hw eq_refl) as Hgt.
      destruct (io_popped _ _ _ Hio a) as [Hin | [j [x Hx]]]; [lia | lia | done |].
      by pose proof (forallb_lookup _ _ _ _ Hall Hx). }
  destruct (feed_ok_all pay _ c (length input) Hok Hperm) as (_ & _ & Hc).
  unfold delivered. rewrite Hcons, Hfeed. cbn.
  rewrite Hc. apply omap_pay_filter.
Qed.

End KeepOrdered.

(** With one or two filter threads every run of [keep] can be continued
    until [keep] returns, and then [consume_op] has been called with the
    input elements that satisfy the predicate, in the order of the input. *)
Theorem keep_two_or_three {T : Type} (predicate_op : T -> bool) (W : Z)
    (input : list T) (schedule : list thread) :
  2 <= W <= 3 ->
  exists schedule',
    let s := run predicate_op W (schedule ++ schedule') (keep_init W input) in
    joined s = true
    /\ delivered s = filter (fun x => predicate_op x = true) input.
Proof.
  intros HW.
  destruct (keep_returns predicate_op W input schedule) as [schedule' Hj]; [lia |].
  exists schedule'. split; [done |]. by apply keep_ordered.
Qed.

(** ** [keep] and [discard]: what a caller can rely on *)

(** X1. With concurrency degree 2 or 3 (one or two filter threads) [keep]
    is a filter, whatever the schedule: whenever it has returned,
    [consume_op] has been called with exactly the input elements that
    satisfy the predicate, in the order of the input; and every run can be
    continued until it returns. *)
Theorem keep_small_degree {T : Type} (ex : Policy.parallel_execution)
    (input : list T) (predicate_op : T -> bool) (schedule : list thread) :
  2 <= Policy.concurrency_degree ex <= 3 ->
  (joined (keep ex input predicate_op schedule) = true ->
   delivered (keep ex input predicate_op schedule)
   = filter (fun x => predicate_op x = true) input)
  /\ exists schedule',
       joined (keep ex input predicate_op (schedule ++ schedule')) = true.
Proof.
  intros HW. split.
  - intros Hj. by apply keep_ordered.
  - apply keep_returns. lia.
Qed.

Lemma keep_small_degree_witness :
  let schedule := replicate 7 Generator
                  ++ [Task 0; Task 1; Task 1; Task 0; Task 0; Task 1]
                  ++ [Consumer; Task 1; Task 0; Task 0; Task 1; Task 1; Task 0]
                  ++ replicate 6 Consumer in
  delivered (keep (Policy.make 3 true) [1; 2; 3; 4] Z.even schedule)
  = filter (fun x => Z.even x = true) [1; 2; 3; 4].
Proof.
  intros schedule.
  apply (proj1 (keep_small_degree (Policy.make 3 true) [1; 2; 3; 4] Z.even
                  schedule ltac:(cbn; lia))).
  reflexivity.
Defined.

(** X2. [keep] with a concurrency degree of at least 2 cannot run for ever
    and cannot get stuck: no run has more than
    [4 * (length input + concurrency_degree)] steps of its threads, and a
    state in which no thread can take a step is one in which all threads
    are joined. *)
Theorem keep_terminates {T : Type} (ex : Policy.parallel_execution)
    (input : list T) (predicate_op : T -> bool) (schedule : list thread) :
  2 <= Policy.concurrency_degree ex ->
  let W := Policy.concurrency_degree ex in
  (moves predicate_op W schedule (keep_init W input)
   <= 4 * (length input + Z.to_nat W))%nat
  /\ ((forall th, step predicate_op W th (keep ex input predicate_op schedule) = None) ->
      joined (keep ex input predicate_op schedule) = true).
Proof.
  intros HW W. split.
  - pose proof (moves_bounded predicate_op W input schedule (keep_init W input)
                  (inv_init predicate_op W input)) as Hb.
    assert (Hinit : steps_left W input (keep_init W input)
                    = (4 * (length input + Z.to_nat W))%nat).
    { unfold steps_left. rewrite generator_log_length. cbn.
      rewrite count_replicate. cbn. fold W. lia. }
    lia.
  - intros Hstuck. by apply (no_deadlock predicate_op W input schedule).
Qed.

Lemma keep_terminates_witness :
  let input : list Z := [1; 2; 3; 4] in
  (moves Z.even 3 (replicate 30 Consumer ++ replicate 30 Generator)
     (keep_init 3 input)
   <= 28)%nat.
Proof.
  apply (proj1 (keep_terminates (Policy.make 3 true) [1; 2; 3; 4] Z.even
                  (replicate 30 Consumer ++ replicate 30 Generator)
                  ltac:(cbn; lia))).
Defined.

(** X3. [keep] can return if and only if the concurrency degree is at
    least 2: with degree 1, which leaves no filter thread, no run of
    [keep] ever returns or calls [consume_op], whatever the input. *)
Theorem keep_returns_iff {T : Type} (ex : Policy.parallel_execution)
    (input : list T) (predicate_op : T -> bool) :
  ((exists schedule, joined (keep ex input predicate_op schedule) = true)
   <-> 2 <= Policy.concurrency_degree ex)
  /\ (Policy.concurrency_degree ex = 1 ->
      forall schedule,
        joined (keep ex input predicate_op schedule) = false
        /\ delivered (keep ex input predicate_op schedule) = []).
Proof.
  assert (Hidle : Policy.concurrency_degree ex <= 1 ->
            forall schedule,
              joined (keep ex input predicate_op schedule) = false
              /\ delivered (keep ex input predicate_op schedule) = []).
  { intros HW schedule.
    destruct (idle_run predicate_op (Policy.concurrency_degree ex) input
                schedule HW) as (_ & Hc & _).
    unfold keep, joined, delivered. rewrite Hc. split; [| done].
    by destruct (generator _). }
  split; [split |].
  - intros [schedule Hj].
    destruct (Z.le_gt_cases 2 (Policy.concurrency_degree ex)) as [| Hlt]; [done |].
    destruct (Hidle ltac:(lia) schedule) as [Hn _]. congruence.
  - intros HW.
    destruct (keep_returns predicate_op (Policy.concurrency_degree ex) input []
                HW) as [schedule Hj].
    by exists schedule.
  - intros HW. apply Hidle. lia.
Qed.

(** X4. With concurrency degree 2 or 3 [discard] delivers exactly the
    input elements that fail the predicate, in the order of the input,
    whenever it has returned; and every run can be continued until it
    returns. *)
Theorem discard_small_degree {T : Type} (ex : Policy.parallel_execution)
    (input : list T) (predicate_op : T -> bool) (schedule : list thread) :
  2 <= Policy.concurrency_degree ex <= 3 ->
  (joined (discard ex input predicate_op schedule) = true ->
   delivered (discard ex input predicate_op schedule)
   = filter (fun x => predicate_op x = false) input)
  /\ exists schedule',
       joined (discard ex input predicate_op (schedule ++ schedule')) = true.
Proof.
  intros HW. split.
  - intros Hj. unfold discard, keep in *.
    rewrite (keep_ordered _ _ input schedule HW Hj).
    apply list_filter_iff. intros x. by rewrite negb_true_iff.
  - apply keep_returns. lia.
Qed.

Lemma discard_small_degree_witness :
  let schedule := replicate 7 Generator
                  ++ [Task 0; Task 1; Task 1; Task 0; Task 0; Task 1]
                  ++ [Consumer; Task 1; Task 0; Task 0; Task 1; Task 1; Task 0]
                  ++ replicate 6 Consumer in
  delivered (discard (Policy.make 3 true) [1; 2; 3; 4] Z.even schedule)
  = filter (fun x => Z.even x = false) [1; 2; 3; 4].
Proof.
  intros schedule.
  apply (proj1 (discard_small_degree (Policy.make 3 true) [1; 2; 3; 4] Z.even
                  schedule ltac:(cbn; lia))).
  reflexivity.
Defined.

(** ** The other helpers of [iterator.h] *)

Section IteratorMore.
Import Iterator.
Context {A B : Type}.

Lemma mapM_cons {X Y} (g : X -> option Y) x l :
  mapM g (x :: l) = y ← g x; k ← mapM g l; Some (y :: k).
Proof. reflexivity. Qed.

(** The index sequence visits the elements of the tuple in order. *)
Lemma mapM_index_sequence {X Y} (g : X -> option Y) (before todo : list X) :
  mapM (fun I => (before ++ todo) !! I ≫= g) (seq (length before) (length todo))
  = mapM g todo.
Proof.
  revert before. induction todo as [|x todo IH]; intros before; [done |].
  cbn [length seq]. rewrite !mapM_cons, list_lookup_middle by done.
  cbn [mbind option_bind]. destruct (g x) as [y|]; [| done]. cbn.
  specialize (IH (before ++ [x])).
  rewrite length_app, Nat.add_1_r, <- (assoc_L (++)) in IH. cbn [app] in IH.
  by rewrite IH.
Qed.

Lemma mapM_index_sequence_0 {X Y} (g : X -> option Y) (t : list X) :
  mapM (fun I => t !! I ≫= g) (seq 0 (length t)) = mapM g t.
Proof. apply (mapM_index_sequence g [] t). Qed.

Lemma mapM_fmap {X Y Z'} (g : Y -> option Z') (h : X -> Y) (l : list X) :
  mapM g (h <$> l) = mapM (fun x => g (h x)) l.
Proof.
  induction l as [|x l IH]; [done |].
  rewrite fmap_cons, !mapM_cons, IH. done.
Qed.

Lemma mapM_total {X Y} (h : X -> Y) (l : list X) :
  mapM (fun x => Some (h x)) l = Some (h <$> l).
Proof.
  induction l as [|x l IH]; [done |].
  rewrite mapM_cons, IH. done.
Qed.

Lemma expand_increment_seq (before todo : list (iterator A)) :
  expand_increment (seq (length before) (length todo)) (before ++ todo)
  = Some (todo, before ++ (increment <$> todo)).
Proof.
  revert before. induction todo as [|it todo IH]; intros before; [done |].
  cbn [length seq expand_increment]. unfold bind at 1, post_increment.
  rewrite list_lookup_middle by done.
  rewrite insert_app_r_alt by lia.
  replace (length before - length before)%nat with 0%nat by lia.
  cbn [insert list_insert]. unfold bind.
  specialize (IH (before ++ [increment it])).
  rewrite length_app, Nat.add_1_r, <- !(assoc_L (++)) in IH.
  cbn [app] in IH. rewrite IH. reflexivity.
Qed.

(** The pack expansion of [apply_deref_increment] on any tuple: it fails
    as soon as one iterator cannot be dereferenced. *)
Lemma expand_any (before todo : list (iterator A)) :
  expand (seq (length before) (length todo)) (before ++ todo)
  = (fun vals => (vals, before ++ (increment <$> todo))) <$> mapM deref todo.
Proof.
  revert before. induction todo as [|it todo IH]; intros before; [done |].
  cbn [length seq expand]. unfold bind at 1, deref_post_increment.
  rewrite list_lookup_middle by done. rewrite mapM_cons.
  destruct (deref it) as [x|]; [| done]. cbn [mbind option_bind].
  rewrite insert_app_r_alt by lia.
  replace (length before - length before)%nat with 0%nat by lia.
  cbn [insert list_insert]. unfold bind.
  specialize (IH (before ++ [increment it])).
  rewrite length_app, Nat.add_1_r, <- !(assoc_L (++)) in IH.
  cbn [app] in IH. rewrite IH.
  by destruct (mapM deref todo).
Qed.

Lemma apply_deref_increment_any (f : list A -> B) (t : list (iterator A)) :
  apply_deref_increment f t
  = (fun vals => (f vals, increment <$> t)) <$> mapM deref t.
Proof.
  unfold apply_deref_increment, apply_deref_increment_impl, bind.
  pose proof (expand_any [] t) as H. cbn [length app] in H. rewrite H.
  by destruct (mapM deref t).
Qed.

Lemma next_advance (it : iterator A) (delta : nat) :
  next it (Z.of_nat delta) = Some (advance delta it).
Proof.
  unfold next, advance. destruct (Z.leb_spec 0 (Z.of_nat (pos it) + Z.of_nat delta));
    [| lia].
  do 2 f_equal. lia.
Qed.

Lemma iterators_next_mapM (t : list (iterator A)) (n : Z) :
  iterators_next t n = mapM (fun it => next it n) t.
Proof. apply mapM_index_sequence_0. Qed.

Lemma next_next (it it' : iterator A) (n m : Z) :
  next it n = Some it' -> next it' m = next it (n + m).
Proof.
  unfold next. destruct (Z.leb_spec 0 (Z.of_nat (pos it) + n)); [| done].
  intros [= <-]. cbn [pos base].
  rewrite Z2Nat.id by done.
  replace (Z.of_nat (pos it) + (n + m)) with (Z.of_nat (pos it) + n + m) by lia.
  done.
Qed.

Lemma apply_increment_eq (f : list (iterator A) -> B)
    (iterators : list (iterator A)) :
  apply_increment f iterators = Some (f iterators, increment <$> iterators).
Proof.
  unfold apply_increment, apply_increment_impl, bind.
  pose proof (expand_increment_seq [] iterators) as H.
  cbn [length app] in H. by rewrite H.
Qed.

(** X5. For iterators that are all before the end of their sequences,
    [apply_increment(f, iterators)] calls [f] with the iterators as they
    were before the call, each of which refers to an element, and leaves
    every iterator of the tuple advanced by one position, none of them
    past the end of its sequence. *)
Theorem apply_increment_spec (f : list (iterator A) -> B)
    (iterators : list (iterator A)) :
  Forall (fun it => (pos it < length (base it))%nat) iterators ->
  apply_increment f iterators = Some (f iterators, increment <$> iterators)
  /\ Forall (fun it => is_Some (deref it)) iterators
  /\ Forall (fun it => (pos it <= length (base it))%nat) (increment <$> iterators)
  /\ (forall i it, iterators !! i = Some it ->
        (increment <$> iterators) !! i
        = Some {| base := base it; pos := S (pos it) |}).
Proof.
  intros Hin. split; [apply apply_increment_eq |]. split; [| split].
  - eapply Forall_impl; [exact Hin |]. intros it Hit.
    by apply lookup_lt_is_Some.
  - apply Forall_fmap. eapply Forall_impl; [exact Hin |]. intros it Hit.
    cbn in *. lia.
  - intros i it Hi. by rewrite list_lookup_fmap, Hi.
Qed.

(** X6. [apply_iterators_indexed(f, t, i)] is [f] applied to the elements
    [i] positions after the iterators of [t]: it gives what
    [apply_deref_increment] gives on the tuple [iterators_next(t, i)], and
    is undefined exactly when that is. *)
Theorem apply_iterators_indexed_next (f : list A -> B)
    (t : list (iterator A)) (i : nat) :
  apply_iterators_indexed f t i
  = f <$> mapM (fun it => base it !! (pos it + i)%nat) t
  /\ apply_iterators_indexed f t i
     = iterators_next t (Z.of_nat i)
       ≫= fun t' => fst <$> apply_deref_increment f t'.
Proof.
  assert (H1 : apply_iterators_indexed f t i
               = f <$> mapM (fun it => base it !! (pos it + i)%nat) t).
  { unfold apply_iterators_indexed, apply_iterators_indexed_impl.
    by rewrite mapM_index_sequence_0. }
  split; [done |]. rewrite H1, iterators_next_mapM.
  rewrite (mapM_ext _ (fun it => Some (advance i it)))
    by (intros it; apply next_advance).
  rewrite mapM_total. cbn [mbind option_bind].
  rewrite apply_deref_increment_any, mapM_fmap.
  unfold deref, advance. cbn [base pos].
  by destruct (mapM _ t).
Qed.

(** X7. [iterators_next] composes additively: moving the tuple by [n] and
    then by [m] is moving it by [n + m]; moving by 0 gives the tuple
    back; and the result has an iterator for every iterator of [t]. *)
Theorem iterators_next_add (t t' : list (iterator A)) (n m : Z) :
  iterators_next t n = Some t' ->
  iterators_next t' m = iterators_next t (n + m)
  /\ length t' = length t
  /\ iterators_next t' (- n) = Some t.
Proof.
  rewrite !iterators_next_mapM. intros Hn.
  assert (Hadd : forall k, mapM (fun it => next it k) t'
                           = mapM (fun it => next it (n + k)) t).
  { intros k. apply mapM_Some in Hn.
    induction Hn as [|it it' t t' Hit _ IH]; [done |].
    by rewrite !mapM_cons, IH, (next_next _ _ _ _ Hit). }
  split; [apply Hadd |]. split.
  - symmetry. by eapply length_mapM.
  - rewrite Hadd, Z.add_opp_diag_r.
    rewrite (mapM_ext _ (fun it => Some (advance 0 it)))
      by (intros it; apply (next_advance it 0)).
    rewrite mapM_total. f_equal.
    rewrite <- (list_fmap_id t) at 2. apply list_fmap_ext.
    intros _ [b p] _. unfold advance. cbn. f_equal. lia.
Qed.

(** X8. [advance_iterators(delta, in...)] moves every iterator by [delta]
    positions, as [iterators_next] does; advancing by [a] and then by [b]
    is advancing by [a + b]; [advance_iterators(in...)] is the advance by
    one, [k] calls of it are the advance by [k], and it leaves the
    iterators as a call of [apply_increment] does. *)
Theorem advance_iterators_spec (ins : list (iterator A)) (a b k : nat)
    (f : list (iterator A) -> B) :
  iterators_next ins (Z.of_nat a) = Some (advance_iterators_by a ins)
  /\ advance_iterators_by b (advance_iterators_by a ins)
     = advance_iterators_by (a + b) ins
  /\ advance_iterators ins = advance_iterators_by 1 ins
  /\ Nat.iter k advance_iterators ins = advance_iterators_by k ins
  /\ snd <$> apply_increment f ins = Some (advance_iterators ins)
  /\ (forall i it, ins !! i = Some it ->
        advance_iterators_by a ins !! i
        = Some {| base := base it; pos := (pos it + a)%nat |}).
Proof.
  assert (Hadd : forall a b (l : list (iterator A)),
            advance_iterators_by b (advance_iterators_by a l)
            = advance_iterators_by (a + b) l).
  { intros a' b' l. unfold advance_iterators_by. rewrite <- list_fmap_compose.
    apply list_fmap_ext. intros _ [bs p] _. unfold advance. cbn. f_equal. lia. }
  assert (H1 : forall l : list (iterator A),
            advance_iterators l = advance_iterators_by 1 l).
  { intros l. unfold advance_iterators, advance_iterators_by.
    apply list_fmap_ext. intros _ [bs p] _. unfold advance, increment. cbn.
    f_equal. lia. }
  split; [| split; [| split; [| split; [| split]]]].
  - rewrite iterators_next_mapM.
    rewrite (mapM_ext _ (fun it => Some (advance a it)))
      by (intros it; apply next_advance).
    apply mapM_total.
  - apply Hadd.
  - apply H1.
  - induction k as [|k IH]; [| rewrite Nat.iter_succ].
    + cbn. unfold advance_iterators_by. rewrite <- (list_fmap_id ins) at 1.
      apply list_fmap_ext. intros _ [bs p] _. unfold advance. cbn. f_equal. lia.
    + rewrite IH, H1, Hadd. f_equal. lia.
  - by rewrite apply_increment_eq.
  - intros i it Hi. unfold advance_iterators_by.
    by rewrite list_lookup_fmap, Hi.
Qed.

End IteratorMore.

Lemma apply_increment_spec_witness :
  Iterator.apply_increment (fun its => Iterator.pos <$> its)
    [ {| Iterator.base := [1; 2; 3]; Iterator.pos := 0 |};
      {| Iterator.base := [10; 20]; Iterator.pos := 1 |} ]
  = Some ([0; 1]%nat,
          [ {| Iterator.base := [1; 2; 3]; Iterator.pos := 1 |};
            {| Iterator.base := [10; 20]; Iterator.pos := 2 |} ]).
Proof.
  refine (proj1 (apply_increment_spec _ _ _)).
  repeat constructor.
Defined.

Lemma iterators_next_add_witness :
  let t := [ {| Iterator.base := [1; 2; 3]; Iterator.pos := 2 |};
             {| Iterator.base := [10; 20]; Iterator.pos := 1 |} ] in
  let t' := [ {| Iterator.base := [1; 2; 3]; Iterator.pos := 1 |};
              {| Iterator.base := [10; 20]; Iterator.pos := 0 |} ] in
  Iterator.iterators_next t' 2 = Iterator.iterators_next t (-1 + 2).
Proof.
  intros t t'.
  apply (proj1 (iterators_next_add t t' (-1) 2 eq_refl)).
Defined.

(** ** [parallel_execution_ff::map] and [map_reduce] *)

Section FFMapFacts.
Import FFMap.
Context {A B : Type}.

Section Bodies.
Variable firsts : list (Iterator.iterator A).
Variable first_out : nat.
Variable transform_op : list A -> B.

Lemma map_body_length delta (out : list B) :
  length (map_body firsts first_out transform_op delta out) = length out.
Proof.
  unfold map_body. destruct (Iterator.apply_iterators_indexed _ _ _); [| done].
  apply length_insert.
Qed.

(** What a position of the output holds after the calls of [order]. *)
Lemma parallel_for_lookup order (out : list B) (p : nat) :
  (forall i, i ∈ order ->
     (first_out + i < length out)%nat
     /\ is_Some (Iterator.apply_iterators_indexed transform_op firsts i)) ->
  parallel_for order (map_body firsts first_out transform_op) out !! p
  = if decide ((first_out <= p)%nat /\ (p - first_out)%nat ∈ order)
    then Iterator.apply_iterators_indexed transform_op firsts (p - first_out)
    else out !! p.
Proof.
  revert out. induction order as [|i order IH]; intros out Hok.
  - cbn. destruct (decide _) as [[_ Hin] | _]; [| done].
    by apply elem_of_nil in Hin.
  - cbn [parallel_for foldl]. unfold parallel_for in IH. rewrite IH.
    2:{ intros j Hj. rewrite map_body_length. apply Hok. by right. }
    destruct (Hok i) as [Hi [v Hv]]; [by left |].
    unfold map_body. rewrite Hv.
    destruct (decide ((first_out <= p)%nat /\ (p - first_out)%nat ∈ order))
      as [[Hp Hin] | Hnin].
    + rewrite decide_True; [done |]. split; [done | by right].
    + destruct (decide (p = (first_out + i)%nat)) as [-> | Hne].
      * rewrite list_lookup_insert_eq by done.
        replace (first_out + i - first_out)%nat with i by lia.
        rewrite decide_True; [done |]. split; [lia | by left].
      * rewrite list_lookup_insert_ne by done.
        rewrite decide_False; [done |].
        intros [Hp Hin]. apply elem_of_cons in Hin as [Heq | Hin]; [lia |].
        apply Hnin. by split.
Qed.

End Bodies.

(** The output of [map], in closed form. *)
Lemma ff_map_eq (order : list nat) (firsts : list (Iterator.iterator A))
    (out : list B) (first_out sequence_size : nat)
    (transform_op : list A -> B) (vs : list B) :
  covers order sequence_size ->
  (first_out + sequence_size <= length out)%nat ->
  mapM (Iterator.apply_iterators_indexed transform_op firsts)
       (seq 0 sequence_size) = Some vs ->
  map order firsts out first_out sequence_size transform_op
  = take first_out out ++ vs ++ drop (first_out + sequence_size) out.
Proof.
  intros Hcov Hlen Hvs.
  assert (Hval : Forall2 (fun i v =>
              Iterator.apply_iterators_indexed transform_op firsts i = Some v)
            (seq 0 sequence_size) vs) by (by apply mapM_Some).
  pose proof (Forall2_length _ _ _ Hval) as Hlvs. rewrite length_seq in Hlvs.
  assert (Hin : forall i, i ∈ order <-> (i < sequence_size)%nat).
  { intros i. unfold covers in Hcov. rewrite Hcov, elem_of_seq. lia. }
  apply list_eq. intros p. unfold map. rewrite parallel_for_lookup.
  2:{ intros i Hi. apply Hin in Hi. split; [lia |].
      destruct (Forall2_lookup_l _ _ _ i i Hval) as (v & _ & Hv); [| by eexists].
      by apply lookup_seq_lt. }
  destruct (decide ((first_out <= p)%nat /\ (p - first_out)%nat ∈ order))
    as [[Hp Hi] | Hn].
  - apply Hin in Hi.
    destruct (Forall2_lookup_l _ _ _ (p - first_out)%nat (p - first_out)%nat Hval)
      as (v & Hv & ->); [by apply lookup_seq_lt |].
    rewrite lookup_app_r by (rewrite length_take; lia).
    rewrite length_take, Nat.min_l by lia.
    by rewrite lookup_app_l by lia.
  - destruct (decide (p < first_out)%nat) as [Hlt | Hge].
    + rewrite lookup_app_l by (rewrite length_take; lia).
      by rewrite lookup_take_lt.
    + assert (Hp : (first_out + sequence_size <= p)%nat).
      { destruct (decide (first_out + sequence_size <= p)%nat); [done |].
        exfalso. apply Hn. split; [lia |]. apply Hin. lia. }
      rewrite lookup_app_r by (rewrite length_take; lia).
      rewrite length_take, Nat.min_l by lia.
      rewrite lookup_app_r by lia.
      rewrite lookup_drop. f_equal. lia.
Qed.

(** X9. [parallel_execution_ff::map] writes to the [sequence_size]
    positions from [first_out] on, in order, the values of [transform_op]
    at the elements of the input sequences with the same index, and leaves
    the output alone before and behind them, whatever the order in which
    the workers run the indices; with [sequence_size = 0] the output is
    not touched. *)
Theorem ff_map_spec (order : list nat) (firsts : list (Iterator.iterator A))
    (out : list B) (first_out sequence_size : nat)
    (transform_op : list A -> B) (vs : list B) :
  covers order sequence_size ->
  (first_out + sequence_size <= length out)%nat ->
  mapM (Iterator.apply_iterators_indexed transform_op firsts)
       (seq 0 sequence_size) = Some vs ->
  map order firsts out first_out sequence_size transform_op
  = take first_out out ++ vs ++ drop (first_out + sequence_size) out
  /\ (forall i : nat, (i < sequence_size)%nat ->
        map order firsts out first_out sequence_size transform_op
          !! (first_out + i)%nat
        = Iterator.apply_iterators_indexed transform_op firsts i)
  /\ (sequence_size = 0%nat ->
      map order firsts out first_out sequence_size transform_op = out).
Proof.
  intros Hcov Hlen Hvs.
  pose proof (ff_map_eq order firsts out first_out sequence_size transform_op
                vs Hcov Hlen Hvs) as Heq.
  pose proof (length_mapM _ _ _ Hvs) as Hlvs. rewrite length_seq in Hlvs.
  split; [done |]. split.
  - intros i Hi. rewrite Heq.
    rewrite lookup_app_r by (rewrite length_take; lia).
    rewrite length_take, Nat.min_l by lia.
    rewrite lookup_app_l by lia.
    replace (first_out + i - first_out)%nat with i by lia.
    apply mapM_Some in Hvs.
    destruct (Forall2_lookup_l _ _ _ i i Hvs) as (v & Hv & ->);
      [by apply lookup_seq_lt | done].
  - intros ->. rewrite Heq.
    destruct vs; [| done]. cbn [app]. rewrite Nat.add_0_r. apply take_drop.
Qed.

Section MapReduce.
Variable combine_op : B -> B -> B.
Variable identity : B.

(** X10. With an associative combiner that has [identity] as its unit,
    [map_reduce] is the fold, from [identity], of the values of
    [transform_op] at the elements of the input sequences, in the order of
    the sequences; the workers may run the [map] in any order and the
    [reduce] on any cut of the range into consecutive parts, and the
    initial content of [partial_outs] does not show.  In particular the
    result is [identity] for [sequence_size = 0]. *)
Theorem map_reduce_spec (order : list nat) (chunks : list (list nat))
    (firsts : list (Iterator.iterator A)) (sequence_size : nat)
    (transform_op : list A -> B) (value_init : B) (vs : list B) :
  (forall x y z, combine_op x (combine_op y z) = combine_op (combine_op x y) z) ->
  (forall x, combine_op identity x = x) ->
  (forall x, combine_op x identity = x) ->
  covers order sequence_size ->
  concat chunks = seq 0 sequence_size ->
  mapM (Iterator.apply_iterators_indexed transform_op firsts)
       (seq 0 sequence_size) = Some vs ->
  map_reduce order chunks firsts sequence_size identity transform_op
    combine_op value_init
  = foldl combine_op identity vs
  /\ (sequence_size = 0%nat ->
      map_reduce order chunks firsts sequence_size identity transform_op
        combine_op value_init = identity).
Proof.
  intros Hassoc Hleft Hright Hcov Hcat Hvs.
  pose proof (length_mapM _ _ _ Hvs) as Hlvs. rewrite length_seq in Hlvs.
  assert (Heq : map_reduce order chunks firsts sequence_size identity
                  transform_op combine_op value_init
                = foldl combine_op identity vs).
  { unfold map_reduce.
    rewrite (ff_map_eq order firsts (replicate sequence_size value_init)
               0 sequence_size transform_op vs Hcov
               ltac:(rewrite length_replicate; lia) Hvs).
    rewrite take_0, drop_ge, app_nil_r by (rewrite length_replicate; lia).
    cbn [app]. apply reduce_assoc; try done. by rewrite <- Hlvs. }
  split; [done |]. intros ->. rewrite Heq. by destruct vs.
Qed.

End MapReduce.

End FFMapFacts.

Lemma ff_map_spec_witness :
  let firsts := [ {| Iterator.base := [1; 2; 3; 4]; Iterator.pos := 1 |};
                  {| Iterator.base := [10; 20; 30]; Iterator.pos := 0 |} ] in
  FFMap.map [2; 0; 1]%nat firsts [0; 0; 0; 0; 0] 1 3 (foldr Z.add 0)
  = [0; 12; 23; 34; 0].
Proof.
  intros firsts.
  refine (proj1 (ff_map_spec [2; 0; 1]%nat firsts [0; 0; 0; 0; 0] 1 3
                   (foldr Z.add 0) [12; 23; 34] _ _ _)).
  - unfold FFMap.covers. cbn. apply (Permutation_app_comm [2%nat] [0; 1]%nat).
  - cbn. lia.
  - reflexivity.
Defined.

Lemma map_reduce_spec_witness :
  let firsts := [ {| Iterator.base := [1; 2; 3; 4]; Iterator.pos := 1 |};
                  {| Iterator.base := [10; 20; 30]; Iterator.pos := 0 |} ] in
  FFMap.map_reduce [2; 0; 1]%nat [[0; 1]; [2]]%nat firsts 3 0 (foldr Z.add 0)
    Z.add 7
  = 69.
Proof.
  intros firsts.
  refine (proj1 (map_reduce_spec Z.add 0 [2; 0; 1]%nat [[0; 1]; [2]]%nat firsts 3
                   (foldr Z.add 0) 7 [12; 23; 34] _ _ _ _ _ _)).
  - intros x y z. lia.
  - intros x. lia.
  - intros x. lia.
  - unfold FFMap.covers. cbn. apply (Permutation_app_comm [2%nat] [0; 1]%nat).
  - reflexivity.
  - reflexivity.
Defined.

(** ** The OpenMP pipeline: lists of tagged items *)

Lemma omap_insert_perm {X Y} (f : X -> option Y) (l : list X) i t t' :
  l !! i = Some t ->
  omap f (<[i := t']> l) ++ option_list (f t)
  ≡ₚ omap f l ++ option_list (f t').
Proof.
  revert i. induction l as [|x l IH]; intros [|i] Hi; try done.
  - simpl in Hi. simplify_eq. simpl.
    destruct (f t) as [a|], (f t') as [b|]; simpl; try done.
    + rewrite <- !Permutation_cons_append. apply perm_swap.
    + by rewrite app_nil_r, <- Permutation_cons_append.
    + by rewrite app_nil_r, <- Permutation_cons_append.
  - simpl in Hi. specialize (IH i Hi). simpl.
    destruct (f x) as [c|]; simpl; [by f_equiv | done].
Qed.

Lemma count_none {X} (f : X -> bool) (l : list X) :
  (forall x, x ∈ l -> f x = false) -> count f l = 0%nat.
Proof.
  induction l as [|x l IH]; intros H; [done |].
  cbn. rewrite (H x) by (by left). rewrite IH; [done |].
  intros y Hy. apply H. by right.
Qed.

Lemma count_length_forallb {X} (f : X -> bool) (l : list X) :
  count f l = length l -> forallb f l = true.
Proof.
  induction l as [|x l IH]; [done |].
  cbn. pose proof (count_le_length f l) as Hle. destruct (f x); [| lia].
  intros Hc. apply IH. lia.
Qed.

Lemma forallb_insert {X} (f : X -> bool) (l : list X) i x :
  forallb f l = true -> f x = true -> forallb f (<[i := x]> l) = true.
Proof.
  revert i. induction l as [|y l IH]; intros [|i] Hl Hx; try done.
  - cbn in *. apply andb_true_iff in Hl as [_ Hl]. by rewrite Hx.
  - cbn in *. apply andb_true_iff in Hl as [Hy Hl]. rewrite Hy. by apply IH.
Qed.

Lemma count_pos_lookup {X} (f : X -> bool) (l : list X) :
  (0 < count f l)%nat -> exists i x, l !! i = Some x /\ f x = true.
Proof.
  induction l as [|y l IH]; cbn; [lia |].
  destruct (f y) eqn:E.
  - intros _. by exists 0%nat, y.
  - intros H. destruct (IH H) as (i & x & Hi & Hx). by exists (S i), x.
Qed.

(** The sum of the weights of the elements of a list. *)
Fixpoint total {X} (f : X -> nat) (l : list X) : nat :=
  match l with
  | [] => 0
  | x :: l' => (f x + total f l')%nat
  end.

Lemma total_insert {X} (f : X -> nat) l i x y :
  l !! i = Some y ->
  (total f (<[i := x]> l) + f y = total f l + f x)%nat.
Proof.
  revert i. induction l as [|z l IH]; intros [|i] Hi; try done.
  - simpl in *. simplify_eq. lia.
  - simpl in *. specialize (IH i Hi). lia.
Qed.

Lemma total_replicate {X} (f : X -> nat) n x :
  total f (replicate n x) = (n * f x)%nat.
Proof. induction n as [|n IH]; cbn; [done | rewrite IH; lia]. Qed.

Section TaggedFacts.
Context {T : Type}.

Lemma tagged_snoc (xs : list T) (k : nat) x :
  xs !! k = Some x ->
  tagged (take (S k) xs) 0 = tagged (take k xs) 0 ++ [(Some x, Z.of_nat k)].
Proof.
  intros Hk. rewrite (take_S_r _ _ _ Hk), tagged_app. cbn.
  rewrite length_take, Nat.min_l; [done |].
  apply lookup_lt_Some in Hk. lia.
Qed.

Lemma tagged_fmap {U} (f : T -> U) (xs : list T) from :
  tagged (f <$> xs) from
  = (fun it : item T => (f <$> fst it, snd it)) <$> tagged xs from.
Proof.
  revert from. induction xs as [|x xs IH]; intros from; [done |].
  cbn. by rewrite IH.
Qed.

Lemma tagged_payloads (xs : list T) from : omap fst (tagged xs from) = xs.
Proof.
  revert from. induction xs as [|x xs IH]; intros from; [done |].
  cbn. by rewrite IH.
Qed.

Lemma tagged_tags (xs : list T) :
  (fun it : item T => Z.to_nat (snd it)) <$> tagged xs 0 = seq 0 (length xs).
Proof.
  apply list_eq. intros i. rewrite list_lookup_fmap.
  pose proof (tagged_lookup xs 0 i) as Hl. unfold item in *. rewrite Hl.
  destruct (xs !! i) as [x|] eqn:Hi; cbn.
  - rewrite lookup_seq_lt by (by eapply lookup_lt_Some). f_equal. lia.
  - rewrite lookup_seq_ge; [done |]. by apply lookup_ge_None.
Qed.

Lemma tagged_elem_of (xs : list T) (it : item T) :
  it ∈ tagged xs 0 ->
  exists (k : nat) x, xs !! k = Some x /\ it = (Some x, Z.of_nat k).
Proof.
  intros Hin. apply list_elem_of_lookup_1 in Hin as [k Hk].
  pose proof (tagged_lookup xs 0 k) as Hl. unfold item in *. rewrite Hl in Hk.
  destruct (xs !! k) as [x|] eqn:Hx; [| done].
  exists k, x. split; [done |]. cbn in Hk. by simplify_eq.
Qed.

Lemma tagged_not_end (xs : list T) (l : list (item T)) :
  l ⊆ tagged xs 0 -> count is_end l = 0%nat.
Proof.
  intros Hsub. apply count_none. intros it Hit.
  destruct (tagged_elem_of xs it (Hsub _ Hit)) as (k & x & _ & ->). done.
Qed.

End TaggedFacts.

Section LastStageMore.
Import OmpPipeline.
Context {T : Type}.

(** The last stage of an ordered pipeline, fed the items of [ys] with the
    tags 0, 1, ... in any order and then an item without payload: it
    returns with [ys] consumed in order, and does not look at what the
    queue holds behind that item. *)
Lemma last_stage_tagged (l : list (item T)) (ys : list T) (e : Z)
    (rest : list (item T)) :
  l ≡ₚ tagged ys 0 ->
  last_stage (l ++ (None, e) :: rest) = Returned ys.
Proof.
  intros Hperm. destruct ys as [|y0 ys'] eqn:Eys.
  { apply Permutation_nil_r in Hperm as ->. reflexivity. }
  rewrite <- Eys in *. clear Eys ys'.
  set (val := fun t : nat => default y0 (ys !! t)).
  set (ts := (fun it : item T => Z.to_nat (snd it)) <$> l).
  assert (Hl : l = arriving val ts).
  { unfold arriving, ts. rewrite <- list_fmap_compose.
    rewrite <- (list_fmap_id l) at 1. apply list_fmap_ext.
    intros i it Hit. apply list_elem_of_lookup_2 in Hit.
    rewrite Hperm in Hit.
    destruct (tagged_elem_of ys it Hit) as (k & x & Hx & ->).
    cbn. unfold val. rewrite Nat2Z.id, Hx. cbn. do 2 f_equal. }
  assert (Hts : ts ≡ₚ seq 0 (length ys)).
  { unfold ts. rewrite Hperm. by rewrite tagged_tags. }
  assert (Hys : val <$> seq 0 (length ys) = ys).
  { apply list_eq. intros i. rewrite list_lookup_fmap.
    destruct (ys !! i) as [x|] eqn:Hi.
    - rewrite lookup_seq_lt by (by eapply lookup_lt_Some).
      cbn. unfold val. by rewrite Hi.
    - rewrite lookup_seq_ge; [done |]. by apply lookup_ge_None. }
  rewrite Hl. unfold last_stage. rewrite last_stage_loop_app.
  destruct (last_stage_steps_ok val ts [] ([], 0, []))
    as (m & els & -> & Hpre).
  { by exists 0%nat, []. }
  cbn in Hpre. cbn [last_stage_loop fst].
  unfold buffered at 1. rewrite length_fmap, <- Hys.
  apply last_stage_drain_ok; [done |]. by rewrite <- Hpre.
Qed.

(** The last stage of an unordered pipeline consumes the items in the
    order of their arrival, up to the first item without payload. *)
Lemma last_stage_unordered_present (l : list (item T)) (out : list T) (e : Z)
    (rest : list (item T)) :
  Forall (fun it => is_Some (fst it)) l ->
  last_stage_unordered_loop (l ++ (None, e) :: rest) out
  = Returned (out ++ omap fst l).
Proof.
  intros Hl. revert out. induction Hl as [|it l [x Hx] _ IH]; intros out.
  - cbn. by rewrite app_nil_r.
  - cbn. rewrite Hx. cbn. rewrite IH. by rewrite <- (assoc_L (++)).
Qed.

Lemma last_stage_unordered_tagged (l : list (item T)) (ys : list T) (e : Z)
    (rest : list (item T)) :
  l ≡ₚ tagged ys 0 ->
  exists out, last_stage_unordered_loop (l ++ (None, e) :: rest) [] = Returned out
              /\ out ≡ₚ ys.
Proof.
  intros Hperm. exists (omap fst l). split.
  - apply (last_stage_unordered_present l []).
    apply Forall_forall. intros it Hit. rewrite Hperm in Hit.
    destruct (tagged_elem_of ys it Hit) as (k & x & _ & ->). by eexists.
  - rewrite Hperm. by rewrite tagged_payloads.
Qed.

End LastStageMore.

(** ** The OpenMP pipeline: the generator task and the first queue *)

Section InputShape.
Import OmpPipeline.
Context {T : Type}.
Variable input : list T.

(** What the first queue of the pipeline has been given: while the
    generator task runs, the first elements of the input with their
    tags; after it has ended, all of them and the empty optional, which
    the tasks of the next stage may have pushed back any number of
    times. *)
Definition input_shape (g : option (list T * Z)) (q : queue T) : Prop :=
  match g with
  | Some (rest, order) =>
      exists k : nat, (k <= length input)%nat /\ rest = drop k input
                      /\ order = Z.of_nat k
                      /\ pushed q = tagged (take k input) 0
  | None =>
      exists m : nat,
        pushed q = tagged input 0
                   ++ replicate (S m) (None, Z.of_nat (length input))
  end.

Lemma input_shape_init : input_shape (Some (input, 0)) make_queue.
Proof.
  exists 0%nat. split; [lia |]. split; [done |]. split; [done |].
  by rewrite take_0.
Qed.

Lemma input_shape_pushed g q q' :
  pushed q' = pushed q -> input_shape g q -> input_shape g q'.
Proof. unfold input_shape. by intros ->. Qed.

Lemma input_shape_running rest order q :
  input_shape (Some (rest, order)) q ->
  (length (pushed q) <= length input)%nat.
Proof.
  intros (k & Hk & _ & _ & ->). rewrite tagged_length, length_take. lia.
Qed.

Lemma input_shape_ended q :
  input_shape None q -> (length input < length (pushed q))%nat.
Proof.
  intros (m & ->). rewrite length_app, tagged_length, length_replicate. lia.
Qed.

Lemma input_shape_generator g q g' q' :
  input_shape g q -> generator_step g q = Some (g', q') ->
  input_shape g' q' /\ (exists it, q' = push q it)
  /\ (exists rest order, g = Some (rest, order))
  /\ (g' = None -> length (pushed q') = S (length input)).
Proof.
  intros Hs Hstep. destruct g as [[[|x rest] order]|]; [| | done].
  - cbn in Hstep. simplify_eq. destruct Hs as (k & Hk & Hrest & -> & Hq).
    assert (k = length input) as ->.
    { apply (f_equal length) in Hrest. rewrite length_drop in Hrest.
      cbn in Hrest. lia. }
    rewrite take_ge in Hq by done.
    split; [exists 0%nat; cbn [push pushed]; by rewrite Hq |].
    split; [by eexists |]. split; [by eexists _, _ |].
    intros _. cbn [push pushed]. rewrite Hq, length_app, tagged_length. cbn. lia.
  - cbn in Hstep. simplify_eq. destruct Hs as (k & Hk & Hrest & -> & Hq).
    assert (Hx : input !! k = Some x).
    { rewrite <- (Nat.add_0_r k), <- lookup_drop, <- Hrest. done. }
    assert (Hlt : (k < length input)%nat) by (by eapply lookup_lt_Some).
    split; [| split; [by eexists | split; [by eexists _, _ | done]]].
    exists (S k). split; [lia |]. split.
    { rewrite (drop_S _ _ _ Hx) in Hrest. by simplify_eq. }
    split; [lia |]. cbn [push pushed]. by rewrite Hq, (tagged_snoc _ _ _ Hx).
Qed.

(** The item at a position of the first queue. *)
Lemma input_shape_item g q (p : nat) (it : item T) :
  input_shape g q -> pushed q !! p = Some it ->
  ((p < length input)%nat
   /\ exists x, input !! p = Some x /\ it = (Some x, Z.of_nat p)
                /\ tagged input 0 !! p = Some it)
  \/ ((length input <= p)%nat /\ it = (None, Z.of_nat (length input))
      /\ g = None).
Proof.
  intros Hs Hp. destruct g as [[rest order]|].
  - left. destruct Hs as (k & Hk & _ & _ & Hq). rewrite Hq in Hp.
    pose proof (tagged_lookup (take k input) 0 p) as Hl.
    unfold item in *. rewrite Hl in Hp.
    destruct (take k input !! p) as [x|] eqn:Hx; [| done].
    cbn in Hp. simplify_eq.
    assert (Hpk : (p < k)%nat).
    { apply lookup_lt_Some in Hx. rewrite length_take in Hx. lia. }
    rewrite lookup_take_lt in Hx by done.
    split; [by eapply lookup_lt_Some |]. exists x. split; [done |].
    split; [done |].
    pose proof (tagged_lookup input 0 p) as Hl'. unfold item in *.
    by rewrite Hl', Hx.
  - destruct Hs as (m & Hq). rewrite Hq in Hp.
    destruct (decide (p < length input)%nat) as [Hlt | Hge].
    + left. split; [done |].
      rewrite lookup_app_l in Hp by (by rewrite tagged_length).
      pose proof (tagged_lookup input 0 p) as Hl. unfold item in *.
      rewrite Hl in Hp. destruct (input !! p) as [x|] eqn:Hx; [| done].
      cbn in Hp. simplify_eq. exists x. split; [done |]. split; [done |].
      by rewrite Hl.
    + right. split; [lia |]. split; [| done].
      rewrite lookup_app_r in Hp by (rewrite tagged_length; lia).
      by apply lookup_replicate in Hp as [-> _].
Qed.

Lemma input_shape_push_back q :
  input_shape None q ->
  input_shape None (push q (None, Z.of_nat (length input))).
Proof.
  intros (m & Hq). exists (S m). cbn [push pushed]. rewrite Hq.
  rewrite <- (assoc_L (++)). f_equal. by rewrite <- replicate_S_end.
Qed.

End InputShape.

(** ** [pipeline] with a farm stage *)

Section FarmPipelineFacts.
Import OmpPipeline.
Context {T U : Type}.
Variable task : T -> U.
Variable W : Z.
Variable input : list T.

(** The item a task is about to push to the output queue. *)
Definition shipped (t : @farm_task T) : option (item U) :=
  match t with FHold x tag => Some (Some (task x), tag) | _ => None end.

Definition ship (it : item T) : item U := (task <$> fst it, snd it).

(** The task has left its [while (item.first)] loop. *)
Definition farm_ended (t : @farm_task T) : bool :=
  match t with FPop | FHold _ _ => false | _ => true end.

Definition is_back (t : @farm_task T) : bool :=
  match t with FPushBack _ => true | _ => false end.

Record fp_inv (g : option (list T * Z)) (f : @farm_state T U) : Prop := {
  fp_farm : farm_inv W f;
  fp_shape : input_shape input g (input_queue f);
  fp_popped :
    (popped (input_queue f) <= length (pushed (input_queue f)))%nat;
  fp_back : forall i it, farm_tasks f !! i = Some (FPushBack it) ->
      it = (None, Z.of_nat (length input));
  fp_past : forall i t, farm_tasks f !! i = Some t -> farm_ended t = true ->
      (length input < popped (input_queue f))%nat;
  fp_out : exists res e,
      pushed (output_queue f) = res ++ replicate e (None, -1)
      /\ res ++ omap shipped (farm_tasks f)
         ≡ₚ ship <$> take (popped (input_queue f)) (tagged input 0)
      /\ ((0 < e)%nat -> forallb counted (farm_tasks f) = true);
  fp_token : g = None ->
      (length (pushed (input_queue f)) + count is_back (farm_tasks f)
       = Nat.max (popped (input_queue f)) (length input) + 1)%nat
}.

Lemma omap_replicate_none {X Y} (f : X -> option Y) n x :
  f x = None -> omap f (replicate n x) = [].
Proof. intros Hx. induction n as [|n IH]; [done |]. cbn. by rewrite Hx. Qed.

Lemma fp_inv_init : fp_inv (Some (input, 0)) (farm_init W make_queue).
Proof.
  split; cbn.
  - apply farm_inv_init.
  - apply input_shape_init.
  - done.
  - intros i it Hi. by apply lookup_replicate in Hi as [? _].
  - intros i t Hi. by apply lookup_replicate in Hi as [-> _].
  - exists [], 0%nat. split; [done |]. split; [| lia].
    by rewrite omap_replicate_none.
  - done.
Qed.

Lemma fp_generator_step g f g' q :
  fp_inv g f -> generator_step g (input_queue f) = Some (g', q) ->
  fp_inv g' {| input_queue := q;
               output_queue := output_queue f;
               done_threads := done_threads f;
               farm_tasks := farm_tasks f |}.
Proof.
  intros [Hfarm Hshape Hpop Hback Hpast Hout Htok] Hstep.
  destruct (input_shape_generator _ _ _ _ _ Hshape Hstep)
    as (Hshape' & [it ->] & (rest & order & ->) & Hlen).
  pose proof (input_shape_running _ _ _ _ Hshape) as Hrun.
  split; cbn [input_queue output_queue done_threads farm_tasks push pushed popped].
  - destruct Hfarm. by split.
  - done.
  - rewrite length_app. lia.
  - done.
  - done.
  - done.
  - intros Hg. specialize (Hlen Hg). cbn [push pushed] in Hlen.
    rewrite count_none.
    + lia.
    + intros t Ht. destruct (is_back t) eqn:Hb; [| done].
      apply list_elem_of_lookup_1 in Ht as [i Hi].
      assert (farm_ended t = true) as He by (by destruct t).
      specialize (Hpast i t Hi He). lia.
Qed.

Lemma fp_task_step g f th f' :
  fp_inv g f -> farm_step task W th f = Some f' -> fp_inv g f'.
Proof.
  intros [Hfarm Hshape Hpop Hback Hpast Hout Htok] Hstep.
  pose proof (farm_inv_step task W th f f' Hfarm Hstep) as Hfarm'.
  destruct Hout as (res & e & Hres & Hperm & He).
  unfold farm_step, farm_set in Hstep.
  destruct (farm_tasks f !! th) as [t|] eqn:Eth; [| done].
  assert (He0 : counted t = false -> e = 0%nat).
  { intros Ht. destruct e; [done |].
    pose proof (forallb_lookup _ _ _ _ (He ltac:(lia)) Eth). congruence. }
  assert (Hlook : forall t' i u,
            <[th := t']> (farm_tasks f) !! i = Some u ->
            (i = th /\ u = t') \/ (i <> th /\ farm_tasks f !! i = Some u)).
  { intros t' i u Hi. destruct (decide (i = th)) as [-> | Hne].
    - rewrite list_lookup_insert_eq in Hi by (by eapply lookup_lt_Some).
      left. by simplify_eq.
    - rewrite list_lookup_insert_ne in Hi by done. by right. }
  pose proof (fun t' => omap_insert_perm shipped (farm_tasks f) th t t' Eth)
    as Hins.
  pose proof (fun t' => count_insert is_back (farm_tasks f) th t' t Eth)
    as Hcnt.
  destruct t as [| x tag | it | | |]; try done.
  - unfold pop in Hstep.
    destruct (pushed (input_queue f) !! popped (input_queue f))
      as [it|] eqn:Elook; [| done].
    simplify_eq. pose proof (lookup_lt_Some _ _ _ Elook) as Hlt.
    destruct (input_shape_item _ _ _ _ _ Hshape Elook)
      as [(Hp & x & Hx & -> & Htag) | (Hp & -> & ->)].
    + cbn [fst snd] in *.
      split; cbn [input_queue output_queue done_threads farm_tasks pushed popped].
      * done.
      * done.
      * lia.
      * intros i it Hi.
        destruct (Hlook _ _ _ Hi) as [[_ ?] | [_ Hi']]; [done | by eapply Hback].
      * intros i t Hi Ht.
        destruct (Hlook _ _ _ Hi) as [[_ ->] | [_ Hi']]; [done |].
        specialize (Hpast i t Hi' Ht). lia.
      * exists res, e. split; [done |]. split.
        -- rewrite (take_S_r _ _ _ Htag), fmap_app.
           specialize (Hins (FHold x (Z.of_nat (popped (input_queue f))))).
           cbn in Hins. rewrite app_nil_r in Hins.
           by rewrite Hins, (assoc_L (++)), Hperm.
        -- intros Hpos. rewrite (He0 eq_refl) in Hpos. lia.
      * intros Hg. specialize (Htok Hg).
        specialize (Hcnt (FHold x (Z.of_nat (popped (input_queue f))))).
        cbn in Hcnt. lia.
    + cbn [fst snd] in *.
      split; cbn [input_queue output_queue done_threads farm_tasks pushed popped].
      * done.
      * done.
      * lia.
      * intros i it Hi.
        destruct (Hlook _ _ _ Hi) as [[_ ?] | [_ Hi']];
          [by simplify_eq | by eapply Hback].
      * intros i t Hi Ht.
        destruct (Hlook _ _ _ Hi) as [[_ ->] | [_ Hi']]; [lia |].
        specialize (Hpast i t Hi' Ht). lia.
      * exists res, e. split; [done |]. split.
        -- rewrite take_ge by (rewrite tagged_length; lia).
           rewrite take_ge in Hperm by (rewrite tagged_length; lia).
           specialize (Hins (FPushBack (None, Z.of_nat (length input)))).
           cbn in Hins. rewrite !app_nil_r in Hins. by rewrite Hins.
        -- intros Hpos. rewrite (He0 eq_refl) in Hpos. lia.
      * intros _. specialize (Htok eq_refl).
        specialize (Hcnt (FPushBack (None, Z.of_nat (length input)))).
        cbn in Hcnt. lia.
  - simplify_eq.
    split; cbn [input_queue output_queue done_threads farm_tasks pushed popped push].
    + done.
    + done.
    + done.
    + intros i it Hi.
      destruct (Hlook _ _ _ Hi) as [[_ ?] | [_ Hi']]; [done | by eapply Hback].
    + intros i t Hi Ht.
      destruct (Hlook _ _ _ Hi) as [[_ ->] | [_ Hi']]; [done |].
      by apply (Hpast i t Hi' Ht).
    + exists (res ++ [(Some (task x), tag)]), 0%nat. split; [| split; [| lia]].
      * rewrite Hres, (He0 eq_refl). cbn. by rewrite !app_nil_r.
      * specialize (Hins FPop). cbn in Hins. rewrite app_nil_r in Hins.
        by rewrite <- (assoc_L (++)), (Permutation_app_comm [_]), Hins.
    + intros Hg. specialize (Htok Hg). specialize (Hcnt FPop).
      cbn in Hcnt. lia.
  - simplify_eq. pose proof (Hback th it Eth) as ->.
    assert (Hg : g = None).
    { destruct g as [[rest order]|]; [| done].
      pose proof (input_shape_running _ _ _ _ Hshape).
      pose proof (Hpast th _ Eth eq_refl). lia. }
    subst g.
    split; cbn [input_queue output_queue done_threads farm_tasks pushed popped push].
    + done.
    + by apply input_shape_push_back.
    + rewrite length_app. lia.
    + intros i it Hi.
      destruct (Hlook _ _ _ Hi) as [[_ ?] | [_ Hi']]; [done | by eapply Hback].
    + intros i t Hi Ht.
      destruct (Hlook _ _ _ Hi) as [[_ ->] | [_ Hi']]; [| by apply (Hpast i t Hi' Ht)].
      by apply (Hpast th _ Eth).
    + exists res, e. split; [done |]. split.
      * specialize (Hins FIncr). cbn in Hins. rewrite !app_nil_r in Hins.
        by rewrite Hins.
      * intros Hpos. rewrite (He0 eq_refl) in Hpos. lia.
    + intros _. specialize (Htok eq_refl). specialize (Hcnt FIncr).
      cbn in Hcnt. rewrite length_app. cbn. lia.
  - simplify_eq.
    split; cbn [input_queue output_queue done_threads farm_tasks pushed popped push].
    + done.
    + done.
    + done.
    + intros i it Hi.
      destruct (Hlook _ _ _ Hi) as [[_ ?] | [_ Hi']]; [done | by eapply Hback].
    + intros i t Hi Ht.
      destruct (Hlook _ _ _ Hi) as [[_ ->] | [_ Hi']]; [| by apply (Hpast i t Hi' Ht)].
      by apply (Hpast th _ Eth).
    + exists res, e. split; [done |]. split.
      * specialize (Hins FTest). cbn in Hins. rewrite !app_nil_r in Hins.
        by rewrite Hins.
      * intros Hpos. rewrite (He0 eq_refl) in Hpos. lia.
    + intros Hg. specialize (Htok Hg). specialize (Hcnt FTest).
      cbn in Hcnt. lia.
  - simplify_eq.
    assert (Hall : forallb counted (farm_tasks f) = true ->
                   forallb counted (<[th := FJoined]> (farm_tasks f)) = true).
    { intros Hc. by apply forallb_insert. }
    split; cbn [input_queue output_queue done_threads farm_tasks pushed popped push].
    + done.
    + done.
    + done.
    + intros i it Hi.
      destruct (Hlook _ _ _ Hi) as [[_ ?] | [_ Hi']]; [done | by eapply Hback].
    + intros i t Hi Ht.
      destruct (Hlook _ _ _ Hi) as [[_ ->] | [_ Hi']]; [| by apply (Hpast i t Hi' Ht)].
      by apply (Hpast th _ Eth).
    + assert (Hperm' : res ++ omap shipped (<[th := FJoined]> (farm_tasks f))
                       ≡ₚ ship <$> take (popped (input_queue f)) (tagged input 0)).
      { specialize (Hins FJoined). cbn in Hins. rewrite !app_nil_r in Hins.
        by rewrite Hins. }
      destruct (Z.eqb_spec (done_threads f) W) as [Hd | Hd].
      * exists res, (S e). split; [| split; [done |]].
        -- cbn [push pushed]. rewrite Hres, <- (assoc_L (++)).
           by rewrite <- replicate_S_end.
        -- intros _. apply Hall. apply count_length_forallb.
           pose proof (fi_done _ _ Hfarm). pose proof (fi_tasks _ _ Hfarm). lia.
      * exists res, e. split; [done |]. split; [done |].
        intros Hpos. by apply Hall, He.
    + intros Hg. specialize (Htok Hg). specialize (Hcnt FJoined).
      cbn in Hcnt. lia.
Qed.

Lemma fp_step th s s' :
  fp_inv (farm_generator s) (farm_stage s) ->
  farm_pipeline_step task W th s = Some s' ->
  fp_inv (farm_generator s') (farm_stage s').
Proof.
  intros Hinv Hstep. destruct th as [| th]; cbn in Hstep.
  - destruct (generator_step (farm_generator s) (input_queue (farm_stage s)))
      as [[g q]|] eqn:E; [| done].
    simplify_eq. cbn. by eapply fp_generator_step.
  - destruct (farm_step task W th (farm_stage s)) as [f|] eqn:E; [| done].
    simplify_eq. cbn. by eapply fp_task_step.
Qed.

Lemma fp_run schedule s :
  fp_inv (farm_generator s) (farm_stage s) ->
  let s' := farm_pipeline_run task W schedule s in
  fp_inv (farm_generator s') (farm_stage s').
Proof.
  revert s. induction schedule as [|th schedule IH]; intros s Hinv; [done |].
  cbn. apply IH. destruct (farm_pipeline_step task W th s) as [s'|] eqn:E; cbn.
  - by eapply fp_step.
  - done.
Qed.

Lemma fp_reachable schedule :
  let s := farm_pipeline_run task W schedule (farm_pipeline_init W input) in
  fp_inv (farm_generator s) (farm_stage s).
Proof. apply fp_run. cbn. apply fp_inv_init. Qed.

Lemma omap_shipped_joined (ts : list (@farm_task T)) :
  forallb farm_joined ts = true -> omap shipped ts = [].
Proof.
  induction ts as [|t ts IH]; [done |].
  cbn. intros H. apply andb_true_iff in H as [Ht Hts].
  destruct t; try done. by apply IH.
Qed.

(** What the output queue of the farm stage holds once all its tasks have
    ended. *)
Lemma farm_output_joined schedule :
  1 <= W ->
  let s := farm_pipeline_run task W schedule (farm_pipeline_init W input) in
  forallb farm_joined (farm_tasks (farm_stage s)) = true ->
  exists res e,
    pushed (output_queue (farm_stage s)) = res ++ replicate (S e) (None, -1)
    /\ res ≡ₚ tagged (task <$> input) 0.
Proof.
  intros HW s Hall. pose proof (fp_reachable schedule) as Hinv. fold s in Hinv.
  destruct Hinv as [Hfarm Hshape Hpop Hback Hpast Hout Htok].
  destruct Hout as (res & e & Hres & Hperm & He).
  pose proof (fi_tasks _ _ Hfarm) as Hlen.
  assert (H0 : exists t, farm_tasks (farm_stage s) !! 0%nat = Some t).
  { apply lookup_lt_is_Some. lia. }
  destruct H0 as [t Ht].
  pose proof (forallb_lookup _ _ _ _ Hall Ht) as Hjt.
  assert (Hp : (length input < popped (input_queue (farm_stage s)))%nat).
  { apply (Hpast 0%nat t Ht). by destruct t. }
  rewrite omap_shipped_joined, app_nil_r in Hperm by done.
  rewrite take_ge in Hperm by (rewrite tagged_length; lia).
  assert (Hres' : res ≡ₚ tagged (task <$> input) 0).
  { by rewrite tagged_fmap. }
  assert (Hne : farm_tasks (farm_stage s) <> []) by (by intros Hnil; rewrite Hnil in Ht).
  pose proof (fi_mark _ _ Hfarm Hall Hne) as Hmark.
  rewrite Hres, count_app, count_replicate in Hmark. cbn in Hmark.
  rewrite (tagged_not_end (task <$> input) res) in Hmark.
  2:{ intros it Hit. by rewrite <- Hres'. }
  destruct e as [|e]; [lia |]. by exists res, e.
Qed.

(** X11. In a pipeline of a generator and a farm stage with at least one
    task, once all tasks of the farm stage have ended the output queue
    holds, for every element of the input, one item with the transformed
    element and the tag of the element, in some order, and behind all of
    them at least one end mark: nothing is lost, doubled or pushed after
    an end mark, whatever the schedule. *)
Theorem farm_pipeline_complete (schedule : list pipeline_thread) :
  1 <= W ->
  let s := farm_pipeline_run task W schedule (farm_pipeline_init W input) in
  forallb farm_joined (farm_tasks (farm_stage s)) = true ->
  exists res e,
    pushed (output_queue (farm_stage s)) = res ++ replicate (S e) (None, -1)
    /\ res ≡ₚ tagged (task <$> input) 0
    /\ (forall (k : nat) x, input !! k = Some x ->
          (Some (task x), Z.of_nat k) ∈ res).
Proof.
  intros HW s Hall.
  destruct (farm_output_joined schedule HW Hall) as (res & e & Hout & Hperm).
  exists res, e. split; [done |]. split; [done |].
  intros k x Hk. rewrite Hperm. apply list_elem_of_lookup_2 with k.
  pose proof (tagged_lookup (task <$> input) 0 k) as Hl. unfold item in *.
  by rewrite Hl, list_lookup_fmap, Hk.
Qed.

(** X12. A pipeline of a generator, a farm stage with at least one task
    and a consumer: once the tasks of the farm stage have ended, the
    consumer, fed the output queue of the farm stage, returns, having
    consumed the transformed elements of the input; in an ordered pipeline
    in the order of the input, whatever the order in which the tasks of
    the farm have pushed them, and in an unordered pipeline in some
    order. *)
Theorem farm_pipeline_result (schedule : list pipeline_thread) (ordered : bool) :
  1 <= W ->
  let s := farm_pipeline_run task W schedule (farm_pipeline_init W input) in
  forallb farm_joined (farm_tasks (farm_stage s)) = true ->
  exists out,
    pipeline_impl_last ordered (pushed (output_queue (farm_stage s)))
    = Returned out
    /\ out ≡ₚ task <$> input
    /\ (ordered = true -> out = task <$> input).
Proof.
  intros HW s Hall.
  destruct (farm_output_joined schedule HW Hall) as (res & e & Hout & Hperm).
  fold s in Hout. rewrite Hout. cbn [replicate]. destruct ordered; cbn [pipeline_impl_last].
  - exists (task <$> input). split; [| done].
    by apply last_stage_tagged.
  - destruct (last_stage_unordered_tagged res (task <$> input) (-1)
                (replicate e (None, -1)) Hperm) as (out & Ho & Hp).
    exists out. by split.
Qed.

(** X14. A farm stage with a concurrency degree below 1 has no task:
    nothing is ever pushed to its output queue, and the consumer behind it
    waits for its first item for ever, whatever the input. *)
Theorem farm_pipeline_idle (schedule : list pipeline_thread) (ordered : bool) :
  W < 1 ->
  let s := farm_pipeline_run task W schedule (farm_pipeline_init W input) in
  farm_tasks (farm_stage s) = []
  /\ pushed (output_queue (farm_stage s)) = []
  /\ pipeline_impl_last ordered (pushed (output_queue (farm_stage s)))
     = Blocked [].
Proof.
  intros HW s.
  assert (H0 : farm_tasks (farm_stage (@farm_pipeline_init T U W input)) = []
               /\ pushed (output_queue
                            (farm_stage (@farm_pipeline_init T U W input)))
                  = []).
  { cbn. by replace (Z.to_nat W) with 0%nat by lia. }
  assert (Hs : farm_tasks (farm_stage s) = []
               /\ pushed (output_queue (farm_stage s)) = []).
  { subst s. revert H0. generalize (@farm_pipeline_init T U W input).
    induction schedule as [|th schedule IH]; intros s0 [Ht Ho]; [done |].
    cbn. apply IH. destruct th as [| th]; cbn.
    - destruct (generator_step _ _) as [[g q]|]; cbn; done.
    - unfold farm_step. by rewrite Ht. }
  destruct Hs as [Ht Ho]. split; [done |]. split; [done |].
  rewrite Ho. by destruct ordered.
Qed.

(** *** Termination *)

Definition farm_weight (t : @farm_task T) : nat :=
  match t with
  | FHold _ _ => 5
  | FPop => 4
  | FPushBack _ => 3
  | FIncr => 2
  | FTest => 1
  | FJoined => 0
  end.

(** A bound on the number of steps that the generator task and the tasks
    of the farm stage can still take. *)
Definition farm_left (s : @farm_pipeline_state T U) : nat :=
  (match farm_generator s with
   | Some (rest, _) => S (length rest)
   | None => 0
   end
   + 2 * (length input - popped (input_queue (farm_stage s)))
   + total farm_weight (farm_tasks (farm_stage s)))%nat.

(** The generator task and all tasks of the farm stage have ended. *)
Definition farm_done (s : @farm_pipeline_state T U) : bool :=
  match farm_generator s with
  | Some _ => false
  | None => forallb farm_joined (farm_tasks (farm_stage s))
  end.

Lemma farm_step_decreases th s s' :
  fp_inv (farm_generator s) (farm_stage s) ->
  farm_pipeline_step task W th s = Some s' ->
  (farm_left s' < farm_left s)%nat.
Proof.
  intros Hinv Hstep. destruct s as [g f]. cbn in Hinv.
  destruct Hinv as [Hfarm Hshape Hpop Hback Hpast Hout Htok].
  destruct th as [| th]; cbn in Hstep.
  - destruct g as [[[|x rest] order]|]; cbn in Hstep; simplify_eq;
      unfold farm_left; cbn; lia.
  - destruct (farm_step task W th f) as [f'|] eqn:E; [| done]. simplify_eq.
    unfold farm_left. cbn [farm_generator farm_stage].
    unfold farm_step, farm_set in E.
    destruct (farm_tasks f !! th) as [t|] eqn:Eth; [| done].
    pose proof (fun t' => total_insert farm_weight (farm_tasks f) th t' t Eth)
      as Hw.
    destruct t as [| x tag | it | | |]; try done.
    + unfold pop in E.
      destruct (pushed (input_queue f) !! popped (input_queue f))
        as [it|] eqn:Elook; [| done].
      simplify_eq. cbn [input_queue farm_tasks popped].
      destruct (input_shape_item _ _ _ _ _ Hshape Elook)
        as [(Hp & x & Hx & -> & Htag) | (Hp & -> & ->)]; cbn [fst snd].
      * specialize (Hw (FHold x (Z.of_nat (popped (input_queue f))))).
        cbn in Hw. lia.
      * specialize (Hw (FPushBack (None, Z.of_nat (length input)))).
        cbn in Hw. lia.
    + simplify_eq. cbn [input_queue farm_tasks popped].
      specialize (Hw FPop). cbn in Hw. lia.
    + simplify_eq. cbn [input_queue farm_tasks popped push].
      specialize (Hw FIncr). cbn in Hw. lia.
    + simplify_eq. cbn [input_queue farm_tasks popped].
      specialize (Hw FTest). cbn in Hw. lia.
    + simplify_eq. cbn [input_queue farm_tasks popped].
      specialize (Hw FJoined). cbn in Hw. lia.
Qed.

Lemma farm_progress s :
  fp_inv (farm_generator s) (farm_stage s) -> farm_done s = false ->
  exists th s', farm_pipeline_step task W th s = Some s'.
Proof.
  intros Hinv Hdone. destruct s as [g f]. cbn in Hinv.
  destruct Hinv as [Hfarm Hshape Hpop Hback Hpast Hout Htok].
  unfold farm_done in Hdone. cbn in Hdone.
  destruct g as [[rest order]|].
  { exists PGenerator. cbn. destruct rest; by eexists. }
  destruct (forallb_false_lookup _ _ Hdone) as (i & t & Hi & Ht).
  assert (Hmove : forall j u, farm_tasks f !! j = Some u ->
            u <> FPop -> u <> FJoined ->
            exists s', farm_pipeline_step task W (PStage j)
                         {| farm_generator := None; farm_stage := f |} = Some s').
  { intros j u Hj Hu1 Hu2. cbn. unfold farm_step. rewrite Hj.
    destruct u; try done; by eexists. }
  destruct t as [| x tag | it | | |]; try done;
    try (exists (PStage i); by eapply Hmove).
  destruct (count is_back (farm_tasks f)) as [|n] eqn:Eb.
  - specialize (Htok eq_refl). exists (PStage i). cbn.
    unfold farm_step, pop. rewrite Hi.
    destruct (pushed (input_queue f) !! popped (input_queue f))
      as [it|] eqn:Elook; [by eexists |].
    apply lookup_ge_None in Elook. lia.
  - destruct (count_pos_lookup is_back (farm_tasks f)) as (j & u & Hj & Hu);
      [lia |].
    exists (PStage j). apply (Hmove j u Hj); by destruct u.
Qed.

Lemma farm_completes (n : nat) s :
  fp_inv (farm_generator s) (farm_stage s) -> (farm_left s <= n)%nat ->
  exists schedule, farm_done (farm_pipeline_run task W schedule s) = true.
Proof.
  revert s. induction n as [|n IH]; intros s Hinv Hn.
  - destruct (farm_done s) eqn:Hd; [by exists [] |].
    destruct (farm_progress s Hinv Hd) as (th & s' & Hstep).
    pose proof (farm_step_decreases _ _ _ Hinv Hstep). lia.
  - destruct (farm_done s) eqn:Hd; [by exists [] |].
    destruct (farm_progress s Hinv Hd) as (th & s' & Hstep).
    pose proof (farm_step_decreases _ _ _ Hinv Hstep) as Hlt.
    destruct (IH s') as [schedule Hs]; [by eapply fp_step | lia |].
    exists (th :: schedule). cbn. by rewrite Hstep.
Qed.

(** The number of steps of a schedule in which the named task could
    move. *)
Fixpoint farm_moves (schedule : list pipeline_thread)
    (s : @farm_pipeline_state T U) : nat :=
  match schedule with
  | [] => 0
  | th :: schedule' =>
      match farm_pipeline_step task W th s with
      | Some s' => S (farm_moves schedule' s')
      | None => farm_moves schedule' s
      end
  end.

Lemma farm_moves_bounded schedule s :
  fp_inv (farm_generator s) (farm_stage s) ->
  (farm_moves schedule s + farm_left (farm_pipeline_run task W schedule s)
   <= farm_left s)%nat.
Proof.
  revert s. induction schedule as [|th schedule IH]; intros s Hinv; [done |].
  change (farm_pipeline_run task W (th :: schedule) s)
    with (farm_pipeline_run task W schedule
            (default s (farm_pipeline_step task W th s))).
  cbn [farm_moves]. destruct (farm_pipeline_step task W th s) as [s'|] eqn:E;
    cbn [default from_option]; unfold id.
  - pose proof (farm_step_decreases _ _ _ Hinv E).
    specialize (IH s' (fp_step _ _ _ Hinv E)). lia.
  - by apply IH.
Qed.

(** X13. The generator task and the tasks of a farm stage cannot run for
    ever and cannot get stuck: every run can be continued until all of
    them have ended, a state in which none of them can take a step is one
    in which all have ended, and no run has more than
    [3 * length input + 4 * concurrency_degree + 1] steps. *)
Theorem farm_pipeline_returns (schedule : list pipeline_thread) :
  let s := farm_pipeline_run task W schedule (farm_pipeline_init W input) in
  (exists schedule',
     farm_done (farm_pipeline_run task W (schedule ++ schedule')
                  (farm_pipeline_init W input)) = true)
  /\ ((forall th, farm_pipeline_step task W th s = None) -> farm_done s = true)
  /\ (farm_moves schedule (farm_pipeline_init W input)
      <= 3 * length input + 4 * Z.to_nat W + 1)%nat.
Proof.
  intros s. pose proof (fp_reachable schedule) as Hinv. fold s in Hinv.
  split; [| split].
  - destruct (farm_completes (farm_left s) s Hinv) as [schedule' Hs]; [done |].
    exists schedule'. unfold farm_pipeline_run in *. by rewrite foldl_app.
  - intros Hstuck. destruct (farm_done s) eqn:Hd; [done |].
    destruct (farm_progress s Hinv Hd) as (th & s' & Hstep).
    by rewrite Hstuck in Hstep.
  - pose proof (farm_moves_bounded schedule (farm_pipeline_init W input)
                  fp_inv_init) as Hb.
    assert (Hinit : farm_left (farm_pipeline_init W input)
                    = (3 * length input + 4 * Z.to_nat W + 1)%nat).
    { unfold farm_left. cbn. rewrite total_replicate. cbn. lia. }
    lia.
Qed.

End FarmPipelineFacts.

(** ** [pipeline] with a filter stage *)

Lemma bind_insert_perm {X Y} (f : X -> list Y) (l : list X) i t t' :
  l !! i = Some t ->
  (<[i := t']> l ≫= f) ++ f t ≡ₚ (l ≫= f) ++ f t'.
Proof.
  revert i. induction l as [|x l IH]; intros [|i] Hi; try done.
  - simpl in Hi. simplify_eq.
    change (<[0%nat := t']> (t :: l)) with (t' :: l). rewrite !bind_cons.
    solve_Permutation.
  - simpl in Hi. specialize (IH i Hi).
    change (<[S i := t']> (x :: l)) with (x :: <[i := t']> l).
    rewrite !bind_cons, <- !(assoc_L (++)). by f_equiv.
Qed.

Lemma forallb_elem_of {X} (f : X -> bool) (l : list X) :
  (forall x, x ∈ l -> f x = true) -> forallb f l = true.
Proof.
  induction l as [|x l IH]; intros H; [done |].
  cbn. rewrite (H x) by (by left). apply IH. intros y Hy. apply H. by right.
Qed.

Lemma forallb_insert_inv {X} (f : X -> bool) (l : list X) i x y :
  l !! i = Some y -> f y = true ->
  forallb f (<[i := x]> l) = true -> forallb f l = true.
Proof.
  intros Hi Hy Hall.
  rewrite <- (list_insert_id l i y Hi), <- (list_insert_insert_eq l i y x).
  by apply forallb_insert.
Qed.

Lemma forallb_insert_false {X} (f : X -> bool) (l : list X) i x :
  (i < length l)%nat -> f x = false -> forallb f (<[i := x]> l) = true -> False.
Proof.
  intros Hi Hx Hall.
  assert (Hl : <[i := x]> l !! i = Some x) by (by apply list_lookup_insert_eq).
  pose proof (forallb_lookup _ _ _ _ Hall Hl). congruence.
Qed.

Section FilterPipelineFacts.
Import OmpPipeline.
Context {T : Type}.
Variable task : T -> bool.
Variable ordered : bool.
Variable W : Z.
Variable input : list T.

(** What a filter task pushes for the element [x] tagged [tag]. *)
Definition emit (x : T) (tag : Z) : list (item T) :=
  if task x then [(Some x, tag)]
  else if ordered then [(None, tag)]
  else [].

Lemma filter_push_pushed q x tag :
  pushed (filter_push task ordered q x tag) = pushed q ++ emit x tag.
Proof.
  unfold filter_push, emit. destruct (task x); [done |].
  destruct ordered; [done |]. by rewrite app_nil_r.
Qed.

Definition emitted (t : @filter_task T) : list (item T) :=
  match t with QHold x tag => emit x tag | _ => [] end.

Definition emit_item (it : item T) : list (item T) :=
  match fst it with Some x => emit x (snd it) | None => [] end.

(** The task has incremented [done_threads]. *)
Definition fcounted (t : @filter_task T) : bool :=
  match t with QTest _ | QEnd | QBack _ | QJoined => true | _ => false end.

(** The task has left its [while (item.first)] loop. *)
Definition fended (t : @filter_task T) : bool :=
  match t with QPop | QHold _ _ => false | _ => true end.

(** The task has popped the empty optional and not yet passed it on. *)
Definition holding (t : @filter_task T) : bool :=
  match t with QIncr _ | QTest _ | QEnd | QBack _ => true | _ => false end.

Definition closing (t : @filter_task T) : bool :=
  match t with QTest _ | QEnd => true | _ => false end.

Definition carried (t : @filter_task T) : option (item T) :=
  match t with QIncr it | QTest it | QBack it => Some it | _ => None end.

Definition fjoined (t : @filter_task T) : bool :=
  match t with QJoined => true | _ => false end.

Record fl_inv (s : @filter_state T) : Prop := {
  fl_tasks : length (filter_tasks s) = Z.to_nat W;
  fl_done : filter_done s = Z.of_nat (count fcounted (filter_tasks s));
  fl_shape : input_shape input (filter_generator s) (filter_input s);
  fl_popped :
    (popped (filter_input s) <= length (pushed (filter_input s)))%nat;
  fl_item : forall i t it, filter_tasks s !! i = Some t ->
      carried t = Some it -> it = (None, Z.of_nat (length input));
  fl_past : forall i t, filter_tasks s !! i = Some t -> fended t = true ->
      (length input < popped (filter_input s))%nat;
  fl_end : forall i, filter_tasks s !! i = Some QEnd ->
      forallb fcounted (filter_tasks s) = true;
  fl_out : exists res e,
      pushed (filter_output s) = res ++ replicate e (None, -1)
      /\ res ++ (filter_tasks s ≫= emitted)
         ≡ₚ take (popped (filter_input s)) (tagged input 0) ≫= emit_item
      /\ ((0 < e)%nat ->
          forallb fjoined (filter_tasks s) = true /\ filter_tasks s <> [])
      /\ (filter_generator s = None ->
          (length (pushed (filter_input s)) + count holding (filter_tasks s) + e
           = Nat.max (popped (filter_input s)) (length input) + 1)%nat)
      /\ (forallb fcounted (filter_tasks s) = true -> filter_tasks s <> [] ->
          (1 <= count closing (filter_tasks s) + e)%nat)
      /\ (e <= 1)%nat
}.

Lemma bind_replicate_nil {X Y} (f : X -> list Y) n x :
  f x = [] -> replicate n x ≫= f = [].
Proof. intros Hx. induction n as [|n IH]; [done |]. cbn. by rewrite Hx, IH. Qed.

Lemma fl_inv_init : fl_inv (filter_init W input).
Proof.
  split; cbn.
  - apply length_replicate.
  - by rewrite count_replicate.
  - apply input_shape_init.
  - done.
  - intros i t it Hi. by apply lookup_replicate in Hi as [-> _].
  - intros i t Hi. by apply lookup_replicate in Hi as [-> _].
  - intros i Hi. by apply lookup_replicate in Hi as [? _].
  - exists [], 0%nat. split; [done |]. split; [by rewrite bind_replicate_nil |].
    split; [lia |]. split; [done |]. split; [| lia].
    destruct (Z.to_nat W); [done |]. cbn. done.
Qed.

Lemma fl_generator_step s s' :
  fl_inv s -> filter_step task ordered W PGenerator s = Some s' -> fl_inv s'.
Proof.
  intros [Htasks Hdone Hshape Hpop Hitem Hpast Hend Hout] Hstep.
  cbn in Hstep.
  destruct (generator_step (filter_generator s) (filter_input s))
    as [[g q]|] eqn:E; [| done].
  simplify_eq.
  destruct (input_shape_generator _ _ _ _ _ Hshape E)
    as (Hshape' & [it ->] & (rest & order & Hg) & Hlen).
  rewrite Hg in Hshape. pose proof (input_shape_running _ _ _ _ Hshape) as Hrun.
  destruct Hout as (res & e & Hres & Hperm & He & Htok & Hclose & He1).
  assert (Hidle : forall t, t ∈ filter_tasks s -> fended t = false).
  { intros t Ht. destruct (fended t) eqn:Et; [| done].
    apply list_elem_of_lookup_1 in Ht as [i Hi].
    specialize (Hpast i t Hi Et). lia. }
  split; cbn [filter_generator filter_input filter_output filter_done
              filter_tasks push pushed popped]; try done.
  - rewrite length_app. lia.
  - exists res, e. repeat (split; [done |]). split; [| done].
    intros Hg'. specialize (Hlen Hg'). cbn [push pushed] in Hlen.
    assert (e = 0%nat) as ->.
    { destruct e; [done |]. destruct (He ltac:(lia)) as [Hall Hne].
      destruct (filter_tasks s) as [|t ts] eqn:Ets; [done |].
      assert (Ht : fended t = false) by (apply Hidle; by left).
      cbn in Hall. by destruct t. }
    rewrite count_none.
    + lia.
    + intros t Ht. specialize (Hidle t Ht). by destruct t.
Qed.

Lemma fl_task_step th s s' :
  fl_inv s -> filter_task_step task ordered W th s = Some s' -> fl_inv s'.
Proof.
  intros [Htasks Hdone Hshape Hpop Hitem Hpast Hend Hout] Hstep.
  destruct Hout as (res & e & Hres & Hperm & He & Htok & Hclose & He1).
  unfold filter_task_step, filter_set in Hstep.
  destruct (filter_tasks s !! th) as [t|] eqn:Eth; [| done].
  pose proof (lookup_lt_Some _ _ _ Eth) as Hth.
  assert (Hne : filter_tasks s <> []).
  { intros Hnil. rewrite Hnil in Hth. cbn in Hth. lia. }
  assert (HW : Z.of_nat (length (filter_tasks s)) = W).
  { rewrite Htasks. destruct (filter_tasks s); [done |].
    cbn in Htasks. lia. }
  assert (He0 : fjoined t = false -> e = 0%nat).
  { intros Ht. destruct e; [done |]. destruct (He ltac:(lia)) as [Hall _].
    pose proof (forallb_lookup _ _ _ _ Hall Eth). congruence. }
  assert (Hlook : forall t' i u,
            <[th := t']> (filter_tasks s) !! i = Some u ->
            (i = th /\ u = t') \/ (i <> th /\ filter_tasks s !! i = Some u)).
  { intros t' i u Hi. destruct (decide (i = th)) as [-> | Hneq].
    - rewrite list_lookup_insert_eq in Hi by done. left. by simplify_eq.
    - rewrite list_lookup_insert_ne in Hi by done. by right. }
  pose proof (fun t' => bind_insert_perm emitted (filter_tasks s) th t t' Eth)
    as Hins.
  pose proof (fun f t' => count_insert f (filter_tasks s) th t' t Eth) as Hcnt.
  assert (Hended : fended t = true -> filter_generator s = None).
  { intros Ht. destruct (filter_generator s) as [[rest order]|] eqn:Eg; [| done].
    pose proof (input_shape_running _ _ _ _ Hshape).
    pose proof (Hpast th _ Eth Ht). lia. }
  assert (Hend' : forall t', (fcounted t = false \/ fcounted t' = true) ->
            forall i, <[th := t']> (filter_tasks s) !! i = Some QEnd ->
            i <> th ->
            forallb fcounted (<[th := t']> (filter_tasks s)) = true).
  { intros t' Ht' i Hi Hneq. rewrite list_lookup_insert_ne in Hi by done.
    pose proof (Hend i Hi) as Hall. destruct Ht' as [Ht' | Ht'].
    - pose proof (forallb_lookup _ _ _ _ Hall Eth). congruence.
    - by apply forallb_insert. }
  destruct t as [| x tag | it | it | | it |]; try done.
  - (* the pop *)
    unfold pop in Hstep.
    destruct (pushed (filter_input s) !! popped (filter_input s))
      as [it|] eqn:Elook; [| done].
    simplify_eq. pose proof (lookup_lt_Some _ _ _ Elook) as Hlt.
    destruct (input_shape_item _ _ _ _ _ Hshape Elook)
      as [(Hp & x & Hx & -> & Htag) | (Hp & -> & Hg)]; cbn [fst snd] in *.
    + split; cbn [filter_generator filter_input filter_output filter_done
                  filter_tasks pushed popped]; try done.
      * by rewrite length_insert.
      * specialize (Hcnt fcounted (QHold x (Z.of_nat (popped (filter_input s))))).
        cbn in Hcnt. rewrite Hdone. lia.
      * intros i t it Hi Hc.
        destruct (Hlook _ _ _ Hi) as [[_ ->] | [_ Hi']]; [done | by eapply Hitem].
      * intros i t Hi Ht.
        destruct (Hlook _ _ _ Hi) as [[_ ->] | [_ Hi']]; [done |].
        specialize (Hpast i t Hi' Ht). lia.
      * intros i Hi. destruct (decide (i = th)) as [-> | Hneq].
        -- by rewrite list_lookup_insert_eq in Hi.
        -- eapply Hend'; [by left | done | done].
      * exists res, e. split; [done |]. split; [| split; [| split; [| split]]].
        -- rewrite (take_S_r _ _ _ Htag), bind_app.
           specialize (Hins (QHold x (Z.of_nat (popped (filter_input s))))).
           cbn [emitted] in Hins. rewrite app_nil_r in Hins.
           rewrite Hins, (assoc_L (++)), Hperm. f_equiv. cbn.
           by rewrite app_nil_r.
        -- intros Hpos. rewrite (He0 eq_refl) in Hpos. lia.
        -- intros Hg. specialize (Htok Hg).
           specialize (Hcnt holding (QHold x (Z.of_nat (popped (filter_input s))))).
           cbn in Hcnt. lia.
        -- intros Hall. by apply forallb_insert_false in Hall.
        -- done.
    + split; cbn [filter_generator filter_input filter_output filter_done
                  filter_tasks pushed popped]; try done.
      * by rewrite length_insert.
      * specialize (Hcnt fcounted (QIncr (None, Z.of_nat (length input)))).
        cbn in Hcnt. rewrite Hdone. lia.
      * intros i t it Hi Hc.
        destruct (Hlook _ _ _ Hi) as [[_ ->] | [_ Hi']];
          [cbn in Hc; by simplify_eq | by eapply Hitem].
      * intros i t Hi Ht.
        destruct (Hlook _ _ _ Hi) as [[_ ->] | [_ Hi']]; [lia |].
        specialize (Hpast i t Hi' Ht). lia.
      * intros i Hi. destruct (decide (i = th)) as [-> | Hneq].
        -- by rewrite list_lookup_insert_eq in Hi.
        -- eapply Hend'; [by left | done | done].
      * exists res, e. split; [done |]. split; [| split; [| split; [| split]]].
        -- rewrite take_ge by (rewrite tagged_length; lia).
           rewrite take_ge in Hperm by (rewrite tagged_length; lia).
           specialize (Hins (QIncr (None, Z.of_nat (length input)))).
           cbn [emitted] in Hins. rewrite !app_nil_r in Hins. by rewrite Hins.
        -- intros Hpos. rewrite (He0 eq_refl) in Hpos. lia.
        -- intros _. specialize (Htok Hg).
           specialize (Hcnt holding (QIncr (None, Z.of_nat (length input)))).
           cbn in Hcnt. lia.
        -- intros Hall. by apply forallb_insert_false in Hall.
        -- done.
  - (* the push of the element or of a hole *)
    simplify_eq.
    split; cbn [filter_generator filter_input filter_output filter_done
                filter_tasks pushed popped]; try done.
    + by rewrite length_insert.
    + specialize (Hcnt fcounted QPop). cbn in Hcnt. rewrite Hdone. lia.
    + intros i t it Hi Hc.
      destruct (Hlook _ _ _ Hi) as [[_ ->] | [_ Hi']]; [done | by eapply Hitem].
    + intros i t Hi Ht.
      destruct (Hlook _ _ _ Hi) as [[_ ->] | [_ Hi']]; [done |].
      by apply (Hpast i t Hi' Ht).
    + intros i Hi. destruct (decide (i = th)) as [-> | Hneq].
      * by rewrite list_lookup_insert_eq in Hi.
      * eapply Hend'; [by left | done | done].
    + exists (res ++ emit x tag), 0%nat.
      split; [| split; [| split; [| split; [| split]]]].
      * rewrite filter_push_pushed, Hres, (He0 eq_refl). cbn.
        by rewrite !app_nil_r.
      * specialize (Hins QPop). cbn [emitted] in Hins.
        rewrite app_nil_r in Hins.
        by rewrite <- (assoc_L (++)), (Permutation_app_comm (emit x tag)), Hins.
      * lia.
      * intros Hg. specialize (Htok Hg). specialize (Hcnt holding QPop).
        cbn in Hcnt. rewrite (He0 eq_refl) in Htok. lia.
      * intros Hall. by apply forallb_insert_false in Hall.
      * lia.
  - (* the increment *)
    simplify_eq.
    split; cbn [filter_generator filter_input filter_output filter_done
                filter_tasks pushed popped]; try done.
    + by rewrite length_insert.
    + specialize (Hcnt fcounted (QTest it)). cbn in Hcnt. rewrite Hdone. lia.
    + intros i t it' Hi Hc.
      destruct (Hlook _ _ _ Hi) as [[_ ->] | [_ Hi']]; [| by eapply Hitem].
      cbn in Hc. simplify_eq. by apply (Hitem th _ _ Eth).
    + intros i t Hi Ht.
      destruct (Hlook _ _ _ Hi) as [[_ ->] | [_ Hi']];
        [| by apply (Hpast i t Hi' Ht)].
      by apply (Hpast th _ Eth).
    + intros i Hi. destruct (decide (i = th)) as [-> | Hneq].
      * by rewrite list_lookup_insert_eq in Hi.
      * eapply Hend'; [by left | done | done].
    + exists res, e. split; [done |]. split; [| split; [| split; [| split]]].
      * specialize (Hins (QTest it)). cbn [emitted] in Hins.
        rewrite !app_nil_r in Hins. by rewrite Hins.
      * intros Hpos. rewrite (He0 eq_refl) in Hpos. lia.
      * intros Hg. specialize (Htok Hg). specialize (Hcnt holding (QTest it)).
        cbn in Hcnt. lia.
      * intros _ _. specialize (Hcnt closing (QTest it)). cbn in Hcnt. lia.
      * done.
  - (* the test *)
    simplify_eq.
    assert (Hcase : (filter_done s =? W) = true ->
              forallb fcounted (filter_tasks s) = true).
    { intros Hd. apply Z.eqb_eq in Hd. apply count_length_forallb. lia. }
    assert (Hnone : forallb fcounted (filter_tasks s) = true ->
              (filter_done s =? W) = true).
    { intros Hall. apply Z.eqb_eq.
      rewrite Hdone, (forallb_true_count _ _ Hall). done. }
    set (t' := if filter_done s =? W then QEnd else QBack it).
    assert (Ht'c : fcounted t' = true) by (unfold t'; by destruct (_ =? _)).
    assert (Ht'h : holding t' = true) by (unfold t'; by destruct (_ =? _)).
    split; cbn [filter_generator filter_input filter_output filter_done
                filter_tasks pushed popped]; try done.
    + by rewrite length_insert.
    + specialize (Hcnt fcounted t'). rewrite Ht'c in Hcnt. cbn in Hcnt.
      rewrite Hdone. lia.
    + intros i t it' Hi Hc.
      destruct (Hlook _ _ _ Hi) as [[_ ->] | [_ Hi']]; [| by eapply Hitem].
      unfold t' in Hc. destruct (filter_done s =? W); [done |].
      cbn in Hc. simplify_eq. by apply (Hitem th _ _ Eth).
    + intros i t Hi Ht.
      destruct (Hlook _ _ _ Hi) as [[_ ->] | [_ Hi']];
        [| by apply (Hpast i t Hi' Ht)].
      by apply (Hpast th _ Eth).
    + intros i Hi. destruct (decide (i = th)) as [-> | Hneq].
      * rewrite list_lookup_insert_eq in Hi by done. apply forallb_insert; [| done].
        apply Hcase. unfold t' in Hi. by destruct (filter_done s =? W).
      * eapply Hend'; [by right | done | done].
    + exists res, e. split; [done |]. split; [| split; [| split; [| split]]].
      * specialize (Hins t'). assert (emitted t' = []) as Hem.
        { unfold t'. by destruct (_ =? _). }
        rewrite Hem in Hins. cbn [emitted] in Hins.
        rewrite !app_nil_r in Hins. by rewrite Hins.
      * intros Hpos. rewrite (He0 eq_refl) in Hpos. lia.
      * intros Hg. specialize (Htok Hg). specialize (Hcnt holding t').
        rewrite Ht'h in Hcnt. cbn in Hcnt. lia.
      * intros Hall _.
        pose proof (forallb_insert_inv _ _ _ _ _ Eth eq_refl Hall) as Hall0.
        specialize (Hclose Hall0 Hne). specialize (Hcnt closing t').
        assert (Hcl : closing t' = true) by (unfold t'; by rewrite (Hnone Hall0)).
        rewrite Hcl in Hcnt. cbn in Hcnt. lia.
      * done.
  - (* the push of the end mark *)
    simplify_eq. pose proof (Hended eq_refl) as Hg.
    specialize (Htok Hg). pose proof (input_shape_ended _ _ ltac:(by rewrite <- Hg)).
    pose proof (Hcnt holding QJoined) as Hh. cbn in Hh.
    assert (e = 0%nat) as -> by lia.
    assert (Hh0 : count holding (<[th := QJoined]> (filter_tasks s)) = 0%nat) by lia.
    pose proof (Hend th Eth) as Hall.
    split; cbn [filter_generator filter_input filter_output filter_done
                filter_tasks pushed popped push]; try done.
    + by rewrite length_insert.
    + specialize (Hcnt fcounted QJoined). cbn in Hcnt. rewrite Hdone. lia.
    + intros i t it Hi Hc.
      destruct (Hlook _ _ _ Hi) as [[_ ->] | [_ Hi']]; [done | by eapply Hitem].
    + intros i t Hi Ht.
      destruct (Hlook _ _ _ Hi) as [[_ ->] | [_ Hi']];
        [| by apply (Hpast i t Hi' Ht)].
      by apply (Hpast th _ Eth).
    + intros i Hi. by apply forallb_insert.
    + exists res, 1%nat. split; [| split; [| split; [| split; [| split]]]].
      * by rewrite Hres, app_nil_r.
      * specialize (Hins QJoined). cbn [emitted] in Hins.
        rewrite !app_nil_r in Hins. by rewrite Hins.
      * intros _. split.
        -- apply forallb_elem_of. intros u Hu.
           destruct (holding u) eqn:Ehu.
           ++ apply list_elem_of_lookup_1 in Hu as [j Hj].
              pose proof (count_insert holding _ j QPop u Hj) as Hc2.
              rewrite Ehu in Hc2. cbn in Hc2. lia.
           ++ apply list_elem_of_lookup_1 in Hu as [j Hj].
              pose proof (forallb_lookup _ _ _ _
                            (forallb_insert _ _ th QJoined Hall eq_refl) Hj).
              by destruct u.
        -- intros Hnil. apply (f_equal length) in Hnil.
           rewrite length_insert in Hnil. cbn in Hnil. lia.
      * intros _. lia.
      * intros _ _. lia.
      * lia.
  - (* the push back *)
    simplify_eq. pose proof (Hended eq_refl) as Hg.
    pose proof (Hitem th _ _ Eth eq_refl) as ->.
    split; cbn [filter_generator filter_input filter_output filter_done
                filter_tasks pushed popped push]; try done.
    + by rewrite length_insert.
    + specialize (Hcnt fcounted QJoined). cbn in Hcnt. rewrite Hdone. lia.
    + rewrite Hg in *. by apply input_shape_push_back.
    + rewrite length_app. lia.
    + intros i t it Hi Hc.
      destruct (Hlook _ _ _ Hi) as [[_ ->] | [_ Hi']]; [done | by eapply Hitem].
    + intros i t Hi Ht.
      destruct (Hlook _ _ _ Hi) as [[_ ->] | [_ Hi']];
        [| by apply (Hpast i t Hi' Ht)].
      by apply (Hpast th _ Eth).
    + intros i Hi. destruct (decide (i = th)) as [-> | Hneq].
      * by rewrite list_lookup_insert_eq in Hi.
      * eapply Hend'; [by right | done | done].
    + exists res, e. split; [done |]. split; [| split; [| split; [| split]]].
      * specialize (Hins QJoined). cbn [emitted] in Hins.
        rewrite !app_nil_r in Hins. by rewrite Hins.
      * intros Hpos. rewrite (He0 eq_refl) in Hpos. lia.
      * intros _. specialize (Htok Hg). specialize (Hcnt holding QJoined).
        cbn in Hcnt. rewrite length_app. cbn. lia.
      * intros Hall _.
        pose proof (forallb_insert_inv _ _ _ _ _ Eth eq_refl Hall) as Hall0.
        specialize (Hclose Hall0 Hne). specialize (Hcnt closing QJoined).
        cbn in Hcnt. lia.
      * done.
Qed.

Lemma fl_step th s s' :
  fl_inv s -> filter_step task ordered W th s = Some s' -> fl_inv s'.
Proof.
  intros Hinv Hstep. destruct th as [| th].
  - by eapply fl_generator_step.
  - by eapply fl_task_step.
Qed.

Lemma fl_run schedule s :
  fl_inv s -> fl_inv (filter_run task ordered W schedule s).
Proof.
  revert s. induction schedule as [|th schedule IH]; intros s Hinv; [done |].
  cbn. apply IH. destruct (filter_step task ordered W th s) as [s'|] eqn:E; cbn.
  - by eapply fl_step.
  - done.
Qed.

Lemma fl_reachable schedule :
  fl_inv (filter_run task ordered W schedule (filter_init W input)).
Proof. apply fl_run, fl_inv_init. Qed.

Lemma emitted_joined (ts : list (@filter_task T)) :
  forallb fjoined ts = true -> ts ≫= emitted = [].
Proof.
  induction ts as [|t ts IH]; [done |].
  cbn. intros H. apply andb_true_iff in H as [Ht Hts].
  destruct t; try done. by apply IH.
Qed.

(** What the filter tasks push for the input. *)
Lemma emit_item_elem_of (it : item T) :
  it ∈ tagged input 0 ≫= emit_item ->
  exists (k : nat) x,
    input !! k = Some x
    /\ ((task x = true /\ it = (Some x, Z.of_nat k))
        \/ (task x = false /\ ordered = true /\ it = (None, Z.of_nat k))).
Proof.
  intros Hin. apply list_elem_of_bind in Hin as (it0 & Hit & Hit0).
  destruct (tagged_elem_of input it0 Hit0) as (k & x & Hx & ->).
  exists k, x. split; [done |]. unfold emit_item, emit in Hit. cbn in Hit.
  destruct (task x).
  - left. apply list_elem_of_singleton in Hit. by split.
  - right. destruct ordered; [| by apply elem_of_nil in Hit].
    apply list_elem_of_singleton in Hit. by split.
Qed.

Lemma emit_item_not_end (l : list (item T)) :
  l ⊆ tagged input 0 ≫= emit_item -> count is_end l = 0%nat.
Proof.
  intros Hsub. apply count_none. intros it Hit.
  destruct (emit_item_elem_of it (Hsub _ Hit))
    as (k & x & _ & [[_ ->] | (_ & _ & ->)]); [done |].
  unfold is_end. cbn. apply Z.eqb_neq. lia.
Qed.

Lemma emit_payloads (l : list T) from :
  omap fst (tagged l from ≫= emit_item)
  = filter (fun x => task x = true) l.
Proof.
  revert from. induction l as [|x l IH]; intros from; [done |].
  cbn [tagged]. rewrite bind_cons, omap_app, IH, filter_cons.
  unfold emit_item, emit. cbn [fst snd].
  destruct (decide (task x = true)) as [Hx | Hx].
  - by rewrite Hx.
  - apply not_true_is_false in Hx. rewrite Hx. by destruct ordered.
Qed.


(** What the output queue of the filter tasks holds once all of them have
    ended. *)
Lemma filter_output_joined schedule :
  1 <= W ->
  let s := filter_run task ordered W schedule (filter_init W input) in
  forallb fjoined (filter_tasks s) = true ->
  exists res,
    pushed (filter_output s) = res ++ [(None, -1)]
    /\ res ≡ₚ tagged input 0 ≫= emit_item.
Proof.
  intros HW s Hall. pose proof (fl_reachable schedule) as Hinv. fold s in Hinv.
  destruct Hinv as [Htasks Hdone Hshape Hpop Hitem Hpast Hend Hout].
  destruct Hout as (res & e & Hres & Hperm & He & Htok & Hclose & He1).
  assert (H0 : exists t, filter_tasks s !! 0%nat = Some t).
  { apply lookup_lt_is_Some. lia. }
  destruct H0 as [t Ht].
  assert (Hne : filter_tasks s <> []) by (by intros Hnil; rewrite Hnil in Ht).
  pose proof (forallb_lookup _ _ _ _ Hall Ht) as Hjt.
  assert (Hp : (length input < popped (filter_input s))%nat).
  { apply (Hpast 0%nat t Ht). by destruct t. }
  rewrite emitted_joined, app_nil_r in Hperm by done.
  rewrite take_ge in Hperm by (rewrite tagged_length; lia).
  assert (Hc : forallb fcounted (filter_tasks s) = true).
  { eapply forallb_mono; [| exact Hall]. by intros []. }
  specialize (Hclose Hc Hne).
  rewrite (count_none closing) in Hclose.
  2:{ intros u Hu. apply list_elem_of_lookup_1 in Hu as [j Hj].
      pose proof (forallb_lookup _ _ _ _ Hall Hj). by destruct u. }
  assert (e = 1%nat) as -> by lia.
  by exists res.
Qed.

(** *** Termination *)

Definition filter_weight (t : @filter_task T) : nat :=
  match t with
  | QHold _ _ => 5
  | QPop => 4
  | QIncr _ => 3
  | QTest _ => 2
  | QEnd | QBack _ => 1
  | QJoined => 0
  end.

(** A bound on the number of steps that the generator task and the tasks
    of the filter stage can still take. *)
Definition filter_left (s : @filter_state T) : nat :=
  (match filter_generator s with
   | Some (rest, _) => S (length rest)
   | None => 0
   end
   + 2 * (length input - popped (filter_input s))
   + total filter_weight (filter_tasks s))%nat.

(** The generator task and all tasks of the filter stage have ended. *)
Definition filter_ended (s : @filter_state T) : bool :=
  match filter_generator s with
  | Some _ => false
  | None => forallb fjoined (filter_tasks s)
  end.

Lemma filter_step_decreases th s s' :
  fl_inv s -> filter_step task ordered W th s = Some s' ->
  (filter_left s' < filter_left s)%nat.
Proof.
  intros [Htasks Hdone Hshape Hpop Hitem Hpast Hend Hout] Hstep.
  destruct th as [| th]; cbn in Hstep.
  - destruct (filter_generator s) as [[[|x rest] order]|] eqn:Eg;
      cbn in Hstep; simplify_eq; unfold filter_left; rewrite Eg; cbn; lia.
  - unfold filter_task_step, filter_set in Hstep.
    destruct (filter_tasks s !! th) as [t|] eqn:Eth; [| done].
    pose proof (fun t' => total_insert filter_weight (filter_tasks s) th t' t Eth)
      as Hw.
    unfold filter_left.
    destruct t as [| x tag | it | it | | it |]; try done.
    + unfold pop in Hstep.
      destruct (pushed (filter_input s) !! popped (filter_input s))
        as [it|] eqn:Elook; [| done].
      simplify_eq. cbn [filter_generator filter_input filter_tasks popped].
      destruct (input_shape_item _ _ _ _ _ Hshape Elook)
        as [(Hp & x & Hx & -> & Htag) | (Hp & -> & Hg)]; cbn [fst snd].
      * specialize (Hw (QHold x (Z.of_nat (popped (filter_input s))))).
        cbn in Hw. lia.
      * specialize (Hw (QIncr (None, Z.of_nat (length input)))).
        cbn in Hw. lia.
    + simplify_eq. cbn [filter_generator filter_input filter_tasks popped].
      specialize (Hw QPop). cbn in Hw. lia.
    + simplify_eq. cbn [filter_generator filter_input filter_tasks popped].
      specialize (Hw (QTest it)). cbn in Hw. lia.
    + simplify_eq. cbn [filter_generator filter_input filter_tasks popped].
      specialize (Hw (if filter_done s =? W then QEnd else QBack it)).
      destruct (filter_done s =? W); cbn in Hw; lia.
    + simplify_eq. cbn [filter_generator filter_input filter_tasks popped].
      specialize (Hw QJoined). cbn in Hw. lia.
    + simplify_eq. cbn [filter_generator filter_input filter_tasks popped push].
      specialize (Hw QJoined). cbn in Hw. lia.
Qed.

Lemma filter_progress s :
  fl_inv s -> filter_ended s = false ->
  exists th s', filter_step task ordered W th s = Some s'.
Proof.
  intros [Htasks Hdone Hshape Hpop Hitem Hpast Hend Hout] Hdone'.
  destruct Hout as (res & e & Hres & Hperm & He & Htok & Hclose & He1).
  unfold filter_ended in Hdone'.
  destruct (filter_generator s) as [[rest order]|] eqn:Eg.
  { exists PGenerator. cbn. rewrite Eg. destruct rest; by eexists. }
  destruct (forallb_false_lookup _ _ Hdone') as (i & t & Hi & Ht).
  assert (Hmove : forall j u, filter_tasks s !! j = Some u ->
            u <> QPop -> u <> QJoined ->
            exists s', filter_step task ordered W (PStage j) s = Some s').
  { intros j u Hj Hu1 Hu2. cbn. unfold filter_task_step. rewrite Hj.
    destruct u; try done; by eexists. }
  destruct t as [| x tag | it | it | | it |]; try done;
    try (exists (PStage i); by eapply Hmove).
  destruct (count holding (filter_tasks s)) as [|n] eqn:Eb.
  - specialize (Htok eq_refl). exists (PStage i). cbn.
    unfold filter_task_step, pop. rewrite Hi.
    destruct (pushed (filter_input s) !! popped (filter_input s))
      as [it|] eqn:Elook; [by eexists |].
    apply lookup_ge_None in Elook.
    assert (e = 0%nat) as ->.
    { destruct e; [done |]. destruct (He ltac:(lia)) as [Hall _].
      by pose proof (forallb_lookup _ _ _ _ Hall Hi). }
    lia.
  - destruct (count_pos_lookup holding (filter_tasks s)) as (j & u & Hj & Hu);
      [lia |].
    exists (PStage j). apply (Hmove j u Hj); by destruct u.
Qed.

Lemma filter_completes (n : nat) s :
  fl_inv s -> (filter_left s <= n)%nat ->
  exists schedule, filter_ended (filter_run task ordered W schedule s) = true.
Proof.
  revert s. induction n as [|n IH]; intros s Hinv Hn.
  - destruct (filter_ended s) eqn:Hd; [by exists [] |].
    destruct (filter_progress s Hinv Hd) as (th & s' & Hstep).
    pose proof (filter_step_decreases _ _ _ Hinv Hstep). lia.
  - destruct (filter_ended s) eqn:Hd; [by exists [] |].
    destruct (filter_progress s Hinv Hd) as (th & s' & Hstep).
    pose proof (filter_step_decreases _ _ _ Hinv Hstep) as Hlt.
    destruct (IH s') as [schedule Hs]; [by eapply fl_step | lia |].
    exists (th :: schedule). cbn. by rewrite Hstep.
Qed.

(** The number of steps of a schedule in which the named task could
    move. *)
Fixpoint filter_moves (schedule : list pipeline_thread) (s : @filter_state T)
  : nat :=
  match schedule with
  | [] => 0
  | th :: schedule' =>
      match filter_step task ordered W th s with
      | Some s' => S (filter_moves schedule' s')
      | None => filter_moves schedule' s
      end
  end.

Lemma filter_moves_bounded schedule s :
  fl_inv s ->
  (filter_moves schedule s + filter_left (filter_run task ordered W schedule s)
   <= filter_left s)%nat.
Proof.
  revert s. induction schedule as [|th schedule IH]; intros s Hinv; [done |].
  change (filter_run task ordered W (th :: schedule) s)
    with (filter_run task ordered W schedule
            (default s (filter_step task ordered W th s))).
  cbn [filter_moves]. destruct (filter_step task ordered W th s) as [s'|] eqn:E;
    cbn [default from_option]; unfold id.
  - pose proof (filter_step_decreases _ _ _ Hinv E).
    specialize (IH s' (fl_step _ _ _ Hinv E)). lia.
  - by apply IH.
Qed.

(** X19. The generator task and the tasks of a filter stage, ordered or
    not, cannot run for ever and cannot get stuck: every run can be
    continued until all of them have ended, a state in which none of them
    can take a step is one in which all have ended, and no run has more
    than [3 * length input + 4 * concurrency_degree + 1] steps. *)
Theorem filter_stage_returns (schedule : list pipeline_thread) :
  let s := filter_run task ordered W schedule (filter_init W input) in
  (exists schedule',
     filter_ended (filter_run task ordered W (schedule ++ schedule')
                     (filter_init W input)) = true)
  /\ ((forall th, filter_step task ordered W th s = None) ->
      filter_ended s = true)
  /\ (filter_moves schedule (filter_init W input)
      <= 3 * length input + 4 * Z.to_nat W + 1)%nat.
Proof.
  intros s. pose proof (fl_reachable schedule) as Hinv. fold s in Hinv.
  split; [| split].
  - destruct (filter_completes (filter_left s) s Hinv) as [schedule' Hs]; [done |].
    exists schedule'. unfold filter_run in *. by rewrite foldl_app.
  - intros Hstuck. destruct (filter_ended s) eqn:Hd; [done |].
    destruct (filter_progress s Hinv Hd) as (th & s' & Hstep).
    by rewrite Hstuck in Hstep.
  - pose proof (filter_moves_bounded schedule (filter_init W input)
                  fl_inv_init) as Hb.
    assert (Hinit : filter_left (filter_init W input)
                    = (3 * length input + 4 * Z.to_nat W + 1)%nat).
    { unfold filter_left. cbn. rewrite total_replicate. cbn. lia. }
    lia.
Qed.

End FilterPipelineFacts.

(** ** The reorder task of the ordered filter stage *)

Section ReorderTaskFacts.
Import OmpPipeline.
Context {T : Type}.
Variable pay : nat -> option T.   (* the payload that arrives under a tag *)

(** The item or hole that arrives under the tag [t]. *)
Definition mark (t : nat) : item T := (pay t, Z.of_nat t).















End ReorderTaskFacts.


(** ** The filter stage and the pipeline around it *)


Section FilterPipelineResults.
Import OmpPipeline.
Context {T : Type}.
Variable task : T -> bool.
Variable ordered : bool.
Variable W : Z.
Variable input : list T.

Lemma emit_ordered :
  ordered = true ->
  tagged input 0 ≫= emit_item task ordered
  = mark (pay_of task input) <$> seq 0 (length input).
Proof.
  intros Hord.
  assert (H : forall (l before : list T),
            input = before ++ l ->
            tagged l (Z.of_nat (length before)) ≫= emit_item task ordered
            = mark (pay_of task input) <$> seq (length before) (length l)).
  { induction l as [|x l IH]; intros before Hin; [done |].
    cbn [tagged length seq]. rewrite bind_cons, fmap_cons.
    specialize (IH (before ++ [x])).
    rewrite length_app, Nat.add_1_r, <- (assoc_L (++)) in IH.
    replace (Z.of_nat (length before) + 1) with (Z.of_nat (S (length before)))
      by lia.
    rewrite (IH Hin). unfold emit_item, emit, mark, pay_of. cbn [fst snd].
    rewrite Hin, list_lookup_middle by done. rewrite Hord.
    by destruct (task x). }
  apply (H input []). done.
Qed.

(** X15. A filter stage that is fed by the generator task of [pipeline],
    so that its input queue is given the empty optional exactly once: the
    tasks pass the empty optional on from one to the next, and the one
    that finds [done_threads] equal to the concurrency degree pushes the
    end mark.  Whatever the schedule, the output queue of the tasks never
    holds more than one end mark, and once all tasks have ended it holds
    exactly one, as its last item.  (Given the empty optional twice, the
    stage can push two end marks: [filter_stage_fed_twice].) *)
Theorem filter_stage_end_mark (schedule : list pipeline_thread) :
  let s := filter_run task ordered W schedule (filter_init W input) in
  (count is_end (pushed (filter_output s)) <= 1)%nat
  /\ (1 <= W -> forallb fjoined (filter_tasks s) = true ->
      count is_end (pushed (filter_output s)) = 1%nat
      /\ last (pushed (filter_output s)) = Some (None, -1)).
Proof.
  intros s. split.
  - pose proof (fl_reachable task ordered W input schedule) as Hinv.
    fold s in Hinv.
    destruct Hinv as [_ _ _ _ _ _ _ Hout].
    destruct Hout as (res & e & Hres & Hperm & _ & _ & _ & He1).
    rewrite Hres, count_app, count_replicate. cbn.
    rewrite (emit_item_not_end task ordered input res); [lia |].
    intros it Hit.
    assert (Hin : it ∈ take (popped (filter_input s)) (tagged input 0)
                       ≫= emit_item task ordered).
    { rewrite <- Hperm. apply elem_of_app. by left. }
    apply list_elem_of_bind in Hin as (it0 & Hit0 & Hin).
    apply list_elem_of_bind. exists it0. split; [done |].
    by eapply subseteq_take.
  - intros HW Hall.
    destruct (filter_output_joined task ordered W input schedule HW Hall)
      as (res & Hres & Hperm).
    fold s in Hres. rewrite Hres, count_app, last_snoc. split; [| done].
    rewrite (emit_item_not_end task ordered input res); [done |].
    intros it Hit. by rewrite <- Hperm.
Qed.

(** X17. Once all tasks of a filter stage with at least one task have
    ended, their output queue holds, before the end mark: in the ordered
    pipeline one item for every element of the input, with the tag of the
    element, the element itself if it passes the filter and a hole if it
    does not; in the unordered pipeline the elements that pass the filter
    with their tags and nothing else.  Either way the payloads are, up to
    their order, the elements that pass. *)
Theorem filter_stage_complete (schedule : list pipeline_thread) :
  1 <= W ->
  let s := filter_run task ordered W schedule (filter_init W input) in
  forallb fjoined (filter_tasks s) = true ->
  exists res,
    pushed (filter_output s) = res ++ [(None, -1)]
    /\ omap fst res ≡ₚ filter (fun x => task x = true) input
    /\ (ordered = true ->
        res ≡ₚ (fun k => (pay_of task input k, Z.of_nat k))
                 <$> seq 0 (length input))
    /\ (ordered = false ->
        forall it, it ∈ res ->
          exists (k : nat) x, input !! k = Some x /\ task x = true
                              /\ it = (Some x, Z.of_nat k)).
Proof.
  intros HW s Hall.
  destruct (filter_output_joined task ordered W input schedule HW Hall)
    as (res & Hres & Hperm).
  exists res. split; [done |]. split; [| split].
  - pose proof (emit_payloads task ordered input 0) as Hp.
    unfold item in *. by rewrite Hperm, Hp.
  - intros Hord. by rewrite Hperm, emit_ordered.
  - intros Hord it Hit. rewrite Hperm in Hit.
    destruct (emit_item_elem_of task ordered input it Hit)
      as (k & x & Hx & [[Ht ->] | (_ & Ho & _)]); [| congruence].
    by exists k, x.
Qed.


End FilterPipelineResults.

(** ** Runs of the OpenMP pipeline with two tasks *)

(** The generator runs to its end, then the two tasks of the stage take
    turns. *)
Definition turns : list OmpPipeline.pipeline_thread :=
  replicate 4 OmpPipeline.PGenerator
  ++ concat (replicate 12 [OmpPipeline.PStage 0; OmpPipeline.PStage 1]).

Lemma farm_pipeline_complete_witness :
  let s := OmpPipeline.farm_pipeline_run (fun x => x * 10) 2 turns
             (OmpPipeline.farm_pipeline_init 2 [1; 2; 3]) in
  exists res e,
    pushed (OmpPipeline.output_queue (OmpPipeline.farm_stage s))
    = res ++ replicate (S e) (None, -1)
    /\ res ≡ₚ tagged ((fun x => x * 10) <$> [1; 2; 3]) 0
    /\ (forall (k : nat) x, [1; 2; 3] !! k = Some x ->
          (Some (x * 10), Z.of_nat k) ∈ res).
Proof.
  apply (farm_pipeline_complete (fun x => x * 10) 2 [1; 2; 3] turns).
  - lia.
  - reflexivity.
Defined.

Lemma farm_pipeline_result_witness :
  let s := OmpPipeline.farm_pipeline_run (fun x => x * 10) 2 turns
             (OmpPipeline.farm_pipeline_init 2 [1; 2; 3]) in
  exists out,
    OmpPipeline.pipeline_impl_last true
      (pushed (OmpPipeline.output_queue (OmpPipeline.farm_stage s)))
    = OmpPipeline.Returned out
    /\ out ≡ₚ (fun x => x * 10) <$> [1; 2; 3]
    /\ (true = true -> out = (fun x => x * 10) <$> [1; 2; 3]).
Proof.
  apply (farm_pipeline_result (fun x => x * 10) 2 [1; 2; 3] turns true).
  - lia.
  - reflexivity.
Defined.

Lemma farm_pipeline_idle_witness :
  let s := OmpPipeline.farm_pipeline_run (fun x => x * 10) 0 turns
             (OmpPipeline.farm_pipeline_init 0 [1; 2; 3]) in
  OmpPipeline.farm_tasks (OmpPipeline.farm_stage s) = []
  /\ pushed (OmpPipeline.output_queue (OmpPipeline.farm_stage s)) = []
  /\ OmpPipeline.pipeline_impl_last true
       (pushed (OmpPipeline.output_queue (OmpPipeline.farm_stage s)))
     = OmpPipeline.Blocked [].
Proof.
  apply (farm_pipeline_idle (fun x => x * 10) 0 [1; 2; 3] turns true).
  lia.
Defined.

Lemma filter_stage_complete_witness :
  let s := OmpPipeline.filter_run Z.even true 2 turns
             (OmpPipeline.filter_init 2 [1; 2; 3]) in
  exists res,
    pushed (OmpPipeline.filter_output s) = res ++ [(None, -1)]
    /\ omap fst res ≡ₚ filter (fun x => Z.even x = true) [1; 2; 3]
    /\ (true = true ->
        res ≡ₚ (fun k => (pay_of Z.even [1; 2; 3] k, Z.of_nat k))
                 <$> seq 0 (length [1; 2; 3]))
    /\ (true = false ->
        forall it, it ∈ res ->
          exists (k : nat) x, [1; 2; 3] !! k = Some x /\ Z.even x = true
                              /\ it = (Some x, Z.of_nat k)).
Proof.
  apply (filter_stage_complete Z.even true 2 [1; 2; 3] turns).
  - lia.
  - reflexivity.
Defined.


(** The same runs, computed: the two end marks of the farm stage and the
    single one of the filter stage, the holes of the ordered filter stage,
    and what the consumer gets. *)
Lemma pipeline_runs :
  (let s := OmpPipeline.farm_pipeline_run (fun x => x * 10) 2
              (replicate 4 OmpPipeline.PGenerator
               ++ [OmpPipeline.PStage 0; OmpPipeline.PStage 1;
                   OmpPipeline.PStage 1; OmpPipeline.PStage 1;
                   OmpPipeline.PStage 0; OmpPipeline.PStage 1]
               ++ [OmpPipeline.PStage 0; OmpPipeline.PStage 0;
                   OmpPipeline.PStage 1; OmpPipeline.PStage 1;
                   OmpPipeline.PStage 0; OmpPipeline.PStage 1;
                   OmpPipeline.PStage 0; OmpPipeline.PStage 1])
              (OmpPipeline.farm_pipeline_init 2 [1; 2; 3]) in
   pushed (OmpPipeline.output_queue (OmpPipeline.farm_stage s))
   = [(Some 20, 1); (Some 10, 0); (Some 30, 2); (None, -1); (None, -1)]
   /\ OmpPipeline.pipeline_impl_last true
        (pushed (OmpPipeline.output_queue (OmpPipeline.farm_stage s)))
      = OmpPipeline.Returned [10; 20; 30]
   /\ OmpPipeline.pipeline_impl_last false
        (pushed (OmpPipeline.output_queue (OmpPipeline.farm_stage s)))
      = OmpPipeline.Returned [20; 10; 30])
  /\ (let s := OmpPipeline.filter_run Z.even true 2 turns
                 (OmpPipeline.filter_init 2 [1; 2; 3]) in
      pushed (OmpPipeline.filter_output s)
      = [(None, 0); (Some 2, 1); (None, 2); (None, -1)]
      /\ OmpPipeline.filter_pipeline_result true
           (pushed (OmpPipeline.filter_output s))
         = OmpPipeline.Returned [2]).
Proof. repeat split; reflexivity. Qed.

(** A filter stage with two tasks whose input queue holds the empty
    optional twice, as the farm stage can leave it: each task takes one of
    them, both increment [done_threads] before either compares it with
    the concurrency degree, and both push an end mark. *)
Lemma filter_stage_fed_twice :
  let s0 := {| OmpPipeline.filter_generator := None;
               OmpPipeline.filter_input :=
                 {| pushed := [(Some 7, 0); (None, 1); (None, 1)];
                    popped := 0 |};
               OmpPipeline.filter_output := make_queue;
               OmpPipeline.filter_done := 0;
               OmpPipeline.filter_tasks := replicate 2 OmpPipeline.QPop |} in
  let s := OmpPipeline.filter_run Z.even true 2
             (OmpPipeline.PStage <$> [0; 0; 0; 1; 0; 1; 0; 1; 0; 1]%nat) s0 in
  OmpPipeline.filter_tasks s = [OmpPipeline.QJoined; OmpPipeline.QJoined]
  /\ pushed (OmpPipeline.filter_output s) = [(None, 0); (None, -1); (None, -1)]
  /\ count is_end (pushed (OmpPipeline.filter_output s)) = 2%nat.
Proof. repeat split; reflexivity. Qed.
